(** * Trade reconciliation: matching engine, break classifier, auto-resolver,
      pattern detector and orchestrator

    A shallow embedding of [engine.py], [analyzer.py], the steps and the
    exception boundary of [orchestration.py], the case creation of
    [workflow.py] and the FIX parser of [parsers.py].

    Conventions of the embedding.
    - Python numbers are exact rationals ([Q]); a float literal such as
      [0.85] is the rational 85/100.  Comparisons are the exact ones.
    - A Python call that can raise returns a [result]; sequencing is the
      usual error monad, so the first exception aborts the rest, as in Python.
    - A [dict] with a fixed set of keys is a record; a key that may be absent
      is an [option] field.  The lookup index (a [dict] of lists) is a
      [gmap]; the set of matched ids is a [gset].
    - A time stamp is the number of seconds since the epoch, so that
      [(a - b).total_seconds()] is [a - b].
    - A row of a data frame that mixes text and numbers is an object row:
      its numbers are Python floats, and dividing by a zero float raises
      [ZeroDivisionError].
    - What the repository calls but does not define is a parameter:
      [fuzz.ratio], the built-in [hash], the scaler and DBSCAN, the clock,
      the steps of the orchestrator, the SMTP session, and [str.strip],
      [strptime], [float] and [json.dumps] in the parsers. *)

From Stdlib Require Import QArith Qabs Qminmax Qround Lqa ZArith Lia Ascii String.
From stdpp Require Import gmap strings list sorting.

Local Open Scope Z_scope.

(** ** Exceptions and results *)

Inductive exn : Type :=
| ZeroDivisionError
| KeyError (key : string)
| TypeError
| AttributeError
| RuntimeError (msg : string).

Inductive result (A : Type) : Type :=
| Ok (a : A)
| Raise (e : exn).
Arguments Ok {A} a.
Arguments Raise {A} e.

#[global] Instance result_ret : MRet result := fun _ a => Ok a.
#[global] Instance result_bind : MBind result := fun _ _ f m =>
  match m with
  | Ok a => f a
  | Raise e => Raise e
  end.

(** Python's [str(e)] for the exceptions of the model. *)
Definition str_exn (e : exn) : string :=
  match e with
  | ZeroDivisionError => "float division by zero"
  | KeyError k => "'" +:+ k +:+ "'"
  | TypeError => "unsupported operand type(s)"
  | AttributeError => "object has no attribute"
  | RuntimeError msg => msg
  end.

(** [a / b] on Python numbers: a zero divisor raises. *)
Definition pydiv (a b : Q) : result Q :=
  if Qeq_bool b 0 then Raise ZeroDivisionError else Ok (a / b)%Q.

(** [np.mean] of a list of numbers. *)
Definition np_mean (scores : list Q) : Q :=
  (foldr Qplus 0%Q scores / inject_Z (Z.of_nat (length scores)))%Q.

(** [x > y] on Python numbers. *)
Definition Qgt_bool (x y : Q) : bool := negb (Qle_bool x y).

(** [max(0, x)] *)
Definition max0 (x : Q) : Q := if Qle_bool x 0 then 0%Q else x.

(** [str.upper], on the ASCII letters. *)
Definition upper_ascii (c : ascii) : ascii :=
  let n := nat_of_ascii c in
  if ((97 <=? n)%nat && (n <=? 122)%nat)%bool then ascii_of_nat (n - 32) else c.

Fixpoint upper (s : string) : string :=
  match s with
  | EmptyString => EmptyString
  | String c s' => String (upper_ascii c) (upper s')
  end.

(** ** Data model *)

(** A trade row.  [row_id] is the key ['id'] of the dictionary (the name
    [id] is the identity function here). *)
Record Trade : Type := {
  row_id : Z;
  trade_id : string;
  instrument_id : string;
  counterparty : string;
  price : Q;
  quantity : Q;
  trade_date : Q;
  settlement_date : Z
}.

Record MatchConfig : Type := {
  price_tolerance_percent : Q;
  price_tolerance_absolute : Q;
  quantity_tolerance_percent : Q;
  time_window_hours : Q;
  min_match_score : Q
}.

(** [MatchConfig()] *)
Definition default_config : MatchConfig := {|
  price_tolerance_percent := 0.01;
  price_tolerance_absolute := 0.01;
  quantity_tolerance_percent := 0.001;
  time_window_hours := 24;
  min_match_score := 0.85
|}.

Inductive Severity : Type := LOW | MEDIUM | HIGH | CRITICAL.

(** A value stored under ['expected_value'] or ['actual_value']. *)
Inductive pyval : Type :=
| VNone
| VNum (q : Q)
| VStr (s : string)
| VDate (days : Z).

(** A break dictionary.  An [option] field is a key that may be absent. *)
Record Break : Type := {
  break_id : option Z;
  break_type : string;
  severity : Severity;
  trade : option Trade;
  expected_value : option pyval;
  actual_value : option pyval;
  difference : option Q;
  root_cause_category : option string;
  auto_resolvable : option bool;
  priority_score : option Q;
  created_at : option Q
}.

(** The break emitted by the matcher for an unmatched row:
    [{'trade': ..., 'break_type': ..., 'severity': 'HIGH'}]. *)
Definition missing_break (kind : string) (t : Trade) : Break := {|
  break_id := None;
  break_type := kind;
  severity := HIGH;
  trade := Some t;
  expected_value := None;
  actual_value := None;
  difference := None;
  root_cause_category := None;
  auto_resolvable := None;
  priority_score := None;
  created_at := None
|}.

Record Match : Type := {
  internal_trade : Trade;
  external_trade : Trade;
  match_score : Q;
  match_method : string
}.

(** [abs((a['trade_date'] - b['trade_date']).total_seconds() / 3600)] *)
Definition time_diff_hours (internal external : Trade) : Q :=
  Qabs ((trade_date internal - trade_date external) / 3600)%Q.

(** A row whose price and quantity are positive. *)
Definition positive_trade (t : Trade) : Prop :=
  (0 < price t)%Q ∧ (0 < quantity t)%Q.

(** A row whose price and quantity are not zero, and a configuration whose
    tolerances and time window are not zero: the divisors of the score. *)
Definition nonzero_trade (t : Trade) : Prop :=
  ¬ (price t == 0)%Q ∧ ¬ (quantity t == 0)%Q.

Definition nonzero_config (cfg : MatchConfig) : Prop :=
  ¬ (price_tolerance_percent cfg == 0)%Q ∧
  ¬ (quantity_tolerance_percent cfg == 0)%Q ∧
  ¬ (time_window_hours cfg == 0)%Q.

(** ** Matching engine ([engine.py]) *)

(** The dictionary returned by [_find_best_match]: [{'matched': False}] or
    [{'matched': True, 'external_trade': .., 'score': .., 'method': ..}]. *)
Inductive MatchResult : Type :=
| NotMatched
| Matched (external : Trade) (score : Q) (method : string).

Section Scoring.

(** [fuzz.ratio] of the fuzzywuzzy package: an integer percentage. *)
Variable fuzz_ratio : string → string → Z.

Variable config : MatchConfig.

Definition _calculate_match_score (internal external : Trade) : result Q :=
  let scores : list Q := [] in
  (* Exact matches (weight: 1.0) *)
  let scores :=
    scores ++ [if bool_decide (instrument_id internal = instrument_id external)
               then 1.0%Q else 0.0%Q] in
  (* Fuzzy match counterparty (weight: 0.8) *)
  let counterparty_score :=
    (inject_Z (fuzz_ratio (upper (counterparty internal))
                          (upper (counterparty external))) / 100.0)%Q in
  let scores := scores ++ [(counterparty_score * 0.8)%Q] in
  (* Price proximity (weight: 0.9) *)
  price_diff_pct ← pydiv (Qabs (price internal - price external)) (price internal);
  price_score ←
    (if Qle_bool price_diff_pct (price_tolerance_percent config)
     then q ← pydiv price_diff_pct (price_tolerance_percent config);
          mret (1.0 - q)%Q
     else mret 0.0%Q);
  let scores := scores ++ [(price_score * 0.9)%Q] in
  (* Quantity proximity (weight: 0.9) *)
  qty_diff_pct ← pydiv (Qabs (quantity internal - quantity external))
                       (quantity internal);
  qty_score ←
    (if Qle_bool qty_diff_pct (quantity_tolerance_percent config)
     then q ← pydiv qty_diff_pct (quantity_tolerance_percent config);
          mret (1.0 - q)%Q
     else mret 0.0%Q);
  let scores := scores ++ [(qty_score * 0.9)%Q] in
  (* Time proximity (weight: 0.6) *)
  let time_diff_hours := time_diff_hours internal external in
  q ← pydiv time_diff_hours (time_window_hours config);
  let time_score := max0 (1.0 - q)%Q in
  let scores := scores ++ [(time_score * 0.6)%Q] in
  (* Weighted average *)
  mret (np_mean scores).

Definition _validate_match (internal external : Trade) : result bool :=
  (* Price check *)
  price_diff_pct ← pydiv (Qabs (price internal - price external)) (price internal);
  let price_diff_abs := Qabs (price internal - price external) in
  if Qgt_bool price_diff_pct (price_tolerance_percent config)
     && Qgt_bool price_diff_abs (price_tolerance_absolute config)
  then mret false
  else
    (* Quantity check *)
    qty_diff_pct ← pydiv (Qabs (quantity internal - quantity external))
                         (quantity internal);
    if Qgt_bool qty_diff_pct (quantity_tolerance_percent config)
    then mret false
    else
      (* Must match on key fields *)
      if bool_decide (instrument_id internal ≠ instrument_id external)
      then mret false
      else mret true.

(** The three keys under which a row is indexed and looked up. *)
Definition lookup_keys (row : Trade) : list string :=
  [ instrument_id row;
    instrument_id row +:+ "_" +:+ counterparty row;
    trade_id row ].

(** [if key not in index: index[key] = []; index[key].append(row)] *)
Definition index_append (index : gmap string (list Trade)) (key : string)
    (row : Trade) : gmap string (list Trade) :=
  <[key := default [] (index !! key) ++ [row]]> index.

Definition _create_lookup_index (df : list Trade) : gmap string (list Trade) :=
  foldl (λ index row,
           foldl (λ index key, index_append index key row) index (lookup_keys row))
        ∅ df.

Definition _get_candidates (internal_trade : Trade)
    (external_index : gmap string (list Trade)) (matched_ids : gset Z)
    : list Trade :=
  foldl (λ candidates key,
           match external_index !! key with
           | Some bucket =>
               candidates ++
               filter (λ trade,
                         (row_id trade ∉ matched_ids) ∧
                         (Qle_bool (time_diff_hours internal_trade trade)
                                   (time_window_hours config) = true)) bucket
           | None => candidates
           end)
        [] (lookup_keys internal_trade).

(** The loop of [_find_best_match] over the candidates, with the running
    [best_match] and [best_score]. *)
Fixpoint best_candidate (internal_trade : Trade) (candidates : list Trade)
    (best_match : option Trade) (best_score : Q) : result (option Trade * Q) :=
  match candidates with
  | [] => mret (best_match, best_score)
  | candidate :: rest =>
      score ← _calculate_match_score internal_trade candidate;
      if Qgt_bool score best_score && Qle_bool (min_match_score config) score
      then best_candidate internal_trade rest (Some candidate) score
      else best_candidate internal_trade rest best_match best_score
  end.

Definition _find_best_match (internal_trade : Trade)
    (external_index : gmap string (list Trade)) (matched_ids : gset Z)
    : result MatchResult :=
  let candidates := _get_candidates internal_trade external_index matched_ids in
  match candidates with
  | [] => mret NotMatched
  | _ =>
      '(best_match, best_score) ← best_candidate internal_trade candidates None 0%Q;
      match best_match with
      | Some best =>
          valid ← _validate_match internal_trade best;
          if valid : bool
          then mret (Matched best best_score "ALGORITHMIC")
          else mret NotMatched
      | None => mret NotMatched
      end
  end.

(** The first loop of [match_trades]: one pass over the internal rows
    with the accumulators [matches], [breaks] and [matched_external_ids]. *)
Fixpoint match_internal (external_by_key : gmap string (list Trade))
    (internal_df : list Trade) (matches : list Match) (breaks : list Break)
    (matched_external_ids : gset Z)
    : result (list Match * list Break * gset Z) :=
  match internal_df with
  | [] => mret (matches, breaks, matched_external_ids)
  | internal_trade :: rest =>
      match_result ← _find_best_match internal_trade external_by_key
                                      matched_external_ids;
      match match_result with
      | Matched ext score method =>
          match_internal external_by_key rest
            (matches ++ [{| internal_trade := internal_trade;
                            external_trade := ext;
                            match_score := score;
                            match_method := method |}])
            breaks
            (matched_external_ids ∪ {[row_id ext]})
      | NotMatched =>
          match_internal external_by_key rest matches
            (breaks ++ [missing_break "MISSING_EXTERNAL_TRADE" internal_trade])
            matched_external_ids
      end
  end.

(** The second loop: the external rows that were not matched. *)
Definition unmatched_external (external_df : list Trade)
    (matched_external_ids : gset Z) : list Break :=
  missing_break "MISSING_INTERNAL_TRADE" <$>
    filter (λ external_trade, row_id external_trade ∉ matched_external_ids)
           external_df.

Definition match_trades (internal_trades external_trades : list Trade)
    : result (list Match * list Break) :=
  let external_by_key := _create_lookup_index external_trades in
  '(matches, breaks, matched_external_ids) ←
    match_internal external_by_key internal_trades [] [] ∅;
  mret (matches,
        breaks ++ unmatched_external external_trades matched_external_ids).

End Scoring.

(** [index] only holds rows of [df]. *)
Definition index_within (index : gmap string (list Trade)) (df : list Trade) : Prop :=
  ∀ key bucket t, index !! key = Some bucket → t ∈ bucket → t ∈ df.

(** The number of breaks of a given type in the list returned by
    [match_trades]. *)
Definition count_breaks (kind : string) (breaks : list Break) : nat :=
  length (filter (λ b, break_type b = kind) breaks).

(** ** The score, component by component

    The pieces of [_calculate_match_score] under the names the specification
    gives them; the properties below relate them to the code. *)

Section Score_components.

Variable fuzz_ratio : string → string → Z.

(** The price (or quantity) proximity component of the score. *)
Definition proximity (d tol : Q) : result Q :=
  if Qle_bool d tol then q ← pydiv d tol; mret (1.0 - q)%Q else mret 0.0%Q.

Definition instrument_score (i e : Trade) : Q :=
  if bool_decide (instrument_id i = instrument_id e) then 1.0%Q else 0.0%Q.

Definition counterparty_score (i e : Trade) : Q :=
  (inject_Z (fuzz_ratio (upper (counterparty i)) (upper (counterparty e))) / 100.0)%Q.

End Score_components.

(** ** Break classifier ([analyzer.py], [BreakAnalyzer]) *)

(** [needle in haystack] on strings. *)
Fixpoint contains (needle haystack : string) : bool :=
  String.prefix needle haystack ||
  match haystack with
  | EmptyString => false
  | String _ rest => contains needle rest
  end.

(** [severity_map.get(break_type, 'MEDIUM')] *)
Definition severity_map_get (break_type : string) : Severity :=
  if bool_decide (break_type = "SETTLEMENT_DATE_MISMATCH") then MEDIUM
  else if bool_decide (break_type = "COUNTERPARTY_MISMATCH") then HIGH
  else if bool_decide (break_type = "ACCOUNT_MISMATCH") then HIGH
  else if bool_decide (break_type = "CURRENCY_MISMATCH") then CRITICAL
  else MEDIUM.

(** [break_data.get('trade', {}).get('quantity', 0)] and the like. *)
Definition trade_quantity_or (default : Q) (break_data : Break) : Q :=
  match trade break_data with
  | Some t => quantity t
  | None => default
  end.

Definition trade_price_or (default : Q) (break_data : Break) : Q :=
  match trade break_data with
  | Some t => price t
  | None => default
  end.

Definition _determine_severity (break_data : Break) : Severity :=
  let break_type := break_type break_data in
  (* Missing trades are always high severity *)
  if contains "MISSING" break_type then CRITICAL
  else
    match difference break_data with
    | Some difference =>
        (* Check monetary impact *)
        let diff := Qabs difference in
        if contains "PRICE" break_type then
          (* For price mismatches *)
          let quantity := trade_quantity_or 0 break_data in
          let impact := (diff * quantity)%Q in
          if Qgt_bool impact 100000 then CRITICAL
          else if Qgt_bool impact 10000 then HIGH
          else if Qgt_bool impact 1000 then MEDIUM
          else LOW
        else if contains "QUANTITY" break_type then
          (* For quantity mismatches *)
          let price := trade_price_or 0 break_data in
          let impact := (diff * price)%Q in
          if Qgt_bool impact 100000 then CRITICAL
          else if Qgt_bool impact 10000 then HIGH
          else MEDIUM
        else severity_map_get break_type
    | None => severity_map_get break_type
    end.

(** The four buckets the specification gives for both kinds of mismatch. *)
Definition spec_bucket (impact : Q) : Severity :=
  if Qgt_bool impact 100000 then CRITICAL
  else if Qgt_bool impact 10000 then HIGH
  else if Qgt_bool impact 1000 then MEDIUM
  else LOW.

(** ** Auto-resolver ([analyzer.py], [AutoResolver]) *)

(** [d[name]] for a key that may be absent. *)
Definition getitem {A} (name : string) (v : option A) : result A :=
  match v with
  | Some a => Ok a
  | None => Raise (KeyError name)
  end.

(** [(a - b).days]: defined on two dates; two numbers subtract to a number,
    which has no [days]; anything else does not subtract. *)
Definition days_between (a b : pyval) : result Z :=
  match a, b with
  | VDate x, VDate y => Ok (x - y)
  | VNum _, VNum _ => Raise AttributeError
  | _, _ => Raise TypeError
  end.

(** [name.upper()] on a value. *)
Definition value_upper (v : pyval) : result string :=
  match v with
  | VStr s => Ok (upper s)
  | _ => Raise AttributeError
  end.

(** [known_mappings.get((a, b), False)] *)
Definition known_mappings_get (a b : string) : bool :=
  bool_decide (a = "JPMORGAN CHASE" ∧ b = "JPM") ||
  bool_decide (a = "GOLDMAN SACHS" ∧ b = "GS") ||
  bool_decide (a = "MORGAN STANLEY" ∧ b = "MS").

Definition _check_counterparty_alias (name1 name2 : pyval) : result bool :=
  k0 ← value_upper name1;
  k1 ← value_upper name2;
  mret (known_mappings_get k0 k1 || known_mappings_get k1 k0).

Record Rule : Type := {
  name : string;
  condition : Break → result bool;
  action : string;
  reason : string
}.

(** The four entries of the list built by [_load_resolution_rules]. *)
Definition settlement_date_rule : Rule :=
  {| name := "SETTLEMENT_DATE_T_PLUS_ADJUSTMENT";
     condition := λ b,
       if bool_decide (break_type b = "SETTLEMENT_DATE_MISMATCH") then
         expected ← getitem "expected_value" (expected_value b);
         actual ← getitem "actual_value" (actual_value b);
         days ← days_between expected actual;
         mret (bool_decide (Z.abs days ≤ 1))
       else mret false;
     action := "ACCEPT_EXTERNAL";
     reason := "Settlement date within T+1 tolerance" |}.

Definition penny_rounding_rule : Rule :=
  {| name := "PENNY_ROUNDING";
     condition := λ b,
       if bool_decide (break_type b = "PRICE_MISMATCH") then
         d ← getitem "difference" (difference b);
         mret (Qle_bool (Qabs d) 0.01)
       else mret false;
     action := "ACCEPT_EXTERNAL";
     reason := "Price difference within rounding tolerance (1 cent)" |}.

Definition quantity_rounding_rule : Rule :=
  {| name := "QUANTITY_ROUNDING";
     condition := λ b,
       if bool_decide (break_type b = "QUANTITY_MISMATCH") then
         d ← getitem "difference" (difference b);
         mret (Qgt_bool 0.01 (Qabs d))
       else mret false;
     action := "ACCEPT_INTERNAL";
     reason := "Quantity difference negligible (< 0.01 shares)" |}.

Definition known_counterparty_rule : Rule :=
  {| name := "KNOWN_COUNTERPARTY_MAPPING";
     condition := λ b,
       if bool_decide (break_type b = "COUNTERPARTY_MISMATCH") then
         expected ← getitem "expected_value" (expected_value b);
         actual ← getitem "actual_value" (actual_value b);
         _check_counterparty_alias expected actual
       else mret false;
     action := "UPDATE_MAPPING";
     reason := "Counterparty names are known aliases" |}.

Definition _load_resolution_rules : list Rule :=
  [ settlement_date_rule; penny_rounding_rule; quantity_rounding_rule;
    known_counterparty_rule ].

(** What [attempt_auto_resolve] returns: [{'resolved': False}] or the
    dictionary of the rule that fired. *)
Inductive Resolution : Type :=
| Unresolved
| Resolved (rule_applied action reason : string) (timestamp : Q).

(** The loop of [attempt_auto_resolve]; [now] is what [datetime.utcnow()]
    returns when a rule fires.  A condition that raises is caught by
    [except Exception] and the loop continues. *)
Fixpoint attempt_auto_resolve (resolution_rules : list Rule) (now : Q)
    (break_record : Break) : Resolution :=
  match resolution_rules with
  | [] => Unresolved
  | rule :: rest =>
      match condition rule break_record with
      | Ok true => Resolved (name rule) (action rule) (reason rule) now
      | Ok false => attempt_auto_resolve rest now break_record
      | Raise e => attempt_auto_resolve rest now break_record
      end
  end.

(** A rule fires on a break when its condition returns [True]. *)
Definition fires (break_record : Break) (rule : Rule) : bool :=
  match condition rule break_record with
  | Ok true => true
  | _ => false
  end.

(** A row of the break table, as far as [_update_break_status] writes it. *)
Record BreakRow : Type := {
  row_status : string;
  resolved_at : option Q;
  resolution_notes : option string
}.

(** The state [batch_auto_resolve] runs in: the break table, and how many
    times the clock has been read. *)
Record ResolverState : Type := {
  db : gmap Z BreakRow;
  tick : nat
}.

(** The dictionary returned by [batch_auto_resolve]; an entry of
    [resolutions] is [{'break_id': .., **resolution}]. *)
Record BatchResults : Type := {
  total_breaks : nat;
  auto_resolved : nat;
  failed_resolution : nat;
  resolutions : list (Z * Resolution)
}.

Definition resolution_reason (r : Resolution) : string :=
  match r with
  | Resolved _ _ reason _ => reason
  | Unresolved => ""
  end.

Section Batch.

(** [utcnow n] is the [n]-th reading of [datetime.utcnow()]. *)
Variable utcnow : nat → Q.
Variable resolution_rules : list Rule.

(** [self.db.query(Break).filter(Break.id == break_id).first()], and the
    update when a row is found. *)
Definition _update_break_status (break_id : Z) (status : string)
    (resolution : Resolution) (st : ResolverState) : ResolverState :=
  match db st !! break_id with
  | Some break_obj =>
      {| db := <[break_id :=
                  {| row_status := status;
                     resolved_at := Some (utcnow (tick st));
                     resolution_notes :=
                       Some ("Auto-resolved: " +:+ resolution_reason resolution) |}]>
               (db st);
         tick := S (tick st) |}
  | None => st
  end.

(** The loop of [batch_auto_resolve].  An exception leaves the loop with the
    table as it is at that point. *)
Fixpoint batch_loop (breaks : list Break) (results : BatchResults)
    (st : ResolverState) : result BatchResults * ResolverState :=
  match breaks with
  | [] => (Ok results, st)
  | break_record :: rest =>
      match auto_resolvable break_record with
      | Some true =>
          match attempt_auto_resolve resolution_rules (utcnow (tick st)) break_record with
          | Resolved rule_applied action reason timestamp =>
              let resolution := Resolved rule_applied action reason timestamp in
              let st := {| db := db st; tick := S (tick st) |} in
              match break_id break_record with
              | Some id =>
                  (* Update database *)
                  let st := _update_break_status id "AUTO_RESOLVED" resolution st in
                  batch_loop rest
                    {| total_breaks := total_breaks results;
                       auto_resolved := S (auto_resolved results);
                       failed_resolution := failed_resolution results;
                       resolutions := resolutions results ++ [(id, resolution)] |}
                    st
              | None => (Raise (KeyError "id"), st)
              end
          | Unresolved =>
              batch_loop rest
                {| total_breaks := total_breaks results;
                   auto_resolved := auto_resolved results;
                   failed_resolution := S (failed_resolution results);
                   resolutions := resolutions results |}
                st
          end
      | _ => batch_loop rest results st
      end
  end.

Definition batch_auto_resolve (breaks : list Break) (st : ResolverState)
    : result BatchResults * ResolverState :=
  batch_loop breaks
    {| total_breaks := length breaks;
       auto_resolved := 0;
       failed_resolution := 0;
       resolutions := [] |}
    st.

End Batch.

(** Forgetting the readings of the clock. *)
Definition erase_timestamp (r : Resolution) : Resolution :=
  match r with
  | Resolved rule_applied action reason _ => Resolved rule_applied action reason 0
  | Unresolved => Unresolved
  end.








(** ** Pattern detector ([analyzer.py], [BreakAnalyzer.detect_patterns]) *)

Record Pattern : Type := {
  pattern_id : Z;
  break_count : nat;
  common_counterparty : option string;
  common_break_type : option string;
  common_root_cause : option string;
  total_impact : Q;
  first_occurrence : Q;
  last_occurrence : Q;
  pattern_severity : Severity;
  recommendation : string
}.

(** [f"{v}"] of an optional string. *)
Definition str_option (v : option string) : string :=
  match v with
  | Some s => s
  | None => "None"
  end.

Definition occurrences (v : string) (values : list string) : nat :=
  length (filter (λ x, x = v) values).

(** [Counter(values).most_common(1)[0][0]]: the value counted most often,
    the one seen first among equals. *)
Definition most_common (values : list string) : option string :=
  foldl (λ best v,
           match best with
           | None => Some v
           | Some w =>
               if (occurrences w values <? occurrences v values)%nat
               then Some v else Some w
           end)
        None values.

(** [_find_common_value] on the values found under the key path: the empty
    and the missing ones are left out. *)
Definition _find_common_value (values : list (option string)) : option string :=
  most_common
    (omap (λ v, match v with
                | Some s => if bool_decide (s = "") then None else Some s
                | None => None
                end) values).

Definition _generate_recommendation (common_cause : option string) : string :=
  match common_cause with
  | Some cause =>
      if bool_decide (cause = "BROKER_FEED_ISSUE") then
        "Contact broker operations team to investigate feed delays/failures"
      else if bool_decide (cause = "DATA_ENTRY_ERROR") then
        "Implement additional validation checks in trade entry system"
      else if bool_decide (cause = "PARTIAL_FILL") then
        "Review order execution and auto-match partial fills"
      else if bool_decide (cause = "ROUNDING_DIFFERENCE") then
        "Align rounding rules between systems"
      else if bool_decide (cause = "LATE_BOOKING") then
        "Escalate to trading desk for EOD booking procedures review"
      else "Manual investigation required"
  | None => "Manual investigation required"
  end.

Section Patterns.

(** The built-in [hash] of the running interpreter on strings.  CPython
    keys it with a secret drawn when the process starts (PYTHONHASHSEED), so
    it is a parameter of the process. *)
Variable hash : string → Z.

(** [StandardScaler().fit_transform] followed by
    [DBSCAN(eps=0.5, min_samples=3).fit_predict]: one label per row, -1 for
    noise. *)
Variable fit_predict : list (list Q) → list Z.

(** [datetime.utcnow()] *)
Variable now : Q.

Definition feature_vector (b : Break) : list Q :=
  [ inject_Z (hash (from_option counterparty "" (trade b)) `mod` 1000);
    inject_Z (hash (from_option instrument_id "" (trade b)) `mod` 1000);
    inject_Z (hash (break_type b) `mod` 100);
    default 0%Q (priority_score b);
    trade_price_or 0 b;
    trade_quantity_or 0 b ].

Definition _analyze_cluster (cluster_breaks : list Break) : Pattern :=
  let common_counterparty :=
    _find_common_value ((λ b, counterparty <$> trade b) <$> cluster_breaks) in
  let common_break_type :=
    _find_common_value ((λ b, Some (break_type b)) <$> cluster_breaks) in
  let common_root_cause :=
    _find_common_value (root_cause_category <$> cluster_breaks) in
  let total_impact :=
    foldr Qplus 0%Q
      ((λ b, Qabs (default 0%Q (difference b)) * trade_quantity_or 1 b)%Q
         <$> cluster_breaks) in
  let occurrences := (λ b, default now (created_at b)) <$> cluster_breaks in
  {| pattern_id :=
       hash (str_option common_counterparty +:+ "_" +:+ str_option common_break_type)
         `mod` 100000;
     break_count := length cluster_breaks;
     common_counterparty := common_counterparty;
     common_break_type := common_break_type;
     common_root_cause := common_root_cause;
     total_impact := total_impact;
     first_occurrence := foldr Qmin (default now (head occurrences)) occurrences;
     last_occurrence := foldr Qmax (default now (head occurrences)) occurrences;
     pattern_severity := if (10 <? length cluster_breaks)%nat then HIGH else MEDIUM;
     recommendation := _generate_recommendation common_root_cause |}.

(** [set(labels)] without the noise label; a set of small integers is
    iterated in increasing order. *)
Definition cluster_ids (labels : list Z) : list Z :=
  merge_sort Z.le (remove_dups (filter (λ l, l ≠ -1) labels)).

Definition detect_patterns (breaks : list Break) : list Pattern :=
  if (length breaks <? 5)%nat then []
  else
    (* Convert breaks to feature vectors *)
    let features := feature_vector <$> breaks in
    (* Normalize features, cluster breaks *)
    let labels := fit_predict features in
    (* Analyze clusters *)
    omap (λ cluster_id,
            let cluster_breaks :=
              fst <$> filter (λ bl, bl.2 = cluster_id) (zip breaks labels) in
            if (3 <=? length cluster_breaks)%nat
            then Some (_analyze_cluster cluster_breaks)
            else None)
         (cluster_ids labels).

End Patterns.

(** ** Orchestrator ([orchestration.py], [run_daily_reconciliation]) *)

Record ReconciliationRun : Type := {
  run_status : string;
  total_internal_trades : option nat;
  total_external_trades : option nat;
  matched_trades : option nat;
  new_breaks : option nat;
  auto_resolved_breaks : option nat;
  duration_seconds : option Q;
  error_message : option string
}.

(** [ReconciliationRun(trade_date=trade_date, status='RUNNING')] *)
Definition running : ReconciliationRun := {|
  run_status := "RUNNING";
  total_internal_trades := None;
  total_external_trades := None;
  matched_trades := None;
  new_breaks := None;
  auto_resolved_breaks := None;
  duration_seconds := None;
  error_message := None
|}.

Record Statistics : Type := {
  stat_internal_trades : nat;
  stat_external_trades : nat;
  stat_matched : nat;
  stat_breaks : nat;
  stat_auto_resolved : nat;
  stat_cases_created : nat
}.

(** The dictionary [run_daily_reconciliation] returns. *)
Inductive RunResult (Report : Type) : Type :=
| SUCCESS (statistics : Statistics) (report : Report)
| FAILED (error : string).
Arguments SUCCESS {Report} statistics report.
Arguments FAILED {Report} error.

(** A computation on the run record that may raise: the record keeps the
    writes made before the exception. *)
Definition Step (A : Type) : Type := ReconciliationRun → result A * ReconciliationRun.

Definition step_ret {A} (a : A) : Step A := λ run, (Ok a, run).

Definition step_bind {A B} (m : Step A) (k : A → Step B) : Step B :=
  λ run, match m run with
         | (Ok a, run') => k a run'
         | (Raise e, run') => (Raise e, run')
         end.

(** A call to a collaborator, which leaves the run record alone. *)
Definition call {A} (r : result A) : Step A := λ run, (r, run).

(** An assignment to fields of [recon_run], followed by [self.db.commit()]. *)
Definition update (f : ReconciliationRun → ReconciliationRun) : Step unit :=
  λ run, (Ok (), f run).

Notation "x ←ₛ m ;; k" := (step_bind m (λ x, k))
  (at level 100, m at next level, right associativity, only parsing).
Notation "m ;;ₛ k" := (step_bind m (λ _, k))
  (at level 100, right associativity, only parsing).

Section Orchestrator.

Context {Report Case : Type}.

(** The steps of the run, each with the exception it may raise.  Their
    effects on the trade and break tables are not part of the model. *)
Variable _ingest_trades : result (list Trade * list Trade).
Variable _match_trades : list Trade → list Trade → result (list Match * list Break).
Variable _identify_breaks : list Match → list Break → result (list Break).
Variable _analyze_breaks : list Break → result (list Break).
Variable _auto_resolve_breaks : list Break → result BatchResults.
Variable _create_workflow_cases : list Break → BatchResults → result (list Case).
Variable _generate_report : ReconciliationRun → list Break → BatchResults → result Report.

(** [(end_time - start_time).total_seconds()] *)
Variable duration : Q.

(** The body of the [try] block. *)
Definition reconciliation_steps : Step (RunResult Report) :=
  (* Step 1: Ingest trades *)
  trades ←ₛ call _ingest_trades;;
  let '(internal_trades, external_trades) := trades in
  update (λ run, {| run_status := run_status run;
                    total_internal_trades := Some (length internal_trades);
                    total_external_trades := Some (length external_trades);
                    matched_trades := matched_trades run;
                    new_breaks := new_breaks run;
                    auto_resolved_breaks := auto_resolved_breaks run;
                    duration_seconds := duration_seconds run;
                    error_message := error_message run |});;ₛ
  (* Step 2: Match trades *)
  matched ←ₛ call (_match_trades internal_trades external_trades);;
  let '(matches, unmatched) := matched in
  update (λ run, {| run_status := run_status run;
                    total_internal_trades := total_internal_trades run;
                    total_external_trades := total_external_trades run;
                    matched_trades := Some (length matches);
                    new_breaks := new_breaks run;
                    auto_resolved_breaks := auto_resolved_breaks run;
                    duration_seconds := duration_seconds run;
                    error_message := error_message run |});;ₛ
  (* Step 3: Identify breaks *)
  breaks ←ₛ call (_identify_breaks matches unmatched);;
  update (λ run, {| run_status := run_status run;
                    total_internal_trades := total_internal_trades run;
                    total_external_trades := total_external_trades run;
                    matched_trades := matched_trades run;
                    new_breaks := Some (length breaks);
                    auto_resolved_breaks := auto_resolved_breaks run;
                    duration_seconds := duration_seconds run;
                    error_message := error_message run |});;ₛ
  (* Step 4: Analyze and categorize breaks *)
  categorized_breaks ←ₛ call (_analyze_breaks breaks);;
  (* Step 5: Auto-resolve breaks *)
  auto_resolution_results ←ₛ call (_auto_resolve_breaks categorized_breaks);;
  update (λ run, {| run_status := run_status run;
                    total_internal_trades := total_internal_trades run;
                    total_external_trades := total_external_trades run;
                    matched_trades := matched_trades run;
                    new_breaks := new_breaks run;
                    auto_resolved_breaks := Some (auto_resolved auto_resolution_results);
                    duration_seconds := duration_seconds run;
                    error_message := error_message run |});;ₛ
  (* Step 6: Create workflow cases for unresolved breaks *)
  cases ←ₛ call (_create_workflow_cases categorized_breaks auto_resolution_results);;
  (* Step 7: Generate reports *)
  report ←ₛ (λ run, (_generate_report run categorized_breaks auto_resolution_results, run));;
  (* Complete reconciliation run *)
  update (λ run, {| run_status := "COMPLETED";
                    total_internal_trades := total_internal_trades run;
                    total_external_trades := total_external_trades run;
                    matched_trades := matched_trades run;
                    new_breaks := new_breaks run;
                    auto_resolved_breaks := auto_resolved_breaks run;
                    duration_seconds := Some duration;
                    error_message := error_message run |});;ₛ
  step_ret (SUCCESS {| stat_internal_trades := length internal_trades;
                       stat_external_trades := length external_trades;
                       stat_matched := length matches;
                       stat_breaks := length breaks;
                       stat_auto_resolved := auto_resolved auto_resolution_results;
                       stat_cases_created := length cases |}
                    report).

(** The [except Exception as e] handler. *)
Definition on_exception (e : exn) : Step (RunResult Report) :=
  update (λ run, {| run_status := "FAILED";
                    total_internal_trades := total_internal_trades run;
                    total_external_trades := total_external_trades run;
                    matched_trades := matched_trades run;
                    new_breaks := new_breaks run;
                    auto_resolved_breaks := auto_resolved_breaks run;
                    duration_seconds := duration_seconds run;
                    error_message := Some (str_exn e) |});;ₛ
  step_ret (FAILED (str_exn e)).

(** The outcome of the call (a returned dictionary or a propagated
    exception) and the run record it leaves in the table. *)
Definition run_daily_reconciliation : result (RunResult Report) * ReconciliationRun :=
  (* Create reconciliation run record *)
  let recon_run := running in
  match reconciliation_steps recon_run with
  | (Ok returned, recon_run) => (Ok returned, recon_run)
  | (Raise e, recon_run) => on_exception e recon_run
  end.

End Orchestrator.

(** ** The score and the validation gate as the specification states them *)

Section Specified_matching.

Variable fuzz_ratio : string → string → Z.
Variable config : MatchConfig.

(** "[1 − diff_pct / tol]; 0 if [diff_pct > tol]" *)
Definition spec_proximity (diff_pct tol : Q) : Q :=
  if Qgt_bool diff_pct tol then 0%Q else (1 - diff_pct / tol)%Q.

(** The arithmetic mean of the five components, the last four multiplied
    by 0.8, 0.9, 0.9 and 0.6. *)
Definition spec_score (internal external : Trade) : Q :=
  let instrument :=
    if bool_decide (instrument_id internal = instrument_id external)
    then 1%Q else 0%Q in
  let similarity :=
    (inject_Z (fuzz_ratio (upper (counterparty internal))
                          (upper (counterparty external))) / 100)%Q in
  let price_proximity :=
    spec_proximity (Qabs (price internal - price external) / price internal)
                   (price_tolerance_percent config) in
  let quantity_proximity :=
    spec_proximity (Qabs (quantity internal - quantity external) / quantity internal)
                   (quantity_tolerance_percent config) in
  let time_proximity :=
    Qmax 0 (1 - time_diff_hours internal external / time_window_hours config) in
  ((instrument + 0.8 * similarity + 0.9 * price_proximity
    + 0.9 * quantity_proximity + 0.6 * time_proximity) / 5)%Q.

(** The hard gate: instrument equal, price within the relative or the
    absolute tolerance, quantity within the relative tolerance. *)
Definition spec_gate (internal external : Trade) : Prop :=
  instrument_id internal = instrument_id external ∧
  ((Qabs (price internal - price external) / price internal
      <= price_tolerance_percent config)%Q ∨
   (Qabs (price internal - price external) <= price_tolerance_absolute config)%Q) ∧
  (Qabs (quantity internal - quantity external) / quantity internal
     <= quantity_tolerance_percent config)%Q.

End Specified_matching.

(** ** Sample data *)

(** A ratio that only tells identical strings from different ones; on
    identical strings [fuzz.ratio] is 100 as well. *)
Definition exact_ratio (a b : string) : Z :=
  if bool_decide (a = b) then 100 else 0.

Definition mk_trade (rid : Z) (tid instr cpty : string) (p q t : Q) : Trade := {|
  row_id := rid; trade_id := tid; instrument_id := instr; counterparty := cpty;
  price := p; quantity := q; trade_date := t; settlement_date := 0
|}.

(** A purchase booked on both sides. *)
Definition buy_internal : Trade := mk_trade 1 "I1" "ABC" "JPM" 10 100 32400.
Definition buy_external : Trade := mk_trade 11 "E1" "ABC" "JPM" 10 100 32700.

(** A sale, the quantity carrying the sign, reported with another size. *)
Definition sell_internal : Trade := mk_trade 2 "I2" "XYZ" "GS" 20 (-100) 36000.
Definition sell_external : Trade := mk_trade 12 "E2" "XYZ" "GS" 20 (-50) 36000.

(** Rows with an empty numeric field, which the parsers read as 0. *)
Definition zero_price_internal : Trade := mk_trade 3 "I3" "ABC" "JPM" 0 100 32400.
Definition zero_quantity_internal : Trade := mk_trade 4 "I4" "ABC" "JPM" 10 0 32400.

(** A price difference of exactly one percent. *)
Definition par_internal : Trade := mk_trade 5 "I5" "ABC" "JPM" 100 100 32400.
Definition par_external : Trade := mk_trade 15 "E5" "ABC" "JPM" 101 100 32400.

(** A quantity mismatch of one share on a trade priced 10. *)
Definition small_quantity_break : Break := {|
  break_id := Some 7;
  break_type := "QUANTITY_MISMATCH";
  severity := MEDIUM;
  trade := Some buy_internal;
  expected_value := Some (VNum 100);
  actual_value := Some (VNum 101);
  difference := Some 1%Q;
  root_cause_category := Some "PARTIAL_FILL";
  auto_resolvable := Some true;
  priority_score := Some 100%Q;
  created_at := Some 0%Q
|}.

(** A price mismatch of half a cent, and the same break without its
    ['difference'] key. *)
Definition penny_break : Break := {|
  break_id := Some 8;
  break_type := "PRICE_MISMATCH";
  severity := LOW;
  trade := Some buy_internal;
  expected_value := Some (VNum 10);
  actual_value := Some (VNum 10.005);
  difference := Some 0.005%Q;
  root_cause_category := Some "ROUNDING_DIFFERENCE";
  auto_resolvable := Some true;
  priority_score := Some 10%Q;
  created_at := Some 0%Q
|}.

(** A settlement date one day late whose expected value was stored as
    text: the first rule raises on it. *)
Definition settlement_text_break : Break := {|
  break_id := Some 9;
  break_type := "SETTLEMENT_DATE_MISMATCH";
  severity := MEDIUM;
  trade := Some buy_internal;
  expected_value := Some (VStr "2024-01-02");
  actual_value := Some (VDate 19725);
  difference := None;
  root_cause_category := None;
  auto_resolvable := Some true;
  priority_score := Some 100%Q;
  created_at := Some 0%Q
|}.




(** A run whose internal feed holds a row with price 0, matched by the
    engine under the default configuration; the later steps do nothing. *)
Definition zero_price_run : result (RunResult unit) * ReconciliationRun :=
  run_daily_reconciliation (Case := unit)
    (Ok ([zero_price_internal], [buy_external]))
    (match_trades exact_ratio default_config)
    (λ _ unmatched, Ok unmatched)
    (λ breaks, Ok breaks)
    (λ breaks, Ok {| total_breaks := length breaks; auto_resolved := 0;
                     failed_resolution := 0; resolutions := [] |})
    (λ _ _, Ok [])
    (λ _ _ _, Ok ())
    0.

(** The same run on a clean feed. *)
Definition clean_run : result (RunResult unit) * ReconciliationRun :=
  run_daily_reconciliation (Case := unit)
    (Ok ([buy_internal], [buy_external]))
    (match_trades exact_ratio default_config)
    (λ _ unmatched, Ok unmatched)
    (λ breaks, Ok breaks)
    (λ breaks, Ok {| total_breaks := length breaks; auto_resolved := 0;
                     failed_resolution := 0; resolutions := [] |})
    (λ _ _, Ok [])
    (λ _ _ _, Ok ())
    0.

(** A break table holding the row of [penny_break], still open, and a clock
    that advances by one second at each reading. *)
Definition open_table : ResolverState :=
  {| db := {[ 8 := {| row_status := "OPEN"; resolved_at := None;
                      resolution_notes := None |} ]};
     tick := 0 |}.

Definition second_clock (n : nat) : Q := inject_Z (Z.of_nat n).

Definition sample_batch : list Break :=
  [penny_break; small_quantity_break; settlement_text_break].

(** A pair as [match_trades] may emit it: rows of the two feeds, scored
    and validated. *)
Definition sound_pair (fuzz_ratio : string → string → Z) (cfg : MatchConfig)
    (ints exts : list Trade) (m : Match) : Prop :=
  internal_trade m ∈ ints ∧ external_trade m ∈ exts ∧
  _calculate_match_score fuzz_ratio cfg (internal_trade m) (external_trade m)
    = Ok (match_score m) ∧
  (min_match_score cfg <= match_score m)%Q ∧
  _validate_match cfg (internal_trade m) (external_trade m) = Ok true ∧
  match_method m = "ALGORITHMIC".

(** ** The rest of the engine: [identify_breaks] *)

(** A break dictionary as [identify_breaks] builds it: no ['id'], no
    ['trade']. *)
Definition mismatch_break (kind : string) (sev : Severity)
    (expected actual : pyval) (diff : option Q) : Break := {|
  break_id := None;
  break_type := kind;
  severity := sev;
  trade := None;
  expected_value := Some expected;
  actual_value := Some actual;
  difference := diff;
  root_cause_category := None;
  auto_resolvable := None;
  priority_score := None;
  created_at := None
|}.

Definition identify_breaks (config : MatchConfig) (internal external : Trade)
    : result (list Break) :=
  let breaks : list Break := [] in
  (* Price mismatch *)
  price_diff_pct ← pydiv (Qabs (price internal - price external)) (price internal);
  let breaks :=
    if Qgt_bool price_diff_pct (price_tolerance_percent config)
    then breaks ++
         [mismatch_break "PRICE_MISMATCH"
            (if Qgt_bool price_diff_pct 0.05 then HIGH else MEDIUM)
            (VNum (price internal)) (VNum (price external))
            (Some (price external - price internal)%Q)]
    else breaks in
  (* Quantity mismatch *)
  qty_diff_pct ← pydiv (Qabs (quantity internal - quantity external))
                       (quantity internal);
  let breaks :=
    if Qgt_bool qty_diff_pct (quantity_tolerance_percent config)
    then breaks ++
         [mismatch_break "QUANTITY_MISMATCH"
            (if Qgt_bool qty_diff_pct 0.01 then HIGH else MEDIUM)
            (VNum (quantity internal)) (VNum (quantity external))
            (Some (quantity external - quantity internal)%Q)]
    else breaks in
  (* Settlement date mismatch *)
  let breaks :=
    if bool_decide (settlement_date internal ≠ settlement_date external)
    then breaks ++
         [mismatch_break "SETTLEMENT_DATE_MISMATCH" LOW
            (VDate (settlement_date internal)) (VDate (settlement_date external))
            None]
    else breaks in
  mret breaks.

(** [ReconciliationOrchestrator._identify_breaks]: the breaks of every
    matched pair, then the missing-side breaks.  The rows it adds to the
    break table are not part of the model. *)
Fixpoint _identify_breaks (config : MatchConfig) (matches : list Match)
    (unmatched : list Break) : result (list Break) :=
  match matches with
  | [] => mret unmatched
  | m :: rest =>
      breaks ← identify_breaks config (internal_trade m) (external_trade m);
      all_breaks ← _identify_breaks config rest unmatched;
      mret (breaks ++ all_breaks)
  end.

(** ** The rest of the classifier: [categorize_break] *)

(** [int(x)]: truncation towards zero. *)
Definition py_int (x : Q) : Z :=
  if Qle_bool 0 x then Qfloor x else Qceiling x.

(** [t.hour] of a time stamp. *)
Definition hour_of (t : Q) : Z := (Qfloor t `div` 3600) `mod` 24.

(** [number / value]: only a number divides a number. *)
Definition pydiv_value (a : Q) (v : pyval) : result Q :=
  match v with
  | VNum b => pydiv a b
  | _ => Raise TypeError
  end.

Definition _identify_root_cause (break_data : Break) : result string :=
  let break_type := break_type break_data in
  (* Pattern-based root cause identification *)
  if contains "MISSING_EXTERNAL" break_type then
    (* Check if near EOD *)
    match trade break_data with
    | Some t =>
        if bool_decide (16 ≤ hour_of (trade_date t))
        then mret "LATE_BOOKING"
        else mret "BROKER_FEED_ISSUE"
    | None => mret "BROKER_FEED_ISSUE"
    end
  else if contains "MISSING_INTERNAL" break_type then
    mret "INTERNAL_BOOKING_ERROR"
  else if contains "PRICE_MISMATCH" break_type then
    diff_pct ← pydiv_value (Qabs (default 0%Q (difference break_data)))
                           (default (VNum 1) (expected_value break_data));
    if Qgt_bool diff_pct 0.1
    then mret "DATA_ENTRY_ERROR"
    else mret "ROUNDING_DIFFERENCE"
  else if contains "QUANTITY_MISMATCH" break_type then
    mret "PARTIAL_FILL"
  else mret "UNKNOWN".

Definition _is_auto_resolvable (break_data : Break) : bool :=
  (* Only auto-resolve low severity, specific break types *)
  match severity break_data with
  | CRITICAL | HIGH => false
  | _ =>
      if bool_decide (root_cause_category break_data = Some "SETTLEMENT_DATE_MISMATCH"
                      ∨ root_cause_category break_data = Some "ROUNDING_DIFFERENCE")
      then true
      else
        (* Price/quantity differences within tight tolerances *)
        match difference break_data with
        | Some d =>
            if contains "MISMATCH" (break_type break_data)
            then Qgt_bool 0.01 (Qabs d)
            else false
        | None => false
        end
  end.

Definition _get_sla_hours (sev : Severity) : Z :=
  match sev with
  | CRITICAL => 2
  | HIGH => 4
  | MEDIUM => 24
  | LOW => 48
  end.

Definition base_score (sev : Severity) : Z :=
  match sev with
  | CRITICAL => 1000
  | HIGH => 500
  | MEDIUM => 100
  | LOW => 10
  end.

(** [now] is the reading of [datetime.utcnow()], taken when the break has
    a ['created_at']. *)
Definition _calculate_priority_score (now : Q) (break_data : Break)
    (sev : Severity) : Z :=
  let score := base_score sev in
  (* Increase priority for aged breaks *)
  let score :=
    match created_at break_data with
    | Some created =>
        let age_hours := ((now - created) / 3600)%Q in
        score + py_int (age_hours * 10)
    | None => score
    end in
  (* Increase priority for high-value trades *)
  let notional := (trade_price_or 0 break_data * trade_quantity_or 0 break_data)%Q in
  if Qgt_bool notional 1000000 then score + 200
  else if Qgt_bool notional 100000 then score + 100
  else score.

(** The dictionary returned by [categorize_break]: the break with its
    classification written over the old keys, and the new key
    ['sla_hours']. *)
Record CategorizedBreak : Type := {
  categorized : Break;
  sla_hours : option Z
}.

Definition categorize_break (now : Q) (break_data : Break) : result CategorizedBreak :=
  let sev := _determine_severity break_data in
  root_cause ← _identify_root_cause break_data;
  mret {| categorized :=
            {| break_id := break_id break_data;
               break_type := break_type break_data;
               severity := sev;
               trade := trade break_data;
               expected_value := expected_value break_data;
               actual_value := actual_value break_data;
               difference := difference break_data;
               root_cause_category := Some root_cause;
               auto_resolvable := Some (_is_auto_resolvable break_data);
               priority_score := Some (inject_Z (_calculate_priority_score now break_data sev));
               created_at := created_at break_data |};
          sla_hours := Some (_get_sla_hours sev) |}.

(** The loop of [ReconciliationOrchestrator._analyze_breaks].  The call of
    [detect_patterns] that follows the loop only feeds a log line; it is left
    out here. *)
Fixpoint _analyze_breaks (now : Q) (breaks : list Break)
    : result (list CategorizedBreak) :=
  match breaks with
  | [] => mret []
  | break_data :: rest =>
      categorized_break ← categorize_break now break_data;
      others ← _analyze_breaks now rest;
      mret (categorized_break :: others)
  end.

(** ** Workflow ([workflow.py], [WorkflowManager]) *)

Record AssignmentRule : Type := {
  assign_condition : Break → bool;
  assign_to : string;
  assign_priority : Z
}.

Definition _load_assignment_rules : list AssignmentRule := [
  {| assign_condition := λ b,
       match severity b with CRITICAL => true | _ => false end;
     assign_to := "senior-ops-team@firm.com";
     assign_priority := 1 |};
  {| assign_condition := λ b,
       contains "BROKER_FEED" (default "" (root_cause_category b));
     assign_to := "broker-ops-team@firm.com";
     assign_priority := 2 |};
  {| assign_condition := λ b,
       bool_decide (counterparty <$> trade b = Some "JPMORGAN");
     assign_to := "jpm-specialist@firm.com";
     assign_priority := 3 |};
  {| assign_condition := λ _, true;
     assign_to := "general-ops-team@firm.com";
     assign_priority := 99 |}
].

Definition priority_le (x y : AssignmentRule) : Prop :=
  assign_priority x ≤ assign_priority y.

#[global] Instance priority_le_dec : RelDecision priority_le :=
  λ x y, decide (assign_priority x ≤ assign_priority y).

(** [sorted(rules, key=lambda x: x['priority'])] *)
Definition sorted_rules (rules : list AssignmentRule) : list AssignmentRule :=
  merge_sort priority_le rules.

Definition _auto_assign (assignment_rules : list AssignmentRule) (break_data : Break)
    : string :=
  match List.find (λ rule, assign_condition rule break_data)
                  (sorted_rules assignment_rules) with
  | Some rule => assign_to rule
  | None => "general-ops-team@firm.com"
  end.

(** The keys of the notification configuration that [_send_email] reads
    before its [try] block. *)
Record NotificationConfig : Type := {
  from_address : option string
}.

Record Case : Type := {
  case_break_id : Z;
  case_id : string;
  case_status : string;
  assigned_to : string;
  case_created_at : Q;
  sla_deadline : Q;
  case_priority_score : Q
}.

Section Workflow.

Variable notification_config : NotificationConfig.

(** [utcnow n] is the [n]-th reading of the clock. *)
Variable utcnow : nat → Q.

(** [t.strftime('%Y%m%d')] and [str] of an integer. *)
Variable strftime_ymd : Q → string.
Variable str_int : Z → string.

(** The SMTP session of [_send_email], inside its [try] block: what it
    raises is printed and dropped. *)
Variable smtp_send : string → result unit.

Definition _send_email (to_address : string) : result unit :=
  from ← getitem "from_address" (from_address notification_config);
  match smtp_send to_address with
  | Ok _ => mret ()
  | Raise e => mret ()
  end.

(** [tick] is the number of clock readings made so far. *)
Definition create_break_case (tick : nat) (break_data : CategorizedBreak)
    : result Case :=
  let b := categorized break_data in
  (* Determine assignment *)
  let assigned_to := _auto_assign _load_assignment_rules b in
  (* Calculate SLA deadline *)
  let sla_hours := default 24 (sla_hours break_data) in
  let sla_deadline := (utcnow tick + inject_Z sla_hours * 3600)%Q in
  id ← getitem "id" (break_id b);
  let case :=
    {| case_break_id := id;
       case_id := "CASE-" +:+ strftime_ymd (utcnow (S tick)) +:+ "-" +:+ str_int id;
       case_status := "ASSIGNED";
       assigned_to := assigned_to;
       case_created_at := utcnow (S (S tick));
       sla_deadline := sla_deadline;
       case_priority_score := default 100%Q (priority_score b) |} in
  (* Send notification *)
  _ ← _send_email assigned_to;
  mret case.

(** The loop of [ReconciliationOrchestrator._create_workflow_cases]. *)
Fixpoint workflow_cases_loop (breaks : list CategorizedBreak)
    (auto_resolved_ids : gset Z) (tick : nat) (cases : list Case)
    : result (list Case) :=
  match breaks with
  | [] => mret cases
  | break_data :: rest =>
      id ← getitem "id" (break_id (categorized break_data));
      if decide (id ∈ auto_resolved_ids)
      then workflow_cases_loop rest auto_resolved_ids tick cases
      else
        case ← create_break_case tick break_data;
        workflow_cases_loop rest auto_resolved_ids (3 + tick) (cases ++ [case])
  end.

Definition _create_workflow_cases (breaks : list CategorizedBreak)
    (auto_resolution_results : BatchResults) (tick : nat) : result (list Case) :=
  let auto_resolved_ids : gset Z :=
    list_to_set (fst <$> resolutions auto_resolution_results) in
  workflow_cases_loop breaks auto_resolved_ids tick [].

End Workflow.

(** ** The breaks that reach the later steps *)

(** A break dictionary as the engine emits it: a missing-side break of
    [match_trades], or a break of [identify_breaks] on some pair. *)
Definition engine_break (cfg : MatchConfig) (b : Break) : Prop :=
  (∃ kind t, (kind = "MISSING_EXTERNAL_TRADE" ∨ kind = "MISSING_INTERNAL_TRADE") ∧
             b = missing_break kind t) ∨
  (∃ i e bs, identify_breaks cfg i e = Ok bs ∧ b ∈ bs).

(** ** Parsers ([parsers.py]) *)

(** [s.split(sep)] for a separator of one character: the pieces between
    the separators, the empty ones included. *)
Fixpoint split (sep : ascii) (s : string) : list string :=
  match s with
  | EmptyString => [EmptyString]
  | String c rest =>
      if Ascii.eqb c sep then EmptyString :: split sep rest
      else match split sep rest with
           | piece :: pieces => String c piece :: pieces
           | [] => [String c EmptyString]
           end
  end.

(** [s.split(sep, 1)] on a string that holds the separator: the text
    before its first occurrence, and the text after it. *)
Fixpoint split_first (sep : ascii) (s : string) : string * string :=
  match s with
  | EmptyString => (EmptyString, EmptyString)
  | String c rest =>
      if Ascii.eqb c sep then (EmptyString, rest)
      else let '(before, after) := split_first sep rest in (String c before, after)
  end.

Definition FIX_TAG_MAP : gmap string string :=
  {[ "11" := "trade_id";
     "55" := "instrument_id";
     "54" := "side";
     "38" := "quantity";
     "44" := "price";
     "15" := "currency";
     "75" := "trade_date";
     "64" := "settlement_date" ]}.

(** [self.FIX_TAG_MAP.get(tag, f'tag_{tag}')] *)
Definition field_name (tag : string) : string :=
  default ("tag_" +:+ tag) (FIX_TAG_MAP !! tag).

(** The standardized trade dictionary of [normalize_trade]. *)
Record NormalizedTrade : Type := {
  n_trade_id : option string;
  n_source : string;
  n_trade_date : Q;
  n_settlement_date : Q;
  n_instrument_id : option string;
  n_instrument_name : option string;
  n_quantity : Q;
  n_price : Q;
  n_currency : string;
  n_counterparty : option string;
  n_account : option string;
  n_raw_data : string
}.

Section Parsers.

(** [str.strip], [datetime.strptime], [float] of a string and [json.dumps].
    A call that raises returns [None]: the callers catch every exception and
    only print it. *)
Variable strip : string → string.
Variable strptime : string → string → option Q.
Variable float : string → option Q.
Variable json_dumps : gmap string string → string.

Definition _parse_fix_message (message : string) : gmap string string :=
  let fields := split "|" (strip message) in
  foldl (λ trade_dict field,
           if contains "=" field then
             let '(tag, value) := split_first "=" field in
             <[field_name tag := value]> trade_dict
           else trade_dict)
        ∅ fields.

(** The loop of [_parse_date] over the formats; [strptime] of [None] raises
    [TypeError] for every format, so the loop ends in the [ValueError]. *)
Fixpoint parse_date_loop (date_str : string) (formats : list string) : option Q :=
  match formats with
  | [] => None
  | fmt :: rest =>
      match strptime date_str fmt with
      | Some t => Some t
      | None => parse_date_loop date_str rest
      end
  end.

Definition _parse_date (date_str : option string) : option Q :=
  match date_str with
  | Some s => parse_date_loop s ["%Y-%m-%d"; "%Y%m%d"; "%d/%m/%Y"; "%m/%d/%Y"]
  | None => None
  end.

(** [float(raw_trade.get(key, 0))] on a dictionary of strings. *)
Definition float_or_zero (v : option string) : option Q :=
  match v with
  | Some s => float s
  | None => Some 0%Q
  end.

Definition normalize_trade (raw_trade : gmap string string) (source : string)
    : option NormalizedTrade :=
  trade_date ← _parse_date (raw_trade !! "trade_date");
  settlement_date ← _parse_date (raw_trade !! "settlement_date");
  quantity ← float_or_zero (raw_trade !! "quantity");
  price ← float_or_zero (raw_trade !! "price");
  mret {| n_trade_id := raw_trade !! "trade_id";
          n_source := source;
          n_trade_date := trade_date;
          n_settlement_date := settlement_date;
          n_instrument_id := raw_trade !! "instrument_id";
          n_instrument_name := raw_trade !! "instrument_name";
          n_quantity := quantity;
          n_price := price;
          n_currency := default "USD" (raw_trade !! "currency");
          n_counterparty := raw_trade !! "counterparty";
          n_account := raw_trade !! "account";
          n_raw_data := json_dumps raw_trade |}.

(** [FIXMessageParser.parse] on the lines of the file: a line that raises
    is printed and skipped. *)
Definition fix_parse (lines : list string) (source : string) : list NormalizedTrade :=
  foldl (λ trades line,
           match normalize_trade (_parse_fix_message line) source with
           | Some normalized => trades ++ [normalized]
           | None => trades
           end)
        [] lines.

End Parsers.

(** ** More sample data *)

(** A low-priced instrument: the prices differ by 1.2 percent, which is
    0.006 in money. *)
Definition cheap_internal : Trade := mk_trade 6 "I6" "PNY" "MS" 0.5 100 32400.
Definition cheap_external : Trade := mk_trade 16 "E6" "PNY" "MS" 0.506 100 32400.

(** A pair that agrees on everything but the settlement date. *)
Definition late_settlement_external : Trade :=
  {| row_id := 11; trade_id := "E1"; instrument_id := "ABC"; counterparty := "JPM";
     price := 10; quantity := 100; trade_date := 32700; settlement_date := 1 |}.

(** [sep.join(pieces)] *)
Fixpoint join (sep : ascii) (pieces : list string) : string :=
  match pieces with
  | [] => EmptyString
  | [piece] => piece
  | piece :: rest => piece +:+ String sep (join sep rest)
  end.

(** A FIX message as the parser expects it: [tag=value] pairs joined by
    pipes. *)
Definition fix_message (pairs : list (string * string)) : string :=
  join "|" ((λ p, p.1 +:+ String "=" p.2) <$> pairs).

Definition sample_fix_pairs : list (string * string) :=
  [("11", "T1"); ("55", "ABC"); ("44", "10.5"); ("9999", "x=y")].

(** * Properties *)

(** ** Numbers and results *)

Lemma pydiv_Ok (a b q : Q) :
  pydiv a b = Ok q → ¬ (b == 0)%Q ∧ q = (a / b)%Q.
Proof.
  unfold pydiv. destruct (Qeq_bool b 0) eqn:E; [discriminate|].
  intros [= <-]. split; [|reflexivity]. by apply Qeq_bool_neq.
Qed.

Lemma pydiv_nonzero (a b : Q) :
  ¬ (b == 0)%Q → pydiv a b = Ok (a / b)%Q.
Proof.
  intros Hb. unfold pydiv. destruct (Qeq_bool b 0) eqn:E; [|reflexivity].
  apply Qeq_bool_iff in E. contradiction.
Qed.

Lemma pydiv_Raise (a b : Q) (x : exn) :
  pydiv a b = Raise x → x = ZeroDivisionError.
Proof. unfold pydiv. destruct (Qeq_bool b 0); by intros [= <-]. Qed.

Lemma pydiv_zero (a b : Q) :
  (b == 0)%Q → pydiv a b = Raise ZeroDivisionError.
Proof.
  intros Hb. unfold pydiv. apply Qeq_bool_iff in Hb. by rewrite Hb.
Qed.

Lemma Qgt_bool_true (x y : Q) : Qgt_bool x y = true ↔ (y < x)%Q.
Proof.
  unfold Qgt_bool. rewrite negb_true_iff. split.
  - intros E. apply Qnot_le_lt. intros H. apply Qle_bool_iff in H. congruence.
  - intros H. destruct (Qle_bool x y) eqn:E; [|reflexivity].
    apply Qle_bool_iff in E. lra.
Qed.

Lemma Qgt_bool_false (x y : Q) : Qgt_bool x y = false ↔ (x <= y)%Q.
Proof.
  unfold Qgt_bool. rewrite negb_false_iff. apply Qle_bool_iff.
Qed.

Lemma max0_le_1 (x : Q) : (x <= 1)%Q → (max0 x <= 1)%Q.
Proof. unfold max0. destruct (Qle_bool x 0); lra. Qed.

Lemma max0_Qmax (x y : Q) : (x == y)%Q → (max0 x == Qmax 0 y)%Q.
Proof.
  intros Hxy. unfold max0. destruct (Qle_bool x 0) eqn:E.
  - apply Qle_bool_iff in E. symmetry. apply Q.max_l. lra.
  - rewrite Hxy. symmetry. apply Q.max_r.
    assert (0 < x)%Q by (apply Qgt_bool_true; unfold Qgt_bool; by rewrite E).
    lra.
Qed.

Lemma Qdiv_nonneg (a b : Q) : (0 <= a)%Q → (0 < b)%Q → (0 <= a / b)%Q.
Proof. intros Ha Hb. apply Qle_shift_div_l; lra. Qed.

Lemma np_mean5 (a b c d e : Q) :
  (np_mean [a; b; c; d; e] == (a + b + c + d + e) / 5)%Q.
Proof. unfold np_mean. cbn. field. Qed.

(** ** The lookup index and the candidates *)

Lemma filter_ext_elem {A} (P1 P2 : A → Prop)
    `{!∀ x, Decision (P1 x)} `{!∀ x, Decision (P2 x)} (l : list A) :
  (∀ x, x ∈ l → (P1 x ↔ P2 x)) → filter P1 l = filter P2 l.
Proof.
  induction l as [|a l IH]; intros Hext; [reflexivity|].
  assert (filter P1 l = filter P2 l) as Hl.
  { apply IH. intros x Hx. apply Hext. by right. }
  destruct (decide (P1 a)) as [Ha|Ha].
  - rewrite !filter_cons_True; [by rewrite Hl| |done]. apply Hext; [by left|done].
  - rewrite !filter_cons_False; [done| |done]. intros H2. apply Ha, Hext; [by left|done].
Qed.

Lemma index_append_within index key row df :
  index_within index df → row ∈ df →
  index_within (index_append index key row) df.
Proof.
  intros Hix Hrow k bucket t. unfold index_append.
  destruct (decide (key = k)) as [->|Hne].
  - rewrite lookup_insert_eq. intros [= <-].
    rewrite elem_of_app, list_elem_of_singleton. intros [Ht| ->]; [|done].
    destruct (index !! k) as [b|] eqn:E; cbn in Ht; [by eapply Hix|].
    by apply not_elem_of_nil in Ht.
  - rewrite lookup_insert_ne by done. apply Hix.
Qed.

Lemma index_rows_within df rows index :
  index_within index df → (∀ r, r ∈ rows → r ∈ df) →
  index_within
    (foldl (λ index row,
              foldl (λ index key, index_append index key row) index (lookup_keys row))
           index rows) df.
Proof.
  revert index. induction rows as [|row rows IH]; intros index Hix Hrows; [done|].
  cbn [foldl]. apply IH; [|intros r Hr; apply Hrows; by right].
  assert (row ∈ df) as Hrow by (apply Hrows; by left).
  generalize (lookup_keys row). intros keys. revert index Hix.
  induction keys as [|k keys IHk]; intros index Hix; [done|].
  cbn [foldl]. apply IHk. by apply index_append_within.
Qed.

Lemma create_lookup_index_within df : index_within (_create_lookup_index df) df.
Proof.
  apply index_rows_within; [|done]. intros key bucket t. by rewrite lookup_empty.
Qed.

Lemma get_candidates_elem cfg i index matched df t :
  index_within index df →
  t ∈ _get_candidates cfg i index matched →
  t ∈ df ∧ row_id t ∉ matched.
Proof.
  intros Hix. unfold _get_candidates.
  assert (∀ x : Trade, x ∈ @nil Trade → x ∈ df ∧ row_id x ∉ matched) as Hacc
    by (intros x Hx; by apply not_elem_of_nil in Hx).
  revert Hacc. generalize (@nil Trade) as acc. generalize (lookup_keys i) as keys.
  induction keys as [|k keys IH]; intros acc Hacc; cbn [foldl]; [apply Hacc|].
  apply IH. destruct (index !! k) as [bucket|] eqn:E; [|done].
  intros x. rewrite elem_of_app, list_elem_of_filter.
  intros [Hx|[[Hid _] Hx]]; [by apply Hacc|]. split; [by eapply Hix|done].
Qed.

Lemma count_breaks_app kind l1 l2 :
  count_breaks kind (l1 ++ l2) = (count_breaks kind l1 + count_breaks kind l2)%nat.
Proof. unfold count_breaks. by rewrite filter_app, length_app. Qed.

Lemma count_breaks_all kind l :
  (∀ b, b ∈ l → break_type b = kind) → count_breaks kind l = length l.
Proof.
  intros Hall. unfold count_breaks. f_equal.
  induction l as [|b l IH]; [done|].
  rewrite filter_cons_True by (apply Hall; by left).
  f_equal. apply IH. intros x Hx. apply Hall. by right.
Qed.

Lemma count_breaks_none kind l :
  (∀ b, b ∈ l → break_type b ≠ kind) → count_breaks kind l = 0%nat.
Proof.
  intros Hall. unfold count_breaks.
  induction l as [|b l IH]; [done|].
  rewrite filter_cons_False by (apply Hall; by left).
  apply IH. intros x Hx. apply Hall. by right.
Qed.

(** The external rows left over and the matched ids add up to the external
    rows, when no id occurs twice. *)
Lemma unmatched_external_length exts (matched : gset Z) :
  NoDup (row_id <$> exts) →
  matched ⊆ list_to_set (row_id <$> exts) →
  (length (filter (λ e, row_id e ∉ matched) exts) + size matched = length exts)%nat.
Proof.
  revert matched. induction exts as [|e exts IH]; intros matched Hnd Hsub.
  - cbn in *. assert (matched = ∅) as -> by set_solver. by rewrite size_empty.
  - rewrite fmap_cons in Hnd, Hsub. apply NoDup_cons in Hnd as [Hfresh Hnd].
    rewrite list_to_set_cons in Hsub.
    destruct (decide (row_id e ∈ matched)) as [Hin|Hout].
    + rewrite filter_cons_False by (intros H; by apply H).
      assert (size matched = S (size (matched ∖ {[row_id e]}))) as ->.
      { rewrite (union_difference_singleton_L (row_id e) matched Hin) at 1.
        rewrite size_union by set_solver. by rewrite size_singleton. }
      rewrite (filter_ext_elem _ (λ x, row_id x ∉ matched ∖ {[row_id e]})).
      * cbn [length]. specialize (IH (matched ∖ {[row_id e]}) Hnd).
        rewrite <- IH by set_solver. lia.
      * intros x Hx. rewrite elem_of_difference, elem_of_singleton.
        assert (row_id x ≠ row_id e) as Hne.
        { intros Heq. apply Hfresh. rewrite <- Heq. by apply list_elem_of_fmap_2. }
        split; [intros Hx1 [Hx2 _]; by apply Hx1|].
        intros Hx1 Hx2. apply Hx1. by split.
    + rewrite filter_cons_True by done. cbn [length].
      rewrite <- (IH matched Hnd) by set_solver. lia.
Qed.

Lemma validate_match_total cfg i e :
  nonzero_trade i → ∃ b, _validate_match cfg i e = Ok b.
Proof.
  intros [Hp Hq]. unfold _validate_match.
  rewrite (pydiv_nonzero _ _ Hp). cbn [mbind result_bind].
  destruct (_ && _); [by eexists|].
  rewrite (pydiv_nonzero _ _ Hq). cbn [mbind result_bind].
  destruct (Qgt_bool _ _); [by eexists|]. case_bool_decide; by eexists.
Qed.

(** ** The matching engine *)

Lemma unmatched_external_empty (exts : list Trade) :
  unmatched_external exts ∅ = (missing_break "MISSING_INTERNAL_TRADE" <$> exts).
Proof.
  unfold unmatched_external. f_equal.
  induction exts as [|e exts IH]; [reflexivity|].
  rewrite filter_cons_True by set_solver. by rewrite IH.
Qed.

Section Engine_properties.

Variable fuzz_ratio : string → string → Z.
(** A proximity component [1 - d / tol] (or 0 beyond the tolerance) is at
    most 1 as soon as the relative difference [d] is not negative. *)
Lemma proximity_le_1 (d tol s : Q) :
  (0 <= d)%Q → proximity d tol = Ok s → (s <= 1)%Q.
Proof.
  intros Hd. unfold proximity. destruct (Qle_bool d tol) eqn:E.
  - apply Qle_bool_iff in E.
    destruct (pydiv d tol) as [q|] eqn:Hq; [|by cbn].
    apply pydiv_Ok in Hq as [Hne ->]. cbn. intros [= <-].
    assert (0 < tol)%Q.
    { destruct (Qlt_le_dec 0 tol); [done|]. exfalso. apply Hne. lra. }
    pose proof (Qdiv_nonneg d tol Hd H). lra.
  - cbn. intros [= <-]. lra.
Qed.

Lemma proximity_total (d tol : Q) :
  ¬ (tol == 0)%Q → ∃ s, proximity d tol = Ok s.
Proof.
  intros Hne. unfold proximity. destruct (Qle_bool d tol); [|by eexists].
  rewrite (pydiv_nonzero _ _ Hne). by eexists.
Qed.

Lemma proximity_Raise (d tol : Q) (x : exn) :
  proximity d tol = Raise x → x = ZeroDivisionError.
Proof.
  unfold proximity. destruct (Qle_bool d tol); [|done].
  destruct (pydiv d tol) eqn:E; [done|]. cbn. intros [= <-].
  by apply pydiv_Raise in E.
Qed.

Lemma proximity_spec (d tol : Q) :
  ¬ (tol == 0)%Q →
  ∃ s, proximity d tol = Ok s ∧ (s == spec_proximity d tol)%Q.
Proof.
  intros Hne. unfold proximity, spec_proximity, Qgt_bool.
  destruct (Qle_bool d tol); cbn [negb].
  - rewrite (pydiv_nonzero _ _ Hne). eexists. split; [reflexivity|].
    cbn [mret result_ret]. ring.
  - eexists. split; reflexivity.
Qed.

Lemma instrument_score_le_1 i e : (instrument_score i e <= 1)%Q.
Proof. unfold instrument_score. case_bool_decide; lra. Qed.

(** The code of [_calculate_match_score], with its components named. *)
Lemma score_unfold cfg i e :
  _calculate_match_score fuzz_ratio cfg i e =
  (pd ← pydiv (Qabs (price i - price e)) (price i);
   ps ← proximity pd (price_tolerance_percent cfg);
   qd ← pydiv (Qabs (quantity i - quantity e)) (quantity i);
   qs ← proximity qd (quantity_tolerance_percent cfg);
   tq ← pydiv (time_diff_hours i e) (time_window_hours cfg);
   mret (np_mean [instrument_score i e; (counterparty_score fuzz_ratio i e * 0.8)%Q;
                  (ps * 0.9)%Q; (qs * 0.9)%Q; (max0 (1.0 - tq) * 0.6)%Q])).
Proof. reflexivity. Qed.

(** What a returned score is made of. *)
Lemma score_Ok_inv cfg i e s :
  _calculate_match_score fuzz_ratio cfg i e = Ok s →
  ∃ pd ps qd qs tq,
    pydiv (Qabs (price i - price e)) (price i) = Ok pd ∧
    proximity pd (price_tolerance_percent cfg) = Ok ps ∧
    pydiv (Qabs (quantity i - quantity e)) (quantity i) = Ok qd ∧
    proximity qd (quantity_tolerance_percent cfg) = Ok qs ∧
    pydiv (time_diff_hours i e) (time_window_hours cfg) = Ok tq ∧
    s = np_mean [instrument_score i e; (counterparty_score fuzz_ratio i e * 0.8)%Q;
                 (ps * 0.9)%Q; (qs * 0.9)%Q; (max0 (1.0 - tq) * 0.6)%Q].
Proof.
  rewrite score_unfold.
  destruct (pydiv (Qabs (price i - price e)) (price i)) as [pd|] eqn:Hpd;
    [|by cbn].
  cbn [mbind result_bind].
  destruct (proximity pd (price_tolerance_percent cfg)) as [ps|] eqn:Hps;
    [|by cbn].
  destruct (pydiv (Qabs (quantity i - quantity e)) (quantity i)) as [qd|] eqn:Hqd;
    [|by cbn].
  cbn [mbind result_bind].
  destruct (proximity qd (quantity_tolerance_percent cfg)) as [qs|] eqn:Hqs;
    [|by cbn].
  destruct (pydiv (time_diff_hours i e) (time_window_hours cfg)) as [tq|] eqn:Htq;
    [|by cbn].
  intros [= <-]. by exists pd, ps, qd, qs, tq.
Qed.

(** Under the default configuration a score is returned whenever the
    internal price and quantity are not zero. *)
Lemma score_default_total i e :
  ¬ (price i == 0)%Q → ¬ (quantity i == 0)%Q →
  ∃ s, _calculate_match_score fuzz_ratio default_config i e = Ok s.
Proof.
  intros Hp Hq. rewrite score_unfold.
  rewrite (pydiv_nonzero _ _ Hp). cbn [mbind result_bind].
  destruct (proximity_total (Qabs (price i - price e) / price i)
              (price_tolerance_percent default_config)) as [ps ->]; [by compute|].
  rewrite (pydiv_nonzero _ _ Hq). cbn [mbind result_bind].
  destruct (proximity_total (Qabs (quantity i - quantity e) / quantity i)
              (quantity_tolerance_percent default_config)) as [qs ->]; [by compute|].
  rewrite pydiv_nonzero; [|by compute]. by eexists.
Qed.

Lemma score_total cfg i e :
  nonzero_trade i → nonzero_config cfg →
  ∃ s, _calculate_match_score fuzz_ratio cfg i e = Ok s.
Proof.
  intros [Hp Hq] (Htp & Htq & Hw). rewrite score_unfold.
  rewrite (pydiv_nonzero _ _ Hp). cbn [mbind result_bind].
  destruct (proximity_total (Qabs (price i - price e) / price i) _ Htp) as [ps ->].
  rewrite (pydiv_nonzero _ _ Hq). cbn [mbind result_bind].
  destruct (proximity_total (Qabs (quantity i - quantity e) / quantity i) _ Htq)
    as [qs ->].
  rewrite (pydiv_nonzero _ _ Hw). by eexists.
Qed.

Lemma best_candidate_total cfg i candidates bm bs :
  nonzero_trade i → nonzero_config cfg →
  ∃ r, best_candidate fuzz_ratio cfg i candidates bm bs = Ok r.
Proof.
  intros Hi Hcfg. revert bm bs.
  induction candidates as [|c rest IH]; intros bm bs; [by eexists|].
  cbn [best_candidate]. destruct (score_total cfg i c Hi Hcfg) as [s ->].
  cbn [mbind result_bind]. destruct (_ && _); apply IH.
Qed.

Lemma best_candidate_elem cfg i candidates bm bs b s :
  best_candidate fuzz_ratio cfg i candidates bm bs = Ok (Some b, s) →
  bm = Some b ∨ b ∈ candidates.
Proof.
  revert bm bs. induction candidates as [|c rest IH]; intros bm bs;
    cbn [best_candidate].
  - intros [= -> _]. by left.
  - destruct (_calculate_match_score fuzz_ratio cfg i c) as [sc|]; [|done].
    cbn [mbind result_bind].
    destruct (_ && _); intros H; apply IH in H as [H|H].
    + right. injection H as <-. by left.
    + right. by right.
    + by left.
    + right. by right.
Qed.

Lemma find_best_match_total cfg i index matched :
  nonzero_trade i → nonzero_config cfg →
  ∃ r, _find_best_match fuzz_ratio cfg i index matched = Ok r.
Proof.
  intros Hi Hcfg. unfold _find_best_match.
  destruct (_get_candidates cfg i index matched) as [|c rest]; [by eexists|].
  destruct (best_candidate_total cfg i (c :: rest) None 0%Q Hi Hcfg)
    as [[bm bs] ->].
  cbn [mbind result_bind]. destruct bm as [b|]; [|by eexists].
  destruct (validate_match_total cfg i b Hi) as [[] ->]; by eexists.
Qed.

Lemma find_best_match_elem cfg i index matched df ext s m :
  index_within index df →
  _find_best_match fuzz_ratio cfg i index matched = Ok (Matched ext s m) →
  ext ∈ df ∧ row_id ext ∉ matched.
Proof.
  intros Hix. unfold _find_best_match.
  pose proof (get_candidates_elem cfg i index matched df) as Hc.
  destruct (_get_candidates cfg i index matched) as [|c rest]; [done|].
  destruct (best_candidate fuzz_ratio cfg i (c :: rest) None 0%Q)
    as [[bm bs]|] eqn:Hb; [|done].
  cbn [mbind result_bind]. destruct bm as [b|]; [|done].
  destruct (_validate_match cfg i b) as [[]|]; cbn; [|done|done].
  intros [= <- _ _]. apply best_candidate_elem in Hb as [|]; [done|].
  by apply Hc.
Qed.

Lemma match_internal_total cfg index ints matches breaks matched :
  Forall nonzero_trade ints → nonzero_config cfg →
  ∃ r, match_internal fuzz_ratio cfg index ints matches breaks matched = Ok r.
Proof.
  intros Hall Hcfg. revert matches breaks matched.
  induction Hall as [|i ints Hi Hall IH]; intros matches breaks matched;
    [by eexists|].
  cbn [match_internal].
  destruct (find_best_match_total cfg i index matched Hi Hcfg) as [r ->].
  cbn [mbind result_bind]. destruct r; apply IH.
Qed.

(** The invariant of the first loop of [match_trades]: every matched id is
    the id of an external row and was added once, and every internal row
    seen so far gave one match or one MISSING_EXTERNAL_TRADE break. *)
Lemma match_internal_counts cfg index df ints :
  index_within index df →
  ∀ matches breaks (matched : gset Z) matches' breaks' matched',
    match_internal fuzz_ratio cfg index ints matches breaks matched =
      Ok (matches', breaks', matched') →
    matched ⊆ list_to_set (row_id <$> df) →
    size matched = length matches →
    (∀ b, b ∈ breaks → break_type b = "MISSING_EXTERNAL_TRADE") →
    matched' ⊆ list_to_set (row_id <$> df) ∧
    size matched' = length matches' ∧
    (∀ b, b ∈ breaks' → break_type b = "MISSING_EXTERNAL_TRADE") ∧
    (length matches' + length breaks' =
     length matches + length breaks + length ints)%nat.
Proof.
  intros Hix. induction ints as [|i ints IH];
    intros matches breaks matched matches' breaks' matched'.
  - cbn. intros [= <- <- <-] Hsub Hsize Hb. split_and!; [done..|lia].
  - cbn [match_internal].
    destruct (_find_best_match fuzz_ratio cfg i index matched) as [r|] eqn:Hr;
      [|done].
    cbn [mbind result_bind]. destruct r as [|ext sc m].
    + intros Hrun Hsub Hsize Hb.
      apply IH in Hrun as (H1 & H2 & H3 & H4); [|done|done|].
      * split_and!; [done..|]. rewrite H4, length_app. cbn. lia.
      * intros b. rewrite elem_of_app, list_elem_of_singleton.
        intros [?| ->]; [by apply Hb|done].
    + apply (find_best_match_elem _ _ _ _ df) in Hr as [Hext Hfresh]; [|done].
      intros Hrun Hsub Hsize Hb.
      apply IH in Hrun as (H1 & H2 & H3 & H4); [| | |done].
      * split_and!; [done..|]. rewrite H4, length_app. cbn. lia.
      * apply union_subseteq. split; [done|].
        apply singleton_subseteq_l, elem_of_list_to_set.
        by apply list_elem_of_fmap_2.
      * rewrite size_union by (by apply disjoint_singleton_r).
        rewrite size_singleton, length_app. cbn. lia.
Qed.

(** C4.  When no external id occurs twice, what [match_trades] returns
    satisfies: twice the matches, plus the MISSING_EXTERNAL_TRADE breaks,
    plus the MISSING_INTERNAL_TRADE breaks, is the number of internal rows
    plus the number of external rows.  (It does return when the divisors of
    the score are not zero.) *)
Theorem match_trades_conservation cfg ints exts :
  NoDup (row_id <$> exts) →
  (∀ matches breaks,
     match_trades fuzz_ratio cfg ints exts = Ok (matches, breaks) →
     (2 * length matches
      + count_breaks "MISSING_EXTERNAL_TRADE" breaks
      + count_breaks "MISSING_INTERNAL_TRADE" breaks
      = length ints + length exts)%nat) ∧
  (Forall nonzero_trade ints → nonzero_config cfg →
   ∃ matches breaks, match_trades fuzz_ratio cfg ints exts = Ok (matches, breaks)).
Proof.
  intros Hnd. split.
  - intros matches breaks. unfold match_trades.
    destruct (match_internal fuzz_ratio cfg _ ints [] [] ∅)
      as [[[ms bs] matched]|] eqn:Hrun; [|done].
    cbn [mbind result_bind mret result_ret]. intros [= <- <-].
    apply (match_internal_counts _ _ exts) in Hrun
      as (Hsub & Hsize & Hbs & Hlen);
      [|apply create_lookup_index_within|set_solver|by rewrite size_empty
       |intros b Hb; by apply not_elem_of_nil in Hb].
    pose proof (unmatched_external_length exts matched Hnd Hsub) as Hrest.
    rewrite !count_breaks_app.
    rewrite (count_breaks_all "MISSING_EXTERNAL_TRADE" bs) by done.
    rewrite (count_breaks_none "MISSING_INTERNAL_TRADE" bs)
      by (intros b Hb; by rewrite (Hbs b Hb)).
    unfold unmatched_external.
    rewrite (count_breaks_none "MISSING_EXTERNAL_TRADE")
      by (intros b [t [-> _]]%list_elem_of_fmap; done).
    rewrite (count_breaks_all "MISSING_INTERNAL_TRADE")
      by (intros b [t [-> _]]%list_elem_of_fmap; done).
    rewrite length_fmap. cbn in Hlen. lia.
  - intros Hall Hcfg. unfold match_trades.
    destruct (match_internal_total cfg (_create_lookup_index exts) ints [] [] ∅
                Hall Hcfg) as [[[ms bs] matched] ->].
    cbn [mbind result_bind mret result_ret]. by eexists _, _.
Qed.

(** C2.  With a non-zero internal price and quantity (and non-zero
    divisors in the configuration) the score is the arithmetic mean of the
    five components: instrument equality, 0.8 times the counterparty
    ratio, 0.9 times the price proximity, 0.9 times the quantity
    proximity, 0.6 times the time proximity. *)
Theorem score_is_mean_of_five_components cfg i e :
  ¬ (price i == 0)%Q → ¬ (quantity i == 0)%Q →
  ¬ (price_tolerance_percent cfg == 0)%Q →
  ¬ (quantity_tolerance_percent cfg == 0)%Q →
  ¬ (time_window_hours cfg == 0)%Q →
  ∃ s, _calculate_match_score fuzz_ratio cfg i e = Ok s ∧
       (s == spec_score fuzz_ratio cfg i e)%Q.
Proof.
  intros Hp Hq Htp Htq Hw. rewrite score_unfold.
  rewrite (pydiv_nonzero _ _ Hp). cbn [mbind result_bind].
  destruct (proximity_spec (Qabs (price i - price e) / price i) _ Htp)
    as (ps & -> & Hps).
  rewrite (pydiv_nonzero _ _ Hq). cbn [mbind result_bind].
  destruct (proximity_spec (Qabs (quantity i - quantity e) / quantity i) _ Htq)
    as (qs & -> & Hqs).
  rewrite (pydiv_nonzero _ _ Hw). cbn [mbind result_bind mret result_ret].
  eexists. split; [reflexivity|].
  rewrite np_mean5. unfold spec_score. rewrite Hps, Hqs.
  rewrite (max0_Qmax _ (1 - time_diff_hours i e / time_window_hours cfg)) by ring.
  unfold instrument_score, counterparty_score.
  apply Qdiv_comp; [|reflexivity].
  case_bool_decide; field.
Qed.

(** C9 (as amended).  No guard treats a zero denominator as an infinite
    difference.  When the internal price or quantity is 0,
    [_calculate_match_score] raises [ZeroDivisionError]; [_validate_match]
    raises it when the price is 0, and when only the quantity is 0 it
    returns [False] if the price check has already failed and raises
    otherwise; the error leaves [_find_best_match] as soon as the row has a
    candidate. *)
Theorem zero_denominator_raises cfg i e :
  (price i == 0)%Q ∨ (quantity i == 0)%Q →
  _calculate_match_score fuzz_ratio cfg i e = Raise ZeroDivisionError ∧
  ((price i == 0)%Q → _validate_match cfg i e = Raise ZeroDivisionError) ∧
  (¬ (price i == 0)%Q →
     _validate_match cfg i e =
     if Qgt_bool (Qabs (price i - price e) / price i) (price_tolerance_percent cfg)
        && Qgt_bool (Qabs (price i - price e)) (price_tolerance_absolute cfg)
     then Ok false else Raise ZeroDivisionError) ∧
  (∀ index matched,
     _get_candidates cfg i index matched ≠ [] →
     _find_best_match fuzz_ratio cfg i index matched = Raise ZeroDivisionError).
Proof.
  intros Hz.
  assert (∀ c, _calculate_match_score fuzz_ratio cfg i c = Raise ZeroDivisionError)
    as Hscore.
  { intros c. rewrite score_unfold.
    destruct (pydiv _ (price i)) as [pd|x] eqn:Hpd; cbn [mbind result_bind];
      [|by apply pydiv_Raise in Hpd as ->].
    destruct (proximity pd _) as [ps|x] eqn:Hps; cbn [mbind result_bind];
      [|by apply proximity_Raise in Hps as ->].
    destruct Hz as [Hz|Hz]; [by apply pydiv_Ok in Hpd as [? _]|].
    by rewrite (pydiv_zero _ _ Hz). }
  split_and!.
  - apply Hscore.
  - intros Hp. unfold _validate_match. by rewrite (pydiv_zero _ _ Hp).
  - intros Hp. destruct Hz as [Hz|Hz]; [done|].
    unfold _validate_match. rewrite (pydiv_nonzero _ _ Hp). cbn [mbind result_bind].
    destruct (_ && _); [done|]. by rewrite (pydiv_zero _ _ Hz).
  - intros index matched Hc. unfold _find_best_match.
    destruct (_get_candidates cfg i index matched) as [|c rest]; [done|].
    cbn [best_candidate]. by rewrite Hscore.
Qed.

(** *** With the range of [fuzz.ratio] *)

Section Bounded_ratio.

Hypothesis fuzz_ratio_range : ∀ a b, 0 ≤ fuzz_ratio a b ≤ 100.

Lemma counterparty_score_le_1 i e : (counterparty_score fuzz_ratio i e <= 1)%Q.
Proof.
  unfold counterparty_score.
  destruct (fuzz_ratio_range (upper (counterparty i)) (upper (counterparty e)))
    as [_ Hle].
  apply Qle_shift_div_r; [reflexivity|].
  assert (inject_Z (fuzz_ratio (upper (counterparty i)) (upper (counterparty e)))
          <= inject_Z 100)%Q as H by (rewrite <- Zle_Qle; exact Hle).
  change (inject_Z 100) with 100%Q in H. lra.
Qed.

(** With a positive internal price and quantity every component is at most
    its weight, so the mean is at most (1 + 0.8 + 0.9 + 0.9 + 0.6) / 5. *)
Lemma score_le_084 cfg i e s :
  (0 < price i)%Q → (0 < quantity i)%Q → (0 <= time_window_hours cfg)%Q →
  _calculate_match_score fuzz_ratio cfg i e = Ok s → (s <= 0.84)%Q.
Proof.
  intros Hp Hq Hw Hs.
  apply score_Ok_inv in Hs as (pd & ps & qd & qs & tq & Hpd & Hps & Hqd & Hqs & Htq & ->).
  apply pydiv_Ok in Hpd as [_ ->]. apply pydiv_Ok in Hqd as [_ ->].
  apply pydiv_Ok in Htq as [Hw0 ->].
  apply proximity_le_1 in Hps; [|apply Qdiv_nonneg; [apply Qabs_nonneg|done]].
  apply proximity_le_1 in Hqs; [|apply Qdiv_nonneg; [apply Qabs_nonneg|done]].
  assert (0 <= time_diff_hours i e / time_window_hours cfg)%Q as Ht.
  { apply Qdiv_nonneg; [apply Qabs_nonneg|].
    destruct (Qlt_le_dec 0 (time_window_hours cfg)); [done|].
    exfalso. apply Hw0. lra. }
  assert (max0 (1.0 - time_diff_hours i e / time_window_hours cfg) <= 1)%Q as Hm
    by (apply max0_le_1; lra).
  pose proof (instrument_score_le_1 i e). pose proof (counterparty_score_le_1 i e).
  rewrite np_mean5. apply Qle_shift_div_r; [reflexivity|]. lra.
Qed.

Lemma best_candidate_default i candidates :
  positive_trade i →
  best_candidate fuzz_ratio default_config i candidates None 0%Q = Ok (None, 0%Q).
Proof.
  intros [Hp Hq]. induction candidates as [|c rest IH]; [reflexivity|].
  cbn [best_candidate].
  destruct (score_default_total i c) as [s Hs]; [lra..|].
  rewrite Hs. cbn [mbind result_bind].
  apply score_le_084 in Hs; [|done|done|by compute].
  replace (Qle_bool (min_match_score default_config) s) with false.
  - by rewrite andb_false_r.
  - symmetry. destruct (Qle_bool _ s) eqn:E; [|done].
    apply Qle_bool_iff in E. cbn in E. lra.
Qed.

Lemma find_best_match_default i index matched :
  positive_trade i →
  _find_best_match fuzz_ratio default_config i index matched = Ok NotMatched.
Proof.
  intros Hi. unfold _find_best_match.
  destruct (_get_candidates default_config i index matched) as [|c rest];
    [reflexivity|].
  by rewrite best_candidate_default.
Qed.

Lemma match_internal_default index ints matches breaks matched :
  Forall positive_trade ints →
  match_internal fuzz_ratio default_config index ints matches breaks matched =
  Ok (matches, breaks ++ (missing_break "MISSING_EXTERNAL_TRADE" <$> ints), matched).
Proof.
  intros Hall. revert breaks.
  induction Hall as [|i ints Hi Hall IH]; intros breaks.
  - cbn. by rewrite app_nil_r.
  - cbn [match_internal]. rewrite find_best_match_default by done.
    cbn [mbind result_bind]. rewrite IH. by rewrite <- app_assoc.
Qed.

(** C1 (as amended).  For an internal row with a positive price and a
    positive quantity the score of a candidate (a row inside the time
    window) is at most 0.84.  Hence, under the default configuration,
    [_find_best_match] accepts nothing for such a row, and on internal rows
    that are all of this kind [match_trades] returns no match, one
    MISSING_EXTERNAL_TRADE break per internal row and one
    MISSING_INTERNAL_TRADE break per external row. *)
Theorem default_config_matches_no_positive_trade :
  (∀ cfg i e s,
      positive_trade i →
      (time_diff_hours i e <= time_window_hours cfg)%Q →
      _calculate_match_score fuzz_ratio cfg i e = Ok s → (s <= 0.84)%Q) ∧
  (∀ i e, positive_trade i →
      ∃ s, _calculate_match_score fuzz_ratio default_config i e = Ok s ∧
           (s <= 0.84)%Q ∧ (s < min_match_score default_config)%Q) ∧
  (∀ i index matched,
      positive_trade i →
      _find_best_match fuzz_ratio default_config i index matched = Ok NotMatched) ∧
  (∀ ints exts,
      Forall positive_trade ints →
      match_trades fuzz_ratio default_config ints exts =
      Ok ([], (missing_break "MISSING_EXTERNAL_TRADE" <$> ints) ++
              (missing_break "MISSING_INTERNAL_TRADE" <$> exts))).
Proof.
  split_and!.
  - intros cfg i e s [Hp Hq] Hw. apply score_le_084; [done..|].
    pose proof (Qabs_nonneg ((trade_date i - trade_date e) / 3600)) as H.
    fold (time_diff_hours i e) in H. lra.
  - intros i e [Hp Hq].
    destruct (score_default_total i e) as [s Hs]; [lra..|].
    exists s. split; [done|].
    apply score_le_084 in Hs; [|done|done|by compute].
    split; [done|]. cbn. lra.
  - intros. by apply find_best_match_default.
  - intros ints exts Hall. unfold match_trades.
    rewrite match_internal_default by done. cbn [mbind result_bind mret result_ret].
    by rewrite unmatched_external_empty.
Qed.

End Bounded_ratio.

End Engine_properties.

(** C3.  For a non-zero internal price and quantity [_validate_match]
    returns, and it accepts exactly when the instruments are equal, the
    price is within the relative or the absolute tolerance, and the quantity
    is within the relative tolerance.  The comparisons are not strict: a
    price difference exactly at the tolerance is accepted. *)
Theorem validate_match_iff_gate cfg i e :
  ¬ (price i == 0)%Q → ¬ (quantity i == 0)%Q →
  (∃ b, _validate_match cfg i e = Ok b ∧ (b = true ↔ spec_gate cfg i e)) ∧
  (instrument_id i = instrument_id e →
   (Qabs (price i - price e) / price i == price_tolerance_percent cfg)%Q →
   (Qabs (quantity i - quantity e) / quantity i <= quantity_tolerance_percent cfg)%Q →
   _validate_match cfg i e = Ok true).
Proof.
  intros Hp Hq.
  assert (∃ b, _validate_match cfg i e = Ok b ∧ (b = true ↔ spec_gate cfg i e))
    as Hiff.
  { unfold _validate_match, spec_gate.
    rewrite (pydiv_nonzero _ _ Hp). cbn [mbind result_bind].
    destruct (Qgt_bool (Qabs (price i - price e) / price i) _) eqn:E1;
      [destruct (Qgt_bool (Qabs (price i - price e)) _) eqn:E2|]; cbn [andb].
    - exists false. split; [done|]. split; [done|].
      apply Qgt_bool_true in E1, E2. intros (_ & [H|H] & _); lra.
    - apply Qgt_bool_false in E2.
      rewrite (pydiv_nonzero _ _ Hq). cbn [mbind result_bind].
      destruct (Qgt_bool (Qabs (quantity i - quantity e) / quantity i) _) eqn:E3.
      + exists false. split; [done|]. split; [done|].
        apply Qgt_bool_true in E3. intros (_ & _ & H). lra.
      + apply Qgt_bool_false in E3. case_bool_decide.
        * exists false. split; [done|]. split; [done|]. by intros [? _].
        * exists true. split; [done|]. split; [|done]. intros _.
          split_and!; [exact H|right; exact E2|exact E3].
    - apply Qgt_bool_false in E1.
      rewrite (pydiv_nonzero _ _ Hq). cbn [mbind result_bind].
      destruct (Qgt_bool (Qabs (quantity i - quantity e) / quantity i) _) eqn:E3.
      + exists false. split; [done|]. split; [done|].
        apply Qgt_bool_true in E3. intros (_ & _ & H). lra.
      + apply Qgt_bool_false in E3. case_bool_decide.
        * exists false. split; [done|]. split; [done|]. by intros [? _].
        * exists true. split; [done|]. split; [|done]. intros _.
          split_and!; [exact H|left; exact E1|exact E3]. }
  split; [exact Hiff|].
  intros Hi Hprice Hqty. destruct Hiff as (b & -> & Hb). f_equal. apply Hb.
  split_and!; [done| left; lra | done].
Qed.


(** ** The claims on the sample data *)

(** The purchase of the first scenario scores 403/480 (0.8396): below the default
    threshold, although every field agrees and the reports are five minutes
    apart. *)
Example clean_purchase_is_not_matched :
  (∃ s, _calculate_match_score exact_ratio default_config buy_internal buy_external
          = Ok s ∧ (s == 403 # 480)%Q) ∧
  _validate_match default_config buy_internal buy_external = Ok true ∧
  _find_best_match exact_ratio default_config buy_internal
    (_create_lookup_index [buy_external]) ∅ = Ok NotMatched.
Proof.
  split_and!; [eexists; split; [vm_compute; reflexivity|]|..];
    vm_compute; reflexivity.
Qed.

Lemma exact_ratio_range (a b : string) : 0 ≤ exact_ratio a b ≤ 100.
Proof. unfold exact_ratio. case_bool_decide; lia. Qed.

(** A sale (negative quantity) reported with another size scores 90.84 and
    is matched under the default configuration. *)
Lemma default_config_matches_a_sale :
  ∃ m, match_trades exact_ratio default_config [sell_internal] [sell_external]
         = Ok ([m], []) ∧
       internal_trade m = sell_internal ∧
       external_trade m = sell_external ∧
       (match_score m == 90.84)%Q ∧
       ¬ (match_score m <= 0.84)%Q.
Proof.
  eexists. split; [vm_compute; reflexivity|].
  cbn [internal_trade external_trade match_score].
  split_and!; [reflexivity|reflexivity|vm_compute; reflexivity|].
  intros H. vm_compute in H. by apply H.
Qed.

Lemma default_config_matches_no_positive_trade_witness :
  Forall positive_trade [buy_internal] ∧
  match_trades exact_ratio default_config [buy_internal] [buy_external] =
  Ok ([], [missing_break "MISSING_EXTERNAL_TRADE" buy_internal;
           missing_break "MISSING_INTERNAL_TRADE" buy_external]).
Proof.
  assert (Forall positive_trade [buy_internal]) as H
    by (repeat constructor).
  split; [exact H|].
  exact (proj2 (proj2 (proj2
           (default_config_matches_no_positive_trade exact_ratio exact_ratio_range)))
         [buy_internal] [buy_external] H).
Defined.

Lemma score_is_mean_of_five_components_witness :
  ∃ s, _calculate_match_score exact_ratio default_config buy_internal buy_external
         = Ok s ∧
       (s == spec_score exact_ratio default_config buy_internal buy_external)%Q.
Proof.
  apply (score_is_mean_of_five_components exact_ratio
           default_config buy_internal buy_external); by compute.
Defined.

Lemma validate_match_iff_gate_witness :
  _validate_match default_config par_internal par_external = Ok true.
Proof.
  apply (validate_match_iff_gate default_config par_internal par_external);
    by compute.
Defined.

Lemma match_trades_conservation_witness :
  ∃ matches breaks,
    match_trades exact_ratio default_config
      [buy_internal; sell_internal] [buy_external; sell_external]
      = Ok (matches, breaks) ∧
    length matches = 1%nat ∧
    (2 * length matches
     + count_breaks "MISSING_EXTERNAL_TRADE" breaks
     + count_breaks "MISSING_INTERNAL_TRADE" breaks = 2 + 2)%nat.
Proof.
  eexists _, _. split; [vm_compute; reflexivity|]. split; [reflexivity|].
  apply (match_trades_conservation exact_ratio default_config
           [buy_internal; sell_internal] [buy_external; sell_external]).
  - repeat constructor; set_solver.
  - vm_compute. reflexivity.
Defined.

(** An internal row with price 0 (or quantity 0) and one candidate: scoring,
    validation and the whole of [match_trades] raise. *)
Lemma zero_denominator_is_not_rejected :
  _calculate_match_score exact_ratio default_config zero_price_internal buy_external
    = Raise ZeroDivisionError ∧
  _validate_match default_config zero_price_internal buy_external
    = Raise ZeroDivisionError ∧
  _calculate_match_score exact_ratio default_config zero_quantity_internal buy_external
    = Raise ZeroDivisionError ∧
  _validate_match default_config zero_quantity_internal buy_external
    = Raise ZeroDivisionError ∧
  match_trades exact_ratio default_config [zero_price_internal] [buy_external]
    = Raise ZeroDivisionError ∧
  match_trades exact_ratio default_config [zero_quantity_internal] [buy_external]
    = Raise ZeroDivisionError.
Proof. split_and!; vm_compute; reflexivity. Qed.

Lemma zero_denominator_raises_witness :
  _calculate_match_score exact_ratio default_config zero_quantity_internal buy_external
    = Raise ZeroDivisionError.
Proof.
  apply (zero_denominator_raises exact_ratio default_config
           zero_quantity_internal buy_external).
  right. reflexivity.
Defined.

(** ** The break classifier *)

(** C8 (as amended).  A price mismatch carrying a difference gets impact
    [|difference| × quantity] of its trade and the four buckets: critical
    above 100000, high above 10000, medium above 1000, low otherwise.  A
    quantity mismatch carrying a difference gets impact
    [|difference| × price] and three buckets: critical above 100000, high
    above 10000, medium otherwise.  Missing-side breaks and currency
    mismatches are critical. *)
Theorem determine_severity_buckets (b : Break) :
  (break_type b = "PRICE_MISMATCH" →
   ∀ d, difference b = Some d →
     _determine_severity b = spec_bucket (Qabs d * trade_quantity_or 0 b)) ∧
  (break_type b = "QUANTITY_MISMATCH" →
   ∀ d, difference b = Some d →
     _determine_severity b =
       let impact := (Qabs d * trade_price_or 0 b)%Q in
       if Qgt_bool impact 100000 then CRITICAL
       else if Qgt_bool impact 10000 then HIGH
       else MEDIUM) ∧
  (break_type b = "MISSING_EXTERNAL_TRADE" ∨ break_type b = "MISSING_INTERNAL_TRADE" →
   _determine_severity b = CRITICAL) ∧
  (break_type b = "CURRENCY_MISMATCH" → _determine_severity b = CRITICAL).
Proof.
  unfold _determine_severity. split_and!.
  - intros -> d ->. reflexivity.
  - intros -> d ->. reflexivity.
  - intros [-> | ->]; reflexivity.
  - intros ->. by destruct (difference b).
Qed.

(** A quantity mismatch with impact 10 is classified medium, where the four
    buckets give low. *)
Lemma small_quantity_mismatch_is_medium :
  _determine_severity small_quantity_break = MEDIUM ∧
  (Qabs 1 * trade_price_or 0 small_quantity_break == 10)%Q ∧
  spec_bucket (Qabs 1 * trade_price_or 0 small_quantity_break) = LOW.
Proof. split_and!; reflexivity. Qed.

Lemma determine_severity_buckets_witness :
  _determine_severity penny_break = LOW ∧
  _determine_severity small_quantity_break = MEDIUM.
Proof.
  split.
  - exact (proj1 (determine_severity_buckets penny_break) eq_refl _ eq_refl).
  - exact (proj1 (proj2 (determine_severity_buckets small_quantity_break))
             eq_refl _ eq_refl).
Defined.

(** ** The auto-resolver *)

Lemma attempt_auto_resolve_skip rules now b pre :
  Forall (λ r, fires b r = false) pre →
  attempt_auto_resolve (pre ++ rules) now b = attempt_auto_resolve rules now b.
Proof.
  induction 1 as [|r pre Hr _ IH]; [reflexivity|].
  cbn [app attempt_auto_resolve]. unfold fires in Hr.
  by destruct (condition r b) as [[]|].
Qed.

(** C6.  [attempt_auto_resolve] goes through the rules in list order and
    returns the rule name, action and reason of the first rule whose
    condition returns true, with the time stamp; a condition that raises
    counts as false and the next rule is tried; when no condition returns
    true the result is [{'resolved': False}].  The list holds the four
    built-in rules in their fixed order. *)
Theorem attempt_auto_resolve_first_true (rules : list Rule) (now : Q) (b : Break) :
  (∀ pre r post,
     rules = pre ++ r :: post →
     (∀ p, p ∈ pre → condition p b = Ok false ∨ ∃ e, condition p b = Raise e) →
     condition r b = Ok true →
     attempt_auto_resolve rules now b = Resolved (name r) (action r) (reason r) now) ∧
  ((∀ p, p ∈ rules → condition p b = Ok false ∨ ∃ e, condition p b = Raise e) →
   attempt_auto_resolve rules now b = Unresolved) ∧
  attempt_auto_resolve rules now b =
    match List.find (fires b) rules with
    | Some r => Resolved (name r) (action r) (reason r) now
    | None => Unresolved
    end ∧
  name <$> _load_resolution_rules =
    ["SETTLEMENT_DATE_T_PLUS_ADJUSTMENT"; "PENNY_ROUNDING"; "QUANTITY_ROUNDING";
     "KNOWN_COUNTERPARTY_MAPPING"].
Proof.
  assert (∀ l, (∀ p, p ∈ l → condition p b = Ok false ∨ ∃ e, condition p b = Raise e) →
               Forall (λ r, fires b r = false) l) as Hquiet.
  { intros l Hl. apply Forall_forall. intros p Hp. unfold fires.
    by destruct (Hl p Hp) as [-> | [e ->]]. }
  split_and!.
  - intros pre r post -> Hpre Hr.
    rewrite attempt_auto_resolve_skip by by apply Hquiet.
    cbn [attempt_auto_resolve]. by rewrite Hr.
  - intros Hall. rewrite <- (app_nil_r rules).
    by rewrite attempt_auto_resolve_skip by by apply Hquiet.
  - induction rules as [|r rules IH]; [reflexivity|].
    cbn [attempt_auto_resolve List.find]. unfold fires at 1.
    by destruct (condition r b) as [[]|].
  - reflexivity.
Qed.

Lemma attempt_auto_resolve_first_true_witness :
  condition settlement_date_rule settlement_text_break = Raise TypeError ∧
  attempt_auto_resolve _load_resolution_rules 5 penny_break =
    Resolved "PENNY_ROUNDING" "ACCEPT_EXTERNAL"
             "Price difference within rounding tolerance (1 cent)" 5 ∧
  attempt_auto_resolve _load_resolution_rules 5 settlement_text_break = Unresolved.
Proof.
  split; [reflexivity|]. split.
  - apply (proj1 (attempt_auto_resolve_first_true _load_resolution_rules 5 penny_break)
             [settlement_date_rule] penny_rounding_rule
             [quantity_rounding_rule; known_counterparty_rule]);
      [reflexivity| |reflexivity].
    intros p ->%list_elem_of_singleton. by left.
  - apply (proj1 (proj2 (attempt_auto_resolve_first_true _load_resolution_rules 5
                           settlement_text_break))).
    intros p Hp. cbn in Hp.
    repeat (apply elem_of_cons in Hp as [-> | Hp]); [right; by eexists|by left..|].
    by apply not_elem_of_nil in Hp.
Defined.

(** *** Running the batch twice *)

Lemma attempt_auto_resolve_clock rules now now' b :
  attempt_auto_resolve rules now' b =
  match attempt_auto_resolve rules now b with
  | Resolved rule_applied action reason _ => Resolved rule_applied action reason now'
  | Unresolved => Unresolved
  end.
Proof.
  induction rules as [|r rules IH]; [reflexivity|].
  cbn [attempt_auto_resolve]. by destruct (condition r b) as [[]|].
Qed.






Example sample_batch_twice :
  let first := batch_auto_resolve second_clock _load_resolution_rules sample_batch
                 open_table in
  let second := batch_auto_resolve second_clock _load_resolution_rules sample_batch
                  first.2 in
  first.1 = Ok {| total_breaks := 3; auto_resolved := 1; failed_resolution := 2;
                  resolutions :=
                    [(8, Resolved "PENNY_ROUNDING" "ACCEPT_EXTERNAL"
                           "Price difference within rounding tolerance (1 cent)" 0)] |} ∧
  second.1 = Ok {| total_breaks := 3; auto_resolved := 1; failed_resolution := 2;
                   resolutions :=
                     [(8, Resolved "PENNY_ROUNDING" "ACCEPT_EXTERNAL"
                            "Price difference within rounding tolerance (1 cent)" 2)] |} ∧
  row_status <$> db first.2 !! 8 = Some "AUTO_RESOLVED" ∧
  resolved_at <$> db first.2 !! 8 = Some (Some 1%Q) ∧
  resolved_at <$> db second.2 !! 8 = Some (Some 3%Q).
Proof. cbn zeta. split_and!; vm_compute; reflexivity. Qed.


(** ** The pattern detector *)






(** ** The orchestrator *)

Section Orchestrator_properties.

Context {Report Case : Type}.
Variable _ingest_trades : result (list Trade * list Trade).
Variable _match_trades : list Trade → list Trade → result (list Match * list Break).
Variable _identify_breaks : list Match → list Break → result (list Break).
Variable _analyze_breaks : list Break → result (list Break).
Variable _auto_resolve_breaks : list Break → result BatchResults.
Variable _create_workflow_cases : list Break → BatchResults → result (list Case).
Variable _generate_report : ReconciliationRun → list Break → BatchResults → result Report.
Variable duration : Q.

Local Abbreviation steps :=
  (reconciliation_steps _ingest_trades _match_trades _identify_breaks _analyze_breaks
     _auto_resolve_breaks _create_workflow_cases _generate_report duration).
Local Abbreviation run_daily :=
  (run_daily_reconciliation _ingest_trades _match_trades _identify_breaks
     _analyze_breaks _auto_resolve_breaks _create_workflow_cases _generate_report
     duration).

(** C5 (as amended).  An exception raised by a step after the run record is
    created is caught at the boundary: the run record gets status FAILED and
    the text of the exception as error message, and the exception is not
    raised again; the caller receives [{'status': 'FAILED', 'error': ..}].
    No call of [run_daily_reconciliation] ends with an exception of a
    step. *)
Theorem run_failure_is_returned :
  (∀ e recon_run,
     steps running = (Raise e, recon_run) →
     ∃ failed_run,
       run_daily = (Ok (FAILED (str_exn e)), failed_run) ∧
       run_status failed_run = "FAILED" ∧
       error_message failed_run = Some (str_exn e)) ∧
  (∀ e, _ingest_trades = Raise e → steps running = (Raise e, running)) ∧
  (∀ e internal_trades external_trades,
     _ingest_trades = Ok (internal_trades, external_trades) →
     _match_trades internal_trades external_trades = Raise e →
     ∃ recon_run, steps running = (Raise e, recon_run)) ∧
  (∀ e recon_run, run_daily ≠ (Raise e, recon_run)).
Proof.
  split_and!.
  - intros e recon_run Hsteps. unfold run_daily_reconciliation. rewrite Hsteps.
    by eexists.
  - intros e He. unfold reconciliation_steps, step_bind, call. by rewrite He.
  - intros e i x Hi Hm. unfold reconciliation_steps, step_bind, call, update.
    rewrite Hi, Hm. by eexists.
  - intros e recon_run. unfold run_daily_reconciliation.
    by destruct (steps running) as [[r|e'] run'].
Qed.

End Orchestrator_properties.

(** The matcher raises [ZeroDivisionError] on a row with price 0; the run
    returns the failure and raises nothing. *)
Lemma failed_run_is_not_reraised :
  match_trades exact_ratio default_config [zero_price_internal] [buy_external]
    = Raise ZeroDivisionError ∧
  zero_price_run.1 = Ok (FAILED "float division by zero") ∧
  run_status zero_price_run.2 = "FAILED" ∧
  error_message zero_price_run.2 = Some "float division by zero" ∧
  zero_price_run.1 ≠ Raise ZeroDivisionError.
Proof. split_and!; [vm_compute; reflexivity..|]. vm_compute. discriminate. Qed.

Lemma run_failure_is_returned_witness :
  ∃ failed_run,
    zero_price_run = (Ok (FAILED (str_exn ZeroDivisionError)), failed_run) ∧
    run_status failed_run = "FAILED" ∧
    error_message failed_run = Some (str_exn ZeroDivisionError).
Proof.
  eapply (proj1 (run_failure_is_returned (Report := unit) (Case := unit)
                   (Ok ([zero_price_internal], [buy_external]))
                   (match_trades exact_ratio default_config)
                   (λ _ unmatched, Ok unmatched) (λ breaks, Ok breaks)
                   (λ breaks, Ok {| total_breaks := length breaks; auto_resolved := 0;
                                    failed_resolution := 0; resolutions := [] |})
                   (λ _ _, Ok []) (λ _ _ _, Ok ()) 0)).
  vm_compute. reflexivity.
Defined.

(** * Further properties *)

(** ** The lookup index *)






(** ** The candidates *)




Lemma string_length_app (a b : string) :
  String.length (a +:+ b) = (String.length a + String.length b)%nat.
Proof. induction a as [|c a IH]; [done|]. simpl. f_equal. exact IH. Qed.

Lemma instrument_key_differs (a b : string) : a ≠ a +:+ "_" +:+ b.
Proof.
  intros H. apply (f_equal String.length) in H.
  rewrite !string_length_app in H. cbn in H. lia.
Qed.



(** ** The best match *)

Section Best_match.

Variable fuzz_ratio : string → string → Z.
Variable cfg : MatchConfig.

(** What the loop over the candidates leaves in [best_match] and
    [best_score]: either nothing beat the running best, or the first
    candidate with the highest score among those that reach the minimum. *)
Lemma best_candidate_spec i candidates : ∀ bm bs bm' bs',
  best_candidate fuzz_ratio cfg i candidates bm bs = Ok (bm', bs') →
  (bm' = bm ∧ bs' = bs ∧
   ∀ c, c ∈ candidates →
     ∃ s, _calculate_match_score fuzz_ratio cfg i c = Ok s ∧
          ((s <= bs)%Q ∨ (s < min_match_score cfg)%Q)) ∨
  (∃ pre c post,
     candidates = pre ++ c :: post ∧ bm' = Some c ∧
     _calculate_match_score fuzz_ratio cfg i c = Ok bs' ∧
     (min_match_score cfg <= bs')%Q ∧ (bs < bs')%Q ∧
     (∀ p, p ∈ pre →
        ∃ s, _calculate_match_score fuzz_ratio cfg i p = Ok s ∧
             ((s < bs')%Q ∨ (s < min_match_score cfg)%Q)) ∧
     (∀ p, p ∈ post →
        ∃ s, _calculate_match_score fuzz_ratio cfg i p = Ok s ∧
             ((s <= bs')%Q ∨ (s < min_match_score cfg)%Q))).
Proof.
  induction candidates as [|c rest IH]; intros bm bs bm' bs'; cbn [best_candidate].
  - intros [= <- <-]. left. split_and!; [done..|]. intros c Hc.
    by apply not_elem_of_nil in Hc.
  - destruct (_calculate_match_score fuzz_ratio cfg i c) as [s|] eqn:Hs; [|done].
    cbn [mbind result_bind].
    destruct (Qgt_bool s bs) eqn:E1; [destruct (Qle_bool _ s) eqn:E2|]; cbn [andb];
      intros Hrun; apply IH in Hrun
        as [(-> & -> & Hrest)|(pre & c' & post & -> & -> & Hc' & Hmin & Hlt & Hpre & Hpost)].
    + apply Qgt_bool_true in E1. apply Qle_bool_iff in E2.
      right. exists [], c, rest. split_and!; [done..| |done].
      intros p Hp. by apply not_elem_of_nil in Hp.
    + apply Qgt_bool_true in E1. apply Qle_bool_iff in E2.
      right. exists (c :: pre), c', post. split_and!; [done..|lra| |done].
      intros p [->|Hp]%elem_of_cons; [|by apply Hpre].
      exists s. split; [done|]. left. lra.
    + left. split_and!; [done..|]. intros p [->|Hp]%elem_of_cons; [|by apply Hrest].
      exists s. split; [done|]. right.
      apply Qgt_bool_true. unfold Qgt_bool. by rewrite E2.
    + right. exists (c :: pre), c', post. split_and!; [done..| |done].
      intros p [->|Hp]%elem_of_cons; [|by apply Hpre].
      exists s. split; [done|]. right.
      apply Qgt_bool_true. unfold Qgt_bool. by rewrite E2.
    + apply Qgt_bool_false in E1.
      left. split_and!; [done..|]. intros p [->|Hp]%elem_of_cons; [|by apply Hrest].
      exists s. split; [done|]. by left.
    + apply Qgt_bool_false in E1.
      right. exists (c :: pre), c', post. split_and!; [done..| |done].
      intros p [->|Hp]%elem_of_cons; [|by apply Hpre].
      exists s. split; [done|]. left. lra.
Qed.

(** X4.  When [_find_best_match] reports a match, the matched row is a
    candidate that passed the validation gate, its score is positive and at
    least [min_match_score], no candidate that reaches the minimum scores
    higher, and among equal scores the first candidate in the list wins. *)
Theorem find_best_match_is_best i index (matched : gset Z) ext s m :
  _find_best_match fuzz_ratio cfg i index matched = Ok (Matched ext s m) →
  ∃ pre post,
    _get_candidates cfg i index matched = pre ++ ext :: post ∧
    _calculate_match_score fuzz_ratio cfg i ext = Ok s ∧
    _validate_match cfg i ext = Ok true ∧
    (0 < s)%Q ∧ (min_match_score cfg <= s)%Q ∧ m = "ALGORITHMIC" ∧
    (∀ p, p ∈ pre →
       ∃ s', _calculate_match_score fuzz_ratio cfg i p = Ok s' ∧
             ((s' < s)%Q ∨ (s' < min_match_score cfg)%Q)) ∧
    (∀ p, p ∈ post →
       ∃ s', _calculate_match_score fuzz_ratio cfg i p = Ok s' ∧
             ((s' <= s)%Q ∨ (s' < min_match_score cfg)%Q)).
Proof.
  unfold _find_best_match.
  destruct (_get_candidates cfg i index matched) as [|c rest] eqn:Hc; [done|].
  destruct (best_candidate fuzz_ratio cfg i (c :: rest) None 0%Q)
    as [[bm bs]|] eqn:Hb; [|done].
  cbn [mbind result_bind]. destruct bm as [b|]; [|done].
  destruct (_validate_match cfg i b) as [[]|] eqn:Hv; cbn; [|done|done].
  intros [= <- <- <-].
  apply best_candidate_spec in Hb
    as [(? & _)|(pre & c' & post & -> & [= <-] & Hs & Hmin & Hpos & Hpre & Hpost)];
    [done|].
  exists pre, post. by split_and!.
Qed.

End Best_match.

(** The sale of the sample feed is matched with its counterpart. *)
Lemma find_best_match_is_best_witness :
  ∃ s pre post,
    _find_best_match exact_ratio default_config sell_internal
      (_create_lookup_index [buy_external; sell_external]) ∅
      = Ok (Matched sell_external s "ALGORITHMIC") ∧
    _get_candidates default_config sell_internal
      (_create_lookup_index [buy_external; sell_external]) ∅
      = pre ++ sell_external :: post ∧
    (min_match_score default_config <= s)%Q.
Proof.
  assert (_find_best_match exact_ratio default_config sell_internal
            (_create_lookup_index [buy_external; sell_external]) ∅
          = Ok (Matched sell_external
                  (7848576000000000000000 # 86400000000000000000) "ALGORITHMIC")) as H
    by (vm_compute; reflexivity).
  destruct (find_best_match_is_best exact_ratio default_config sell_internal _ _ _ _ _ H)
    as (pre & post & Hc & _ & _ & _ & Hmin & _).
  eexists _, pre, post. split_and!; [exact H|exact Hc|exact Hmin].
Defined.

(** ** The pairs of [match_trades] *)

Section Pairs.

Variable fuzz_ratio : string → string → Z.
Variable cfg : MatchConfig.

Lemma find_best_match_matched i index (matched : gset Z) ext s m :
  _find_best_match fuzz_ratio cfg i index matched = Ok (Matched ext s m) →
  ext ∈ _get_candidates cfg i index matched ∧
  _calculate_match_score fuzz_ratio cfg i ext = Ok s ∧
  (min_match_score cfg <= s)%Q ∧
  _validate_match cfg i ext = Ok true ∧ m = "ALGORITHMIC".
Proof.
  unfold _find_best_match.
  destruct (_get_candidates cfg i index matched) as [|c rest] eqn:Hc; [done|].
  destruct (best_candidate fuzz_ratio cfg i (c :: rest) None 0%Q)
    as [[bm bs]|] eqn:Hb; [|done].
  cbn [mbind result_bind]. destruct bm as [b|]; [|done].
  destruct (_validate_match cfg i b) as [[]|] eqn:Hv; cbn; [|done|done].
  intros [= <- <- <-].
  apply best_candidate_spec in Hb
    as [(? & _)|(pre & c' & post & Hsplit & [= <-] & Hs & Hmin & _)]; [done|].
  split_and!; [|done..]. rewrite Hsplit. set_solver.
Qed.

Lemma match_internal_pairs (all exts : list Trade) ints :
  (∀ i, i ∈ ints → i ∈ all) →
  ∀ matches breaks (matched : gset Z) matches' breaks' matched',
    match_internal fuzz_ratio cfg (_create_lookup_index exts) ints matches breaks matched
      = Ok (matches', breaks', matched') →
    matched = list_to_set ((λ m, row_id (external_trade m)) <$> matches) →
    NoDup ((λ m, row_id (external_trade m)) <$> matches) →
    Forall (sound_pair fuzz_ratio cfg all exts) matches →
    matched' = list_to_set ((λ m, row_id (external_trade m)) <$> matches') ∧
    NoDup ((λ m, row_id (external_trade m)) <$> matches') ∧
    Forall (sound_pair fuzz_ratio cfg all exts) matches'.
Proof.
  induction ints as [|i ints IH]; intros Hall matches breaks matched matches' breaks' matched'.
  - cbn. by intros [= <- <- <-].
  - cbn [match_internal].
    destruct (_find_best_match fuzz_ratio cfg i _ matched) as [r|] eqn:Hr; [|done].
    cbn [mbind result_bind]. destruct r as [|ext sc m].
    + intros Hrun ???. eapply IH; [|exact Hrun|done..].
      intros x Hx. apply Hall. by right.
    + apply find_best_match_matched in Hr as (Hcand & Hs & Hmin & Hv & ->).
      apply (get_candidates_elem _ _ _ _ exts) in Hcand as [Hext Hfresh];
        [|apply create_lookup_index_within].
      intros Hrun -> Hnd Hsound. eapply IH; [|exact Hrun|..].
      * intros x Hx. apply Hall. by right.
      * rewrite fmap_app, list_to_set_app_L. cbn. set_solver.
      * rewrite fmap_app. apply NoDup_app. split_and!; [done| |apply NoDup_singleton].
        intros x Hx ->%list_elem_of_singleton. apply Hfresh.
        by apply elem_of_list_to_set.
      * apply Forall_app. split; [done|]. apply Forall_singleton.
        unfold sound_pair. cbn. split_and!; [|done..]. apply Hall. by left.
Qed.

(** X5.  In what [match_trades] returns no external row is matched twice,
    and every pair joins an internal row with an external row that passed the
    validation gate, carries the score computed for that pair, which reaches
    [min_match_score], and has method ALGORITHMIC. *)
Theorem match_trades_pairs (ints exts : list Trade) matches breaks :
  match_trades fuzz_ratio cfg ints exts = Ok (matches, breaks) →
  NoDup ((λ m, row_id (external_trade m)) <$> matches) ∧
  Forall (λ m,
            internal_trade m ∈ ints ∧ external_trade m ∈ exts ∧
            _calculate_match_score fuzz_ratio cfg (internal_trade m) (external_trade m)
              = Ok (match_score m) ∧
            (min_match_score cfg <= match_score m)%Q ∧
            _validate_match cfg (internal_trade m) (external_trade m) = Ok true ∧
            match_method m = "ALGORITHMIC") matches.
Proof.
  unfold match_trades.
  destruct (match_internal fuzz_ratio cfg _ ints [] [] ∅)
    as [[[ms bs] matched]|] eqn:Hrun; [|done].
  cbn [mbind result_bind mret result_ret]. intros [= <- <-].
  apply (match_internal_pairs ints exts) in Hrun as (_ & Hnd & Hsound);
    [done|done|set_solver|constructor|constructor].
Qed.

(** X6.  An external row is reported as MISSING_INTERNAL_TRADE exactly when
    its id is not the id of a matched external row. *)
Theorem match_trades_missing_internal (ints exts : list Trade) matches breaks e :
  match_trades fuzz_ratio cfg ints exts = Ok (matches, breaks) →
  e ∈ exts →
  (missing_break "MISSING_INTERNAL_TRADE" e ∈ breaks ↔
   ∀ m, m ∈ matches → row_id (external_trade m) ≠ row_id e).
Proof.
  unfold match_trades.
  destruct (match_internal fuzz_ratio cfg _ ints [] [] ∅)
    as [[[ms bs] matched]|] eqn:Hrun; [|done].
  cbn [mbind result_bind mret result_ret]. intros [= <- <-] He.
  pose proof Hrun as Hrun'.
  apply (match_internal_pairs ints exts) in Hrun as (-> & _ & _);
    [|done|set_solver|constructor|constructor].
  apply (match_internal_counts _ _ _ exts) in Hrun' as (_ & _ & Hbs & _);
    [|apply create_lookup_index_within|set_solver|by rewrite size_empty
     |intros b Hb; by apply not_elem_of_nil in Hb].
  rewrite elem_of_app. unfold unmatched_external.
  rewrite list_elem_of_fmap. split.
  - intros [Hb|(x & [= ->] & Hx)]; [by apply Hbs in Hb|].
    apply list_elem_of_filter in Hx as [Hx _]. intros m Hm Heq. apply Hx.
    apply elem_of_list_to_set, list_elem_of_fmap. by exists m.
  - intros Hm. right. exists e. split; [done|].
    apply list_elem_of_filter. split; [|done].
    intros (m & Heq & Hin)%elem_of_list_to_set%list_elem_of_fmap.
    by apply (Hm m Hin).
Qed.

Lemma get_candidates_empty i (matched : gset Z) :
  _get_candidates cfg i ∅ matched = [].
Proof. unfold _get_candidates, lookup_keys. cbn [foldl]. by rewrite !lookup_empty. Qed.

Lemma match_internal_empty_index ints : ∀ matches breaks (matched : gset Z),
  match_internal fuzz_ratio cfg ∅ ints matches breaks matched =
  Ok (matches, breaks ++ (missing_break "MISSING_EXTERNAL_TRADE" <$> ints), matched).
Proof.
  induction ints as [|i ints IH]; intros matches breaks matched.
  - cbn. by rewrite app_nil_r.
  - cbn [match_internal]. unfold _find_best_match. rewrite get_candidates_empty.
    cbn [mbind result_bind mret result_ret]. rewrite IH. by rewrite <- app_assoc.
Qed.

(** X7.  With an empty external feed [match_trades] returns no match and one
    MISSING_EXTERNAL_TRADE break per internal row, whatever the rows and the
    configuration: no score is computed, so a zero price does not raise.
    With an empty internal feed every external row is reported as
    MISSING_INTERNAL_TRADE. *)
Theorem match_trades_empty_feed (ints exts : list Trade) :
  match_trades fuzz_ratio cfg ints [] =
    Ok ([], missing_break "MISSING_EXTERNAL_TRADE" <$> ints) ∧
  match_trades fuzz_ratio cfg [] exts =
    Ok ([], missing_break "MISSING_INTERNAL_TRADE" <$> exts).
Proof.
  split; unfold match_trades.
  - change (_create_lookup_index []) with (∅ : gmap string (list Trade)).
    rewrite match_internal_empty_index. cbn. by rewrite app_nil_r.
  - cbn [match_internal mbind result_bind mret result_ret].
    by rewrite unmatched_external_empty.
Qed.

End Pairs.

(** The one pair of the sample feeds is a sound pair. *)
Lemma match_trades_pairs_witness :
  ∃ matches breaks,
    match_trades exact_ratio default_config
      [buy_internal; sell_internal] [buy_external; sell_external]
      = Ok (matches, breaks) ∧
    length matches = 1%nat ∧
    Forall (sound_pair exact_ratio default_config
              [buy_internal; sell_internal] [buy_external; sell_external]) matches.
Proof.
  destruct (match_trades exact_ratio default_config
              [buy_internal; sell_internal] [buy_external; sell_external])
    as [[matches breaks]|e] eqn:H; [|vm_compute in H; discriminate].
  exists matches, breaks. split; [reflexivity|]. split.
  - vm_compute in H. by injection H as <- <-.
  - apply (match_trades_pairs exact_ratio default_config _ _ matches breaks H).
Defined.

(** On the sample feeds the external purchase is reported missing, the
    matched external sale is not. *)
Lemma match_trades_missing_internal_witness :
  ∃ matches breaks,
    match_trades exact_ratio default_config
      [buy_internal; sell_internal] [buy_external; sell_external]
      = Ok (matches, breaks) ∧
    missing_break "MISSING_INTERNAL_TRADE" buy_external ∈ breaks ∧
    missing_break "MISSING_INTERNAL_TRADE" sell_external ∉ breaks.
Proof.
  destruct (match_trades exact_ratio default_config
              [buy_internal; sell_internal] [buy_external; sell_external])
    as [[matches breaks]|e] eqn:H; [|vm_compute in H; discriminate].
  exists matches, breaks. split; [reflexivity|].
  assert (buy_external ∈ [buy_external; sell_external]) as Hb by (left).
  assert (sell_external ∈ [buy_external; sell_external]) as Hs by (right; left).
  pose proof (match_trades_missing_internal exact_ratio default_config _ _
                matches breaks buy_external H Hb) as Hbuy.
  pose proof (match_trades_missing_internal exact_ratio default_config _ _
                matches breaks sell_external H Hs) as Hsell.
  vm_compute in H. injection H as <- <-. split.
  - apply Hbuy. intros m Hm. apply list_elem_of_singleton in Hm. by subst m.
  - rewrite Hsell. intros Hall. by apply (Hall _ ltac:(left)).
Defined.

(** ** The breaks of a matched pair *)

(** [identify_breaks], when it returns, returns up to three breaks in the
    order price, quantity, settlement date. *)
Lemma identify_breaks_inv cfg i e bs :
  identify_breaks cfg i e = Ok bs →
  ¬ (price i == 0)%Q ∧ ¬ (quantity i == 0)%Q ∧
  bs =
    (if Qgt_bool (Qabs (price i - price e) / price i) (price_tolerance_percent cfg)
     then [mismatch_break "PRICE_MISMATCH"
             (if Qgt_bool (Qabs (price i - price e) / price i) 0.05 then HIGH else MEDIUM)
             (VNum (price i)) (VNum (price e)) (Some (price e - price i)%Q)]
     else []) ++
    (if Qgt_bool (Qabs (quantity i - quantity e) / quantity i)
                 (quantity_tolerance_percent cfg)
     then [mismatch_break "QUANTITY_MISMATCH"
             (if Qgt_bool (Qabs (quantity i - quantity e) / quantity i) 0.01
              then HIGH else MEDIUM)
             (VNum (quantity i)) (VNum (quantity e)) (Some (quantity e - quantity i)%Q)]
     else []) ++
    (if bool_decide (settlement_date i ≠ settlement_date e)
     then [mismatch_break "SETTLEMENT_DATE_MISMATCH" LOW
             (VDate (settlement_date i)) (VDate (settlement_date e)) None]
     else []).
Proof.
  unfold identify_breaks.
  destruct (pydiv _ (price i)) as [pd|] eqn:Hpd; [|done].
  destruct (pydiv _ (quantity i)) as [qd|] eqn:Hqd; [|done].
  apply pydiv_Ok in Hpd as [Hp ->]. apply pydiv_Ok in Hqd as [Hq ->].
  cbn [mbind result_bind mret result_ret]. intros [= <-]. split_and!; [done..|].
  destruct (Qgt_bool _ (price_tolerance_percent cfg));
    destruct (Qgt_bool _ (quantity_tolerance_percent cfg));
    by destruct (bool_decide (settlement_date i ≠ settlement_date e)).
Qed.

Lemma identify_breaks_total cfg i e :
  nonzero_trade i → ∃ bs, identify_breaks cfg i e = Ok bs.
Proof.
  intros [Hp Hq]. unfold identify_breaks.
  rewrite (pydiv_nonzero _ _ Hp), (pydiv_nonzero _ _ Hq). by eexists.
Qed.

Lemma validate_match_true_inv cfg i e :
  _validate_match cfg i e = Ok true →
  nonzero_trade i ∧
  ((Qabs (price i - price e) / price i <= price_tolerance_percent cfg)%Q ∨
   (Qabs (price i - price e) <= price_tolerance_absolute cfg)%Q) ∧
  (Qabs (quantity i - quantity e) / quantity i <= quantity_tolerance_percent cfg)%Q ∧
  instrument_id i = instrument_id e.
Proof.
  unfold _validate_match.
  destruct (pydiv _ (price i)) as [pd|] eqn:Hpd; [|done].
  apply pydiv_Ok in Hpd as [Hp ->]. cbn [mbind result_bind].
  destruct (Qgt_bool (Qabs (price i - price e) / price i) _) eqn:E1;
    [destruct (Qgt_bool (Qabs (price i - price e)) _) eqn:E2|]; cbn [andb]; [done|..].
  all: destruct (pydiv _ (quantity i)) as [qd|] eqn:Hqd; [|done].
  all: apply pydiv_Ok in Hqd as [Hq ->]; cbn [mbind result_bind].
  all: destruct (Qgt_bool (Qabs (quantity i - quantity e) / quantity i) _) eqn:E3;
    [done|].
  all: case_bool_decide; [done|]. all: intros _.
  all: apply Qgt_bool_false in E3.
  - apply Qgt_bool_false in E2. split_and!; [done|by right|done|done].
  - apply Qgt_bool_false in E1. split_and!; [done|by left|done|done].
Qed.

(** X8.  For a pair that passed the validation gate [identify_breaks]
    returns, and it reports no quantity mismatch; it reports a price mismatch
    only when the price passed the gate by the absolute tolerance alone. *)
Theorem identify_breaks_after_validation cfg i e :
  _validate_match cfg i e = Ok true →
  ∃ bs, identify_breaks cfg i e = Ok bs ∧
    (∀ b, b ∈ bs → break_type b ≠ "QUANTITY_MISMATCH") ∧
    (∀ b, b ∈ bs → break_type b = "PRICE_MISMATCH" →
       (price_tolerance_percent cfg < Qabs (price i - price e) / price i)%Q ∧
       (Qabs (price i - price e) <= price_tolerance_absolute cfg)%Q).
Proof.
  intros (Hnz & Hprice & Hqty & _)%validate_match_true_inv.
  destruct (identify_breaks_total cfg i e Hnz) as [bs Hbs]. exists bs.
  split; [done|]. apply identify_breaks_inv in Hbs as (_ & _ & ->).
  apply Qgt_bool_false in Hqty. rewrite Hqty. cbn [app].
  destruct (Qgt_bool _ (price_tolerance_percent cfg)) eqn:E1;
    destruct (bool_decide (settlement_date i ≠ settlement_date e)); cbn [app].
  all: split; intros b Hb; repeat (apply elem_of_cons in Hb as [-> | Hb]);
    try (by apply not_elem_of_nil in Hb); try done.
  all: intros _; apply Qgt_bool_true in E1; split; [done|].
  all: destruct Hprice; [lra|done].
Qed.

(** The low-priced pair passes validation on the absolute tolerance and
    carries one break, on the price. *)
Lemma identify_breaks_after_validation_witness :
  ∃ bs, identify_breaks default_config cheap_internal cheap_external = Ok bs ∧
        length bs = 1%nat ∧
        ∀ b, b ∈ bs → break_type b ≠ "QUANTITY_MISMATCH".
Proof.
  destruct (identify_breaks_after_validation default_config cheap_internal cheap_external)
    as (bs & Hbs & Hq & _); [by vm_compute|].
  exists bs. split_and!; [exact Hbs| |exact Hq].
  vm_compute in Hbs. by injection Hbs as <-.
Defined.

(** X9.  For a non-zero internal price and quantity [identify_breaks]
    returns at most three breaks, and none exactly when the relative price
    and quantity differences are within their tolerances and the settlement
    dates are equal. *)
Theorem identify_breaks_clean cfg i e :
  nonzero_trade i →
  ∃ bs, identify_breaks cfg i e = Ok bs ∧
    (length bs ≤ 3)%nat ∧
    (bs = [] ↔
     (Qabs (price i - price e) / price i <= price_tolerance_percent cfg)%Q ∧
     (Qabs (quantity i - quantity e) / quantity i <= quantity_tolerance_percent cfg)%Q ∧
     settlement_date i = settlement_date e).
Proof.
  intros Hnz. destruct (identify_breaks_total cfg i e Hnz) as [bs Hbs]. exists bs.
  split; [done|]. apply identify_breaks_inv in Hbs as (_ & _ & ->).
  destruct (Qgt_bool _ (price_tolerance_percent cfg)) eqn:E1;
    destruct (Qgt_bool _ (quantity_tolerance_percent cfg)) eqn:E2;
    case_bool_decide as E3; cbn [app length]; (split; [lia|]).
  all: try apply Qgt_bool_true in E1; try apply Qgt_bool_false in E1.
  all: try apply Qgt_bool_true in E2; try apply Qgt_bool_false in E2.
  all: split; [try done|]; try (intros (? & ? & ?); first [lra|done]).
Qed.

(** The purchase booked alike on both sides has no break. *)
Lemma identify_breaks_clean_witness :
  identify_breaks default_config buy_internal buy_external = Ok [].
Proof.
  destruct (identify_breaks_clean default_config buy_internal buy_external)
    as (bs & Hbs & _ & Hnil); [by compute|].
  rewrite Hbs. f_equal. apply Hnil. by vm_compute.
Defined.

(** X10.  Every break of [identify_breaks] lacks the keys ['id'] and
    ['trade']; a price or quantity break holds the internal value as
    expected, the external value as actual and their signed difference
    external minus internal; a settlement break has no ['difference']. *)
Theorem identify_breaks_shape cfg i e bs b :
  identify_breaks cfg i e = Ok bs → b ∈ bs →
  break_id b = None ∧ trade b = None ∧
  (break_type b = "PRICE_MISMATCH" ∧
     expected_value b = Some (VNum (price i)) ∧
     actual_value b = Some (VNum (price e)) ∧
     difference b = Some (price e - price i)%Q ∨
   break_type b = "QUANTITY_MISMATCH" ∧
     expected_value b = Some (VNum (quantity i)) ∧
     actual_value b = Some (VNum (quantity e)) ∧
     difference b = Some (quantity e - quantity i)%Q ∨
   break_type b = "SETTLEMENT_DATE_MISMATCH" ∧
     expected_value b = Some (VDate (settlement_date i)) ∧
     actual_value b = Some (VDate (settlement_date e)) ∧
     difference b = None ∧ severity b = LOW).
Proof.
  intros (_ & _ & ->)%identify_breaks_inv.
  rewrite !elem_of_app.
  intros [Hb|[Hb|Hb]];
    [destruct (Qgt_bool _ (price_tolerance_percent cfg))
    |destruct (Qgt_bool _ (quantity_tolerance_percent cfg))
    |destruct (bool_decide _)];
    try (by apply not_elem_of_nil in Hb);
    apply list_elem_of_singleton in Hb as ->; cbn; naive_solver.
Qed.

(** The price break of the low-priced pair. *)
Lemma identify_breaks_shape_witness :
  ∃ b, identify_breaks default_config cheap_internal cheap_external = Ok [b] ∧
       break_id b = None ∧ trade b = None ∧ break_type b = "PRICE_MISMATCH".
Proof.
  pose (b := mismatch_break "PRICE_MISMATCH" MEDIUM
               (VNum (price cheap_internal)) (VNum (price cheap_external))
               (Some (price cheap_external - price cheap_internal)%Q)).
  assert (identify_breaks default_config cheap_internal cheap_external = Ok [b]) as H
    by (vm_compute; reflexivity).
  destruct (identify_breaks_shape default_config cheap_internal cheap_external [b] b H)
    as (Hid & Htrade & _); [left|].
  exists b. split_and!; [exact H|exact Hid|exact Htrade|reflexivity].
Defined.

(** ** Classifying the breaks of the matcher *)

Lemma sorted_assignment_rules :
  sorted_rules _load_assignment_rules = _load_assignment_rules.
Proof. reflexivity. Qed.

Lemma priority_score_bounds now b sev :
  created_at b = None →
  base_score sev ≤ _calculate_priority_score now b sev ≤ base_score sev + 200.
Proof.
  intros Hc. unfold _calculate_priority_score. rewrite Hc.
  destruct (Qgt_bool _ 1000000); [lia|]. destruct (Qgt_bool _ 100000); lia.
Qed.

(** X11.  A missing-side break as [match_trades] emits it is classified
    without error: severity critical, SLA 2 hours, not auto-resolvable,
    priority between 1000 and 1200, assigned to the senior operations team;
    an unmatched external row is an internal booking error, an unmatched
    internal row a late booking from 16:00 on and a broker feed issue
    before. *)
Theorem categorize_missing_break (now : Q) (t : Trade) (kind : string) :
  kind = "MISSING_EXTERNAL_TRADE" ∨ kind = "MISSING_INTERNAL_TRADE" →
  ∃ c, categorize_break now (missing_break kind t) = Ok c ∧
    severity (categorized c) = CRITICAL ∧
    sla_hours c = Some 2 ∧
    auto_resolvable (categorized c) = Some false ∧
    (∃ p, priority_score (categorized c) = Some (inject_Z p) ∧ 1000 ≤ p ≤ 1200) ∧
    _auto_assign _load_assignment_rules (categorized c) = "senior-ops-team@firm.com" ∧
    root_cause_category (categorized c) =
      Some (if bool_decide (kind = "MISSING_INTERNAL_TRADE") then "INTERNAL_BOOKING_ERROR"
            else if bool_decide (16 ≤ hour_of (trade_date t)) then "LATE_BOOKING"
            else "BROKER_FEED_ISSUE").
Proof.
  intros [-> | ->].
  - unfold categorize_break, _identify_root_cause. cbn [missing_break break_type trade].
    change (contains "MISSING_EXTERNAL" "MISSING_EXTERNAL_TRADE") with true. cbn iota.
    case_bool_decide; cbn [mbind result_bind mret result_ret];
      (eexists; split; [reflexivity|]); cbn [categorized sla_hours severity
        auto_resolvable priority_score root_cause_category];
      (split_and!; [reflexivity..| |reflexivity|reflexivity]);
      (eexists; split; [reflexivity|]);
      apply (priority_score_bounds now (missing_break _ t) CRITICAL eq_refl).
  - unfold categorize_break, _identify_root_cause. cbn [missing_break break_type trade].
    change (contains "MISSING_EXTERNAL" "MISSING_INTERNAL_TRADE") with false.
    change (contains "MISSING_INTERNAL" "MISSING_INTERNAL_TRADE") with true. cbn iota.
    cbn [mbind result_bind mret result_ret].
    eexists; split; [reflexivity|]. cbn [categorized sla_hours severity
        auto_resolvable priority_score root_cause_category].
    split_and!; [reflexivity..| |reflexivity|reflexivity].
    eexists; split; [reflexivity|].
    apply (priority_score_bounds now (missing_break _ t) CRITICAL eq_refl).
Qed.

Lemma categorize_missing_break_witness :
  ∃ c, categorize_break 0 (missing_break "MISSING_EXTERNAL_TRADE" buy_internal) = Ok c ∧
       severity (categorized c) = CRITICAL ∧
       root_cause_category (categorized c) = Some "BROKER_FEED_ISSUE".
Proof.
  destruct (categorize_missing_break 0 buy_internal "MISSING_EXTERNAL_TRADE"
              (or_introl eq_refl)) as (c & Hc & Hsev & _ & _ & _ & _ & Hroot).
  exists c. split_and!; [exact Hc|exact Hsev|exact Hroot].
Defined.

Lemma zero_impact (d limit : Q) : (0 <= limit)%Q → Qgt_bool (Qabs d * 0) limit = false.
Proof. intros Hl. apply Qgt_bool_false. lra. Qed.

(** The classification of each of the three breaks of [identify_breaks]. *)
Lemma categorize_identified now cfg i e bs b :
  identify_breaks cfg i e = Ok bs → b ∈ bs →
  ∃ root,
    _identify_root_cause b = Ok root ∧
    categorize_break now b =
      Ok {| categorized :=
              {| break_id := None; break_type := break_type b;
                 severity := if bool_decide (break_type b = "PRICE_MISMATCH")
                             then LOW else MEDIUM;
                 trade := None; expected_value := expected_value b;
                 actual_value := actual_value b; difference := difference b;
                 root_cause_category := Some root;
                 auto_resolvable := Some (_is_auto_resolvable b);
                 priority_score :=
                   Some (inject_Z (if bool_decide (break_type b = "PRICE_MISMATCH")
                                   then 10 else 100));
                 created_at := None |};
            sla_hours := Some (if bool_decide (break_type b = "PRICE_MISMATCH")
                               then 48 else 24) |}.
Proof.
  intros (Hp & _ & ->)%identify_breaks_inv.
  rewrite !elem_of_app.
  intros [Hb|[Hb|Hb]];
    [destruct (Qgt_bool _ (price_tolerance_percent cfg))
    |destruct (Qgt_bool _ (quantity_tolerance_percent cfg))
    |destruct (bool_decide _)];
    try (by apply not_elem_of_nil in Hb);
    apply list_elem_of_singleton in Hb as ->.
  - unfold categorize_break, _identify_root_cause, _determine_severity.
    cbn [mismatch_break break_type difference expected_value from_option id trade
         trade_quantity_or pydiv_value].
    change (contains "MISSING_EXTERNAL" "PRICE_MISMATCH") with false.
    change (contains "MISSING_INTERNAL" "PRICE_MISMATCH") with false.
    change (contains "MISSING" "PRICE_MISMATCH") with false.
    change (contains "PRICE_MISMATCH" "PRICE_MISMATCH") with true.
    change (contains "PRICE" "PRICE_MISMATCH") with true. cbn iota.
    rewrite (pydiv_nonzero _ _ Hp). cbn [mbind result_bind].
    rewrite !zero_impact by done.
    destruct (Qgt_bool _ 0.1); (eexists; split; [reflexivity|]); reflexivity.
  - unfold categorize_break, _identify_root_cause, _determine_severity.
    cbn [mismatch_break break_type difference expected_value from_option id trade
         trade_price_or pydiv_value].
    change (contains "MISSING_EXTERNAL" "QUANTITY_MISMATCH") with false.
    change (contains "MISSING_INTERNAL" "QUANTITY_MISMATCH") with false.
    change (contains "MISSING" "QUANTITY_MISMATCH") with false.
    change (contains "PRICE_MISMATCH" "QUANTITY_MISMATCH") with false.
    change (contains "QUANTITY_MISMATCH" "QUANTITY_MISMATCH") with true.
    change (contains "PRICE" "QUANTITY_MISMATCH") with false.
    change (contains "QUANTITY" "QUANTITY_MISMATCH") with true. cbn iota.
    rewrite !zero_impact by done.
    eexists; split; reflexivity.
  - eexists; split; reflexivity.
Qed.

(** X12.  The breaks of [identify_breaks] are classified by their type
    alone: the dictionaries have no ['trade'], so the impact is zero
    whatever the difference.  A price mismatch becomes low with a 48-hour
    SLA and priority 10, a quantity or settlement-date mismatch medium with
    a 24-hour SLA and priority 100; none gets an ['id']. *)
Theorem categorize_identified_break now cfg i e bs b :
  identify_breaks cfg i e = Ok bs → b ∈ bs →
  ∃ c, categorize_break now b = Ok c ∧
    break_id (categorized c) = None ∧
    (break_type b = "PRICE_MISMATCH" →
       severity (categorized c) = LOW ∧ sla_hours c = Some 48 ∧
       priority_score (categorized c) = Some 10%Q) ∧
    (break_type b ≠ "PRICE_MISMATCH" →
       severity (categorized c) = MEDIUM ∧ sla_hours c = Some 24 ∧
       priority_score (categorized c) = Some 100%Q).
Proof.
  intros Hbs Hb.
  destruct (categorize_identified now cfg i e bs b Hbs Hb) as (root & _ & ->).
  eexists. split; [reflexivity|]. cbn [categorized sla_hours break_id severity
    priority_score].
  split; [done|]. case_bool_decide; by split.
Qed.

(** The price break of the low-priced pair is rated low, with 48 hours. *)
Lemma categorize_identified_break_witness :
  ∃ b c, identify_breaks default_config cheap_internal cheap_external = Ok [b] ∧
         categorize_break 0 b = Ok c ∧
         severity (categorized c) = LOW ∧ sla_hours c = Some 48%Z.
Proof.
  pose (b := mismatch_break "PRICE_MISMATCH" MEDIUM
               (VNum (price cheap_internal)) (VNum (price cheap_external))
               (Some (price cheap_external - price cheap_internal)%Q)).
  assert (identify_breaks default_config cheap_internal cheap_external = Ok [b]) as H
    by (vm_compute; reflexivity).
  destruct (categorize_identified_break 0 default_config cheap_internal cheap_external
              [b] b H) as (c & Hc & _ & Hprice & _); [left|].
  destruct (Hprice eq_refl) as (Hsev & Hsla & _).
  exists b, c. split_and!; [exact H|exact Hc|exact Hsev|exact Hsla].
Defined.

(** X13.  A settlement-date break of [identify_breaks] is never marked
    auto-resolvable by [categorize_break] (it has no ['difference'] and no
    root cause yet), so [batch_auto_resolve] passes over it: the T+1 rule is
    not tried and the break table is not touched. *)
Theorem settlement_break_is_skipped now cfg i e bs b :
  identify_breaks cfg i e = Ok bs → b ∈ bs →
  break_type b = "SETTLEMENT_DATE_MISMATCH" →
  ∃ c, categorize_break now b = Ok c ∧
    auto_resolvable (categorized c) = Some false ∧
    ∀ utcnow rules st,
      batch_auto_resolve utcnow rules [categorized c] st =
      (Ok {| total_breaks := 1; auto_resolved := 0; failed_resolution := 0;
             resolutions := [] |}, st).
Proof.
  intros Hbs Hb Htype.
  destruct (categorize_identified now cfg i e bs b Hbs Hb) as (root & _ & Hc).
  assert (_is_auto_resolvable b = false) as Hauto.
  { apply identify_breaks_inv in Hbs as (_ & _ & ->).
    rewrite !elem_of_app in Hb.
    destruct Hb as [Hb|[Hb|Hb]];
      [destruct (Qgt_bool _ (price_tolerance_percent cfg))
      |destruct (Qgt_bool _ (quantity_tolerance_percent cfg))
      |destruct (bool_decide _)];
      try (by apply not_elem_of_nil in Hb);
      apply list_elem_of_singleton in Hb as ->; done. }
  rewrite Hauto in Hc. eexists. split; [exact Hc|]. split; [reflexivity|].
  intros utcnow rules st. reflexivity.
Qed.

(** The settlement break of a pair one day apart is left alone by the
    batch. *)
Lemma settlement_break_is_skipped_witness :
  ∃ b c, identify_breaks default_config buy_internal late_settlement_external = Ok [b] ∧
         categorize_break 0 b = Ok c ∧
         batch_auto_resolve second_clock _load_resolution_rules [categorized c] open_table =
         (Ok {| total_breaks := 1; auto_resolved := 0; failed_resolution := 0;
                resolutions := [] |}, open_table).
Proof.
  pose (b := mismatch_break "SETTLEMENT_DATE_MISMATCH" LOW
               (VDate (settlement_date buy_internal))
               (VDate (settlement_date late_settlement_external)) None).
  assert (identify_breaks default_config buy_internal late_settlement_external = Ok [b])
    as H by (vm_compute; reflexivity).
  destruct (settlement_break_is_skipped 0 default_config buy_internal
              late_settlement_external [b] b H) as (c & Hc & _ & Hbatch);
    [left|reflexivity|].
  exists b, c. split_and!; [exact H|exact Hc|apply Hbatch].
Defined.

(** ** The resolver on breaks without an id *)

Lemma attempt_auto_resolve_find rules now b :
  attempt_auto_resolve rules now b =
  match List.find (fires b) rules with
  | Some r => Resolved (name r) (action r) (reason r) now
  | None => Unresolved
  end.
Proof.
  induction rules as [|r rules IH]; [reflexivity|].
  cbn [attempt_auto_resolve List.find]. unfold fires at 1.
  by destruct (condition r b) as [[]|].
Qed.

Lemma batch_loop_without_ids u rules breaks :
  (∀ b, b ∈ breaks → break_id b = None) →
  ∀ res st,
    let out := batch_loop u rules breaks res st in
    db out.2 = db st ∧
    ((∃ b, b ∈ breaks ∧ auto_resolvable b = Some true ∧
           List.find (fires b) rules ≠ None) →
     out.1 = Raise (KeyError "id")) ∧
    ((∀ b, b ∈ breaks → auto_resolvable b = Some true →
           List.find (fires b) rules = None) →
     out.1 = Ok {| total_breaks := total_breaks res;
                   auto_resolved := auto_resolved res;
                   failed_resolution :=
                     failed_resolution res +
                     length (filter (λ b, auto_resolvable b = Some true) breaks);
                   resolutions := resolutions res |}).
Proof.
  induction breaks as [|b breaks IH]; intros Hids res st; cbn zeta.
  - cbn. split_and!; [done| |].
    + intros (b & Hb & _). by apply not_elem_of_nil in Hb.
    + intros _. destruct res. cbn. by rewrite Nat.add_0_r.
  - assert (∀ x, x ∈ breaks → break_id x = None) as Hids'
      by (intros x Hx; apply Hids; by right).
    cbn [batch_loop].
    destruct (auto_resolvable b) as [[]|] eqn:Hflag.
    + rewrite attempt_auto_resolve_find.
      destruct (List.find (fires b) rules) as [r|] eqn:Hfind.
      * rewrite (Hids b) by by left. cbn. split_and!; [done|done|].
        intros Hnone. specialize (Hnone b ltac:(by left) Hflag). congruence.
      * specialize (IH Hids'
          {| total_breaks := total_breaks res; auto_resolved := auto_resolved res;
             failed_resolution := S (failed_resolution res);
             resolutions := resolutions res |} st) as (Hdb & Hraise & Hok).
        split_and!; [done| |].
        -- intros (x & [->|Hx]%elem_of_cons & Hx1 & Hx2); [congruence|].
           apply Hraise. by exists x.
        -- intros Hnone. rewrite Hok by (intros x Hx; apply Hnone; by right).
           rewrite filter_cons_True by done. cbn. f_equal. f_equal. lia.
    + specialize (IH Hids' res st) as (Hdb & Hraise & Hok).
      split_and!; [done| |].
      * intros (x & [->|Hx]%elem_of_cons & Hx1 & Hx2); [congruence|].
        apply Hraise. by exists x.
      * intros Hnone. rewrite Hok by (intros x Hx; apply Hnone; by right).
        by rewrite filter_cons_False by congruence.
    + specialize (IH Hids' res st) as (Hdb & Hraise & Hok).
      split_and!; [done| |].
      * intros (x & [->|Hx]%elem_of_cons & Hx1 & Hx2); [congruence|].
        apply Hraise. by exists x.
      * intros Hnone. rewrite Hok by (intros x Hx; apply Hnone; by right).
        by rewrite filter_cons_False by congruence.
Qed.

(** X14.  On breaks that have no ['id'] (those of the matcher)
    [batch_auto_resolve] never writes the break table and resolves nothing:
    it raises [KeyError('id')] as soon as a rule fires on a break marked
    auto-resolvable, and otherwise counts every marked break as a failed
    resolution. *)
Theorem batch_auto_resolve_without_ids (utcnow : nat → Q) (rules : list Rule)
    (breaks : list Break) (st : ResolverState) :
  (∀ b, b ∈ breaks → break_id b = None) →
  db (batch_auto_resolve utcnow rules breaks st).2 = db st ∧
  ((∃ b, b ∈ breaks ∧ auto_resolvable b = Some true ∧
         List.find (fires b) rules ≠ None) →
   (batch_auto_resolve utcnow rules breaks st).1 = Raise (KeyError "id")) ∧
  ((∀ b, b ∈ breaks → auto_resolvable b = Some true →
         List.find (fires b) rules = None) →
   (batch_auto_resolve utcnow rules breaks st).1 =
   Ok {| total_breaks := length breaks;
         auto_resolved := 0;
         failed_resolution := length (filter (λ b, auto_resolvable b = Some true) breaks);
         resolutions := [] |}).
Proof.
  intros Hids. unfold batch_auto_resolve.
  exact (batch_loop_without_ids utcnow rules breaks Hids _ st).
Qed.

(** A batch of one missing-side break. *)
Lemma batch_auto_resolve_without_ids_witness :
  (batch_auto_resolve second_clock _load_resolution_rules
     [missing_break "MISSING_EXTERNAL_TRADE" buy_internal] open_table).1 =
  Ok {| total_breaks := 1; auto_resolved := 0; failed_resolution := 0;
        resolutions := [] |}.
Proof.
  destruct (batch_auto_resolve_without_ids second_clock _load_resolution_rules
              [missing_break "MISSING_EXTERNAL_TRADE" buy_internal] open_table)
    as (_ & _ & Hok).
  - intros b Hb. apply list_elem_of_singleton in Hb. by subst b.
  - apply Hok. intros b Hb. apply list_elem_of_singleton in Hb. by subst b.
Defined.

(** X15.  A price or quantity break of [identify_breaks] that
    [categorize_break] marks auto-resolvable does fire its rounding rule
    (PENNY_ROUNDING or QUANTITY_ROUNDING); as the break has no ['id'],
    [batch_auto_resolve] then raises [KeyError('id')] instead of resolving
    it. *)
Theorem identified_break_fires now cfg i e bs b :
  identify_breaks cfg i e = Ok bs → b ∈ bs → _is_auto_resolvable b = true →
  ∃ c rule,
    categorize_break now b = Ok c ∧
    auto_resolvable (categorized c) = Some true ∧
    (break_type b = "PRICE_MISMATCH" ∧ rule = penny_rounding_rule ∨
     break_type b = "QUANTITY_MISMATCH" ∧ rule = quantity_rounding_rule) ∧
    (∀ n, attempt_auto_resolve _load_resolution_rules n (categorized c) =
          Resolved (name rule) (action rule) (reason rule) n) ∧
    (∀ utcnow st,
       (batch_auto_resolve utcnow _load_resolution_rules [categorized c] st).1 =
       Raise (KeyError "id")).
Proof.
  intros Hbs Hb Hauto.
  destruct (categorize_identified now cfg i e bs b Hbs Hb) as (root & _ & Hc).
  rewrite Hauto in Hc.
  apply identify_breaks_inv in Hbs as (_ & _ & ->).
  rewrite !elem_of_app in Hb.
  destruct Hb as [Hb|[Hb|Hb]];
    [destruct (Qgt_bool _ (price_tolerance_percent cfg))
    |destruct (Qgt_bool _ (quantity_tolerance_percent cfg))
    |destruct (bool_decide _)];
    try (by apply not_elem_of_nil in Hb);
    apply list_elem_of_singleton in Hb as ->.
  - eexists _, penny_rounding_rule. split; [exact Hc|].
    unfold _is_auto_resolvable in Hauto.
    cbn [severity mismatch_break root_cause_category difference break_type] in Hauto.
    destruct (Qgt_bool _ 0.05); [done|].
    rewrite bool_decide_eq_false_2 in Hauto by (by intros [?|?]).
    change (contains "MISMATCH" "PRICE_MISMATCH") with true in Hauto. cbn iota in Hauto.
    apply Qgt_bool_true in Hauto.
    assert (Qle_bool (Qabs (price e - price i)) 0.01 = true) as Hle
      by (apply Qle_bool_iff; lra).
    match type of Hc with
    | _ = Ok ?c0 =>
        assert (∀ n, attempt_auto_resolve _load_resolution_rules n (categorized c0) =
                     Resolved (name penny_rounding_rule) (action penny_rounding_rule)
                              (reason penny_rounding_rule) n) as Hfire
    end.
    { intros n. unfold _load_resolution_rules.
      cbn [attempt_auto_resolve condition settlement_date_rule penny_rounding_rule
           categorized break_type mismatch_break difference getitem
           mbind result_bind mret result_ret].
      change (bool_decide ("PRICE_MISMATCH" = "SETTLEMENT_DATE_MISMATCH")) with false.
      change (bool_decide ("PRICE_MISMATCH" = "PRICE_MISMATCH")) with true.
      cbn iota. by rewrite Hle. }
    split_and!; [done|by left|exact Hfire|].
    intros utcnow st. unfold batch_auto_resolve. cbn [batch_loop auto_resolvable categorized].
    by rewrite Hfire.
  - eexists _, quantity_rounding_rule. split; [exact Hc|].
    unfold _is_auto_resolvable in Hauto.
    cbn [severity mismatch_break root_cause_category difference break_type] in Hauto.
    destruct (Qgt_bool _ 0.01) eqn:E; [done|].
    rewrite bool_decide_eq_false_2 in Hauto by (by intros [?|?]).
    change (contains "MISMATCH" "QUANTITY_MISMATCH") with true in Hauto.
    cbn iota in Hauto.
    match type of Hc with
    | _ = Ok ?c0 =>
        assert (∀ n, attempt_auto_resolve _load_resolution_rules n (categorized c0) =
                     Resolved (name quantity_rounding_rule)
                              (action quantity_rounding_rule)
                              (reason quantity_rounding_rule) n) as Hfire
    end.
    { intros n. unfold _load_resolution_rules.
      cbn [attempt_auto_resolve condition settlement_date_rule penny_rounding_rule
           quantity_rounding_rule categorized break_type mismatch_break difference
           getitem mbind result_bind mret result_ret].
      change (bool_decide ("QUANTITY_MISMATCH" = "SETTLEMENT_DATE_MISMATCH")) with false.
      change (bool_decide ("QUANTITY_MISMATCH" = "PRICE_MISMATCH")) with false.
      change (bool_decide ("QUANTITY_MISMATCH" = "QUANTITY_MISMATCH")) with true.
      cbn iota. by rewrite Hauto. }
    split_and!; [done|by right|exact Hfire|].
    intros utcnow st. unfold batch_auto_resolve. cbn [batch_loop auto_resolvable categorized].
    by rewrite Hfire.
  - done.
Qed.

(** The price break of the low-priced pair is within a cent: the batch
    raises on it. *)
Lemma identified_break_fires_witness :
  ∃ b c, identify_breaks default_config cheap_internal cheap_external = Ok [b] ∧
         categorize_break 0 b = Ok c ∧
         auto_resolvable (categorized c) = Some true ∧
         (batch_auto_resolve second_clock _load_resolution_rules [categorized c]
            open_table).1 = Raise (KeyError "id").
Proof.
  pose (b := mismatch_break "PRICE_MISMATCH" MEDIUM
               (VNum (price cheap_internal)) (VNum (price cheap_external))
               (Some (price cheap_external - price cheap_internal)%Q)).
  assert (identify_breaks default_config cheap_internal cheap_external = Ok [b]) as H
    by (vm_compute; reflexivity).
  destruct (identified_break_fires 0 default_config cheap_internal cheap_external
              [b] b H) as (c & rule & Hc & Hauto & _ & _ & Hbatch);
    [left|by vm_compute|].
  exists b, c. split_and!; [exact H|exact Hc|exact Hauto|apply Hbatch].
Defined.

(** ** The built-in resolution rules *)






(** ** Counterparty aliases *)

Lemma upper_ascii_idempotent (c : ascii) : upper_ascii (upper_ascii c) = upper_ascii c.
Proof. by destruct c as [[] [] [] [] [] [] [] []]. Qed.

Lemma upper_idempotent (s : string) : upper (upper s) = upper s.
Proof.
  induction s as [|c s IH]; [done|]. cbn [upper].
  by rewrite upper_ascii_idempotent, IH.
Qed.

(** X17.  [_check_counterparty_alias] is symmetric in its two arguments
    and does not depend on the case of the names; on a value that is not a
    string it raises [AttributeError] whichever side the value is on. *)
Theorem check_counterparty_alias_symmetric (v1 v2 : pyval) (s : string) :
  _check_counterparty_alias v1 v2 = _check_counterparty_alias v2 v1 ∧
  _check_counterparty_alias (VStr (upper s)) v2 = _check_counterparty_alias (VStr s) v2 ∧
  _check_counterparty_alias v1 (VStr (upper s)) = _check_counterparty_alias v1 (VStr s) ∧
  ((∀ x, v1 ≠ VStr x) ∨ (∀ x, v2 ≠ VStr x) →
   _check_counterparty_alias v1 v2 = Raise AttributeError).
Proof.
  unfold _check_counterparty_alias. split_and!.
  - destruct v1, v2; cbn; try done. by rewrite orb_comm.
  - cbn. by rewrite upper_idempotent.
  - destruct v1; cbn; try done. by rewrite upper_idempotent.
  - intros [H|H]; destruct v1, v2; cbn; try done; by (exfalso; eapply H).
Qed.

(** ** The counters and the writes of the batch *)

Lemma batch_loop_counters u rules breaks : ∀ res st r,
  (batch_loop u rules breaks res st).1 = Ok r →
  total_breaks r = total_breaks res ∧
  (auto_resolved r + length (resolutions res) =
   auto_resolved res + length (resolutions r))%nat ∧
  (auto_resolved r + failed_resolution r =
   auto_resolved res + failed_resolution res +
   length (filter (λ b, auto_resolvable b = Some true) breaks))%nat ∧
  ∃ new,
    resolutions r = resolutions res ++ new ∧
    Forall (λ entry,
              ∃ b, b ∈ breaks ∧ break_id b = Some entry.1 ∧
                   auto_resolvable b = Some true ∧
                   entry.2 ≠ Unresolved ∧
                   erase_timestamp entry.2 =
                     erase_timestamp (attempt_auto_resolve rules 0 b)) new.
Proof.
  induction breaks as [|b breaks IH]; intros res st r.
  - cbn. intros [= <-]. split_and!; [done|lia|lia|].
    exists []. by rewrite app_nil_r.
  - cbn [batch_loop].
    assert (∀ new : list (Z * Resolution),
              Forall (λ entry, ∃ x, x ∈ breaks ∧ break_id x = Some entry.1 ∧
                        auto_resolvable x = Some true ∧ entry.2 ≠ Unresolved ∧
                        erase_timestamp entry.2 =
                          erase_timestamp (attempt_auto_resolve rules 0 x)) new →
              Forall (λ entry, ∃ x, x ∈ b :: breaks ∧ break_id x = Some entry.1 ∧
                        auto_resolvable x = Some true ∧ entry.2 ≠ Unresolved ∧
                        erase_timestamp entry.2 =
                          erase_timestamp (attempt_auto_resolve rules 0 x)) new) as Hweak.
    { intros new Hnew. eapply Forall_impl; [exact Hnew|].
      intros entry (x & Hx & ?). exists x. split; [by right|done]. }
    destruct (auto_resolvable b) as [[]|] eqn:Hflag.
    + destruct (attempt_auto_resolve rules (u (tick st)) b) as [|n a rs t] eqn:Hres.
      * intros Hr. apply IH in Hr as (H1 & H2 & H3 & new & H4 & H5). cbn [total_breaks auto_resolved failed_resolution resolutions length] in *.
        split_and!; [done|lia| |].
        -- rewrite filter_cons_True by done. cbn. lia.
        -- exists new. split; [done|]. by apply Hweak.
      * destruct (break_id b) as [k|] eqn:Hk; [|done].
        intros Hr. apply IH in Hr as (H1 & H2 & H3 & new & H4 & H5). cbn [total_breaks auto_resolved failed_resolution resolutions length] in *.
        rewrite length_app in H2. cbn in H2.
        split_and!; [done|lia| |].
        -- rewrite filter_cons_True by done. cbn. lia.
        -- exists ((k, Resolved n a rs t) :: new).
           split; [by rewrite H4, <- app_assoc|].
           constructor; [|by apply Hweak].
           exists b. cbn. split_and!; [by left|done|done|done|].
           rewrite (attempt_auto_resolve_clock rules (u (tick st)) 0 b), Hres.
           done.
    + intros Hr. apply IH in Hr as (H1 & H2 & H3 & new & H4 & H5).
      split_and!; [done|lia| |].
      * by rewrite filter_cons_False by congruence.
      * exists new. split; [done|]. by apply Hweak.
    + intros Hr. apply IH in Hr as (H1 & H2 & H3 & new & H4 & H5).
      split_and!; [done|lia| |].
      * by rewrite filter_cons_False by congruence.
      * exists new. split; [done|]. by apply Hweak.
Qed.

(** X18.  When [batch_auto_resolve] returns, [total_breaks] is the length
    of the list, [auto_resolved] is the number of entries of [resolutions],
    [auto_resolved + failed_resolution] is the number of breaks marked
    auto-resolvable, and every entry is the resolution of a marked break of
    the list under that break's id. *)
Theorem batch_auto_resolve_counters (utcnow : nat → Q) (rules : list Rule)
    (breaks : list Break) (st : ResolverState) (r : BatchResults) :
  (batch_auto_resolve utcnow rules breaks st).1 = Ok r →
  total_breaks r = length breaks ∧
  auto_resolved r = length (resolutions r) ∧
  (auto_resolved r + failed_resolution r =
   length (filter (λ b, auto_resolvable b = Some true) breaks))%nat ∧
  Forall (λ entry,
            ∃ b, b ∈ breaks ∧ break_id b = Some entry.1 ∧
                 auto_resolvable b = Some true ∧
                 entry.2 ≠ Unresolved ∧
                 erase_timestamp entry.2 =
                   erase_timestamp (attempt_auto_resolve rules 0 b)) (resolutions r).
Proof.
  unfold batch_auto_resolve. intros Hr.
  apply batch_loop_counters in Hr as (H1 & H2 & H3 & new & H4 & H5). cbn [total_breaks auto_resolved failed_resolution resolutions length] in *.
  split_and!; [done|lia|lia|]. by rewrite H4.
Qed.

(** The sample batch: three breaks, one resolved. *)
Lemma batch_auto_resolve_counters_witness :
  ∃ r, (batch_auto_resolve second_clock _load_resolution_rules sample_batch
          open_table).1 = Ok r ∧
       total_breaks r = 3%nat ∧ auto_resolved r = 1%nat ∧
       auto_resolved r = length (resolutions r).
Proof.
  destruct (batch_auto_resolve second_clock _load_resolution_rules sample_batch
              open_table).1 as [r|e] eqn:H; [|vm_compute in H; discriminate].
  destruct (batch_auto_resolve_counters second_clock _load_resolution_rules
              sample_batch open_table r H) as (Htotal & Hlen & _).
  exists r. split_and!; [reflexivity|exact Htotal| |exact Hlen].
  vm_compute in H. by injection H as <-.
Defined.

Lemma update_break_status_lookup u k status res st j :
  db (_update_break_status u k status res st) !! j =
  if decide (k = j)
  then (λ _, {| row_status := status;
                resolved_at := Some (u (tick st));
                resolution_notes := Some ("Auto-resolved: " +:+ resolution_reason res) |})
         <$> db st !! j
  else db st !! j.
Proof.
  unfold _update_break_status. destruct (decide (k = j)) as [->|Hne].
  - destruct (db st !! j) eqn:E; cbn; [by rewrite lookup_insert_eq|done].
  - destruct (db st !! k); cbn; [by rewrite lookup_insert_ne|done].
Qed.

Lemma batch_loop_frame u rules breaks : ∀ res st k,
  let out := batch_loop u rules breaks res st in
  (is_Some (db out.2 !! k) ↔ is_Some (db st !! k)) ∧
  ((∀ b, b ∈ breaks → auto_resolvable b = Some true → break_id b ≠ Some k) →
   db out.2 !! k = db st !! k).
Proof.
  induction breaks as [|b breaks IH]; intros res st k; cbn zeta; [done|].
  cbn [batch_loop].
  destruct (auto_resolvable b) as [[]|] eqn:Hflag.
  - destruct (attempt_auto_resolve rules (u (tick st)) b) as [|n a rs t].
    + destruct (IH {| total_breaks := total_breaks res;
                      auto_resolved := auto_resolved res;
                      failed_resolution := S (failed_resolution res);
                      resolutions := resolutions res |} st k) as [Hdom Hframe].
      split; [done|]. intros Hk. apply Hframe. intros x Hx. apply Hk. by right.
    + destruct (break_id b) as [j|] eqn:Hj; [|done].
      match goal with
      | |- context [batch_loop u rules breaks ?res' ?st'] =>
          destruct (IH res' st' k) as [Hdom Hframe]
      end.
      split.
      * rewrite Hdom, update_break_status_lookup. cbn [db tick].
        destruct (decide (j = k)); [by rewrite fmap_is_Some|done].
      * intros Hk. rewrite Hframe by (intros x Hx; apply Hk; by right).
        rewrite update_break_status_lookup. cbn [db tick].
        destruct (decide (j = k)) as [->|]; [|done].
        by destruct (Hk b ltac:(by left) Hflag).
  - destruct (IH res st k) as [Hdom Hframe].
    split; [done|]. intros Hk. apply Hframe. intros x Hx. apply Hk. by right.
  - destruct (IH res st k) as [Hdom Hframe].
    split; [done|]. intros Hk. apply Hframe. intros x Hx. apply Hk. by right.
Qed.

(** X19.  [batch_auto_resolve] neither adds nor removes a row of the break
    table, also when it ends with an exception, and it leaves every row alone
    whose id is not the id of a break marked auto-resolvable. *)
Theorem batch_auto_resolve_frame (utcnow : nat → Q) (rules : list Rule)
    (breaks : list Break) (st : ResolverState) (k : Z) :
  (is_Some (db (batch_auto_resolve utcnow rules breaks st).2 !! k) ↔
   is_Some (db st !! k)) ∧
  ((∀ b, b ∈ breaks → auto_resolvable b = Some true → break_id b ≠ Some k) →
   db (batch_auto_resolve utcnow rules breaks st).2 !! k = db st !! k).
Proof. unfold batch_auto_resolve. apply batch_loop_frame. Qed.

(** ** The most common value *)

Lemma most_common_fold (all l : list string) : ∀ best,
  let r := foldl (λ best v,
                    match best with
                    | None => Some v
                    | Some w =>
                        if (occurrences w all <? occurrences v all)%nat
                        then Some v else Some w
                    end) best l in
  (r = None ↔ best = None ∧ l = []) ∧
  ∀ v, r = Some v →
    (best = Some v ∨ v ∈ l) ∧
    (∀ w, best = Some w → (occurrences w all ≤ occurrences v all)%nat) ∧
    (∀ w, w ∈ l → (occurrences w all ≤ occurrences v all)%nat).
Proof.
  induction l as [|x l IH]; intros best; cbn zeta.
  - cbn. split; [naive_solver|]. intros v ->. split_and!; [by left| |].
    + by intros w [= ->].
    + intros w Hw. by apply not_elem_of_nil in Hw.
  - cbn [foldl]. destruct best as [w0|].
    + destruct (occurrences w0 all <? occurrences x all)%nat eqn:E.
      * apply Nat.ltb_lt in E. destruct (IH (Some x)) as [Hnone Hsome]. split.
        -- rewrite Hnone. naive_solver.
        -- intros v Hv. destruct (Hsome v Hv) as (Hin & Hbest & Hl).
           specialize (Hbest x eq_refl). split_and!.
           ++ right. destruct Hin as [[= ->]|]; [by left|by right].
           ++ intros w [= <-]. lia.
           ++ intros w [->|Hw]%elem_of_cons; [done|by apply Hl].
      * apply Nat.ltb_ge in E. destruct (IH (Some w0)) as [Hnone Hsome]. split.
        -- rewrite Hnone. naive_solver.
        -- intros v Hv. destruct (Hsome v Hv) as (Hin & Hbest & Hl).
           specialize (Hbest w0 eq_refl). split_and!.
           ++ destruct Hin as [|]; [by left|right; by right].
           ++ by intros w [= <-].
           ++ intros w [->|Hw]%elem_of_cons; [lia|by apply Hl].
    + destruct (IH (Some x)) as [Hnone Hsome]. split.
      * rewrite Hnone. naive_solver.
      * intros v Hv. destruct (Hsome v Hv) as (Hin & Hbest & Hl). split_and!.
        -- right. destruct Hin as [[= ->]|]; [by left|by right].
        -- done.
        -- intros w [->|Hw]%elem_of_cons; [by apply Hbest|by apply Hl].
Qed.

Lemma occurrences_kept (w : string) (values : list (option string)) :
  w ≠ "" →
  occurrences w
    (omap (λ v, match v with
                | Some s => if bool_decide (s = "") then None else Some s
                | None => None
                end) values) =
  length (filter (λ x, x = Some w) values).
Proof.
  intros Hw. unfold occurrences.
  induction values as [|x values IH]; [done|].
  cbn [omap list_omap]. destruct x as [s|].
  - case_bool_decide as Hs.
    + rewrite filter_cons_False by congruence. exact IH.
    + destruct (decide (s = w)) as [->|Hne].
      * rewrite !filter_cons_True by done. cbn. by rewrite IH.
      * rewrite !filter_cons_False by congruence. exact IH.
  - rewrite filter_cons_False by done. exact IH.
Qed.

Lemma filter_none {A} (P : A → Prop) `{!∀ x, Decision (P x)} (l : list A) :
  (∀ x, x ∈ l → ¬ P x) → filter P l = [].
Proof.
  induction l as [|a l IH]; intros Hall; [done|].
  rewrite filter_cons_False by (apply Hall; by left).
  apply IH. intros x Hx. apply Hall. by right.
Qed.

(** X20.  [_find_common_value] returns nothing exactly when every value
    under the key is missing or empty; otherwise it returns a non-empty
    value that occurs in the list and that no other non-empty value occurs
    more often than. *)
Theorem find_common_value_is_mode (values : list (option string)) :
  (_find_common_value values = None ↔ ∀ v, Some v ∈ values → v = "") ∧
  ∀ v, _find_common_value values = Some v →
    v ≠ "" ∧ Some v ∈ values ∧
    ∀ w, w ≠ "" →
      (length (filter (λ x, x = Some w) values) ≤
       length (filter (λ x, x = Some v) values))%nat.
Proof.
  unfold _find_common_value, most_common.
  set (kept := omap _ values).
  assert (∀ s, s ∈ kept ↔ s ≠ "" ∧ Some s ∈ values) as Hkept.
  { intros s. unfold kept. rewrite list_elem_of_omap. split.
    - intros ([x|] & Hx & Hs); [|done]. case_bool_decide; [done|].
      injection Hs as ->. done.
    - intros [Hs Hin]. exists (Some s). split; [done|].
      by rewrite bool_decide_eq_false_2. }
  destruct (most_common_fold kept kept None) as [Hnone Hsome]. cbn zeta in *. split.
  - rewrite Hnone. split.
    + intros [_ Hnil] v Hv. destruct (decide (v = "")) as [|Hne]; [done|].
      assert (v ∈ kept) as Hin by by apply Hkept. rewrite Hnil in Hin.
      by apply not_elem_of_nil in Hin.
    + intros Hall. split; [done|]. destruct kept as [|s kept'] eqn:E; [done|].
      assert (s ∈ s :: kept') as Hs by by left.
      apply Hkept in Hs as [Hne Hin]. by apply Hall in Hin.
  - intros v Hv. destruct (Hsome v Hv) as ([|Hin] & _ & Hmax); [done|].
    apply Hkept in Hin as [Hne Hin]. split_and!; [done..|].
    intros w Hw. destruct (decide (Some w ∈ values)) as [Hwin|Hwout].
    + rewrite <- !occurrences_kept by done. apply Hmax. by apply Hkept.
    + replace (filter (λ x, x = Some w) values) with (@nil (option string));
        [cbn; lia|].
      symmetry. apply filter_none. intros x Hx ->. done.
Qed.

(** ** The size of the patterns *)

Lemma indicator_sum_NoDup (y : Z) (ids : list Z) :
  NoDup ids →
  (sum_list_with (λ c, if decide (y = c) then 1 else 0) ids ≤ 1)%nat.
Proof.
  induction 1 as [|c ids Hc Hnd IH]; cbn [sum_list_with]; [lia|].
  destruct (decide (y = c)) as [->|]; [|lia].
  assert (sum_list_with (λ c0, if decide (c = c0) then 1 else 0) ids = 0)%nat as ->;
    [|lia].
  clear IH Hnd. induction ids as [|d ids IH]; [done|]. cbn [sum_list_with].
  destruct (decide (c = d)) as [->|]; [exfalso; apply Hc; by left|].
  apply IH. intros Hin. apply Hc. by right.
Qed.

Lemma cluster_sizes_sum {A} (zs : list (A * Z)) (ids : list Z) :
  NoDup ids →
  (sum_list_with (λ c, length (filter (λ bl, bl.2 = c) zs)) ids ≤ length zs)%nat.
Proof.
  intros Hnd. induction zs as [|x zs IH].
  - cbn. clear Hnd. induction ids as [|c ids IH]; [done|]. cbn. exact IH.
  - assert (sum_list_with (λ c, length (filter (λ bl, bl.2 = c) (x :: zs))) ids =
            sum_list_with (λ c, length (filter (λ bl, bl.2 = c) zs)) ids +
            sum_list_with (λ c, if decide (x.2 = c) then 1 else 0) ids)%nat as ->.
    { clear. induction ids as [|c ids IH]; [done|]. cbn [sum_list_with].
      rewrite IH. destruct (decide (x.2 = c)).
      - rewrite filter_cons_True by done. cbn. lia.
      - rewrite filter_cons_False by done. lia. }
    pose proof (indicator_sum_NoDup x.2 ids Hnd). cbn [length]. lia.
Qed.

Lemma cluster_ids_NoDup (labels : list Z) : NoDup (cluster_ids labels).
Proof.
  unfold cluster_ids. rewrite merge_sort_Permutation. apply NoDup_remove_dups.
Qed.

(** X21.  Every pattern of [detect_patterns] has at least three members,
    is rated high exactly when it has more than ten, and takes its
    recommendation from its common root cause; the clusters do not overlap,
    so the member counts add up to at most the number of breaks and there are
    at most a third as many patterns as breaks. *)
Theorem detect_patterns_counts (hash : string → Z)
    (fit_predict : list (list Q) → list Z) (now : Q) (breaks : list Break) :
  let patterns := detect_patterns hash fit_predict now breaks in
  Forall (λ p, (3 ≤ break_count p)%nat ∧
               (pattern_severity p = HIGH ↔ (10 < break_count p)%nat) ∧
               recommendation p = _generate_recommendation (common_root_cause p))
         patterns ∧
  (sum_list_with break_count patterns ≤ length breaks)%nat ∧
  (3 * length patterns ≤ length breaks)%nat.
Proof.
  cbn zeta. unfold detect_patterns.
  destruct (length breaks <? 5)%nat; [cbn; split_and!; [constructor|lia|lia]|].
  set (labels := fit_predict _).
  set (zs := zip breaks labels).
  pose proof (cluster_sizes_sum zs (cluster_ids labels) (cluster_ids_NoDup labels)) as Hsum.
  assert (length zs ≤ length breaks)%nat as Hzs
    by (unfold zs; rewrite length_zip; lia).
  revert Hsum. generalize (cluster_ids labels) as ids. intros ids Hsum. cbn zeta.
  assert (Forall (λ p, (3 ≤ break_count p)%nat ∧
                       (pattern_severity p = HIGH ↔ (10 < break_count p)%nat) ∧
                       recommendation p = _generate_recommendation (common_root_cause p))
            (omap (λ cluster_id,
                     if (3 <=? length (filter (λ bl, bl.2 = cluster_id) zs).*1)%nat
                     then Some (_analyze_cluster hash now
                                  (filter (λ bl, bl.2 = cluster_id) zs).*1)
                     else None) ids) ∧
          (sum_list_with break_count
             (omap (λ cluster_id,
                      if (3 <=? length (filter (λ bl, bl.2 = cluster_id) zs).*1)%nat
                      then Some (_analyze_cluster hash now
                                   (filter (λ bl, bl.2 = cluster_id) zs).*1)
                      else None) ids)
           ≤ sum_list_with (λ c, length (filter (λ bl, bl.2 = c) zs)) ids)%nat ∧
          (3 * length
             (omap (λ cluster_id,
                      if (3 <=? length (filter (λ bl, bl.2 = cluster_id) zs).*1)%nat
                      then Some (_analyze_cluster hash now
                                   (filter (λ bl, bl.2 = cluster_id) zs).*1)
                      else None) ids)
           ≤ sum_list_with (λ c, length (filter (λ bl, bl.2 = c) zs)) ids)%nat)
    as (H1 & H2 & H3).
  { clear Hsum. induction ids as [|c ids (IH1 & IH2 & IH3)].
    - cbn. split_and!; [constructor|lia|lia].
    - cbn [omap list_omap sum_list_with]. cbn beta.
      rewrite length_fmap.
      destruct (3 <=? length (filter (λ bl, bl.2 = c) zs))%nat eqn:E.
      + apply Nat.leb_le in E. set (rest := omap _ ids) in *.
        cbn [sum_list_with length]. unfold _analyze_cluster.
        cbn [break_count pattern_severity recommendation common_root_cause].
        rewrite ?length_fmap.
        split_and!; [|lia|lia]. constructor; [|done].
        cbn [break_count pattern_severity recommendation common_root_cause].
        rewrite ?length_fmap. split_and!; [done| |done].
        destruct (10 <? length (filter (λ bl, bl.2 = c) zs))%nat eqn:E2.
        * apply Nat.ltb_lt in E2. done.
        * apply Nat.ltb_ge in E2. split; [done|intros ?; exfalso; lia].
      + split_and!; [done|lia|lia]. }
  split_and!; [done|lia|lia].
Qed.

(** ** The priority score *)

Lemma Qceiling_neg (x : Q) : (x < 0)%Q → Qceiling x ≤ 0.
Proof.
  intros Hx. change 0 with (Qceiling 0). apply Qceiling_resp_le. lra.
Qed.

Lemma Qfloor_nonneg (x : Q) : (0 <= x)%Q → 0 ≤ Qfloor x.
Proof.
  intros Hx. change 0 with (Qfloor 0). by apply Qfloor_resp_le.
Qed.

Lemma py_int_monotone (x y : Q) : (x <= y)%Q → py_int x ≤ py_int y.
Proof.
  intros Hxy. unfold py_int.
  destruct (Qle_bool 0 x) eqn:Hx, (Qle_bool 0 y) eqn:Hy.
  - by apply Qfloor_resp_le.
  - apply Qle_bool_iff in Hx.
    assert (¬ (0 <= y)%Q) by (rewrite <- Qle_bool_iff; congruence). lra.
  - assert (¬ (0 <= x)%Q) by (rewrite <- Qle_bool_iff; congruence).
    apply Qle_bool_iff in Hy.
    pose proof (Qceiling_neg x ltac:(lra)). pose proof (Qfloor_nonneg y Hy). lia.
  - by apply Qceiling_resp_le.
Qed.

(** The part of the score that comes from the age of the break. *)
Lemma priority_score_range now b sev :
  let age := match created_at b with
             | Some created => py_int ((now - created) / 3600 * 10)
             | None => 0
             end in
  base_score sev + age ≤ _calculate_priority_score now b sev ≤ base_score sev + age + 200.
Proof.
  cbn zeta. unfold _calculate_priority_score.
  destruct (created_at b) as [c|];
    destruct (Qgt_bool _ 1000000); try lia; destruct (Qgt_bool _ 100000); lia.
Qed.

(** X22.  The priority score never decreases as the clock advances; between
    two breaks of the same age, the one whose severity has a base score more
    than 200 higher always ranks strictly higher, whatever the notionals
    (CRITICAL over HIGH, HIGH over MEDIUM and LOW), while a LOW break on a
    large trade can rank above a MEDIUM one; a break without ['created_at']
    scores the base, the base + 100 or the base + 200, and just the base when
    it has no ['trade'] either. *)
Theorem priority_score_order (now : Q) (b b' : Break) (sev sev' : Severity) :
  (∀ later, (now <= later)%Q →
     _calculate_priority_score now b sev ≤ _calculate_priority_score later b sev) ∧
  (created_at b = created_at b' → base_score sev + 200 < base_score sev' →
   _calculate_priority_score now b sev < _calculate_priority_score now b' sev') ∧
  (created_at b = None →
   _calculate_priority_score now b sev = base_score sev ∨
   _calculate_priority_score now b sev = base_score sev + 100 ∨
   _calculate_priority_score now b sev = base_score sev + 200) ∧
  (trade b = None → created_at b = None →
   _calculate_priority_score now b sev = base_score sev) ∧
  (∃ low medium,
     created_at low = created_at medium ∧
     _calculate_priority_score now medium MEDIUM < _calculate_priority_score now low LOW).
Proof.
  split_and!.
  - intros later Hlater. unfold _calculate_priority_score.
    assert (match created_at b with
            | Some created => base_score sev + py_int ((now - created) / 3600 * 10)
            | None => base_score sev
            end ≤
            match created_at b with
            | Some created => base_score sev + py_int ((later - created) / 3600 * 10)
            | None => base_score sev
            end) as Hage.
    { destruct (created_at b) as [c|]; [|lia].
      apply Z.add_le_mono_l, py_int_monotone.
      apply Qmult_le_compat_r; [|done].
      apply Qmult_le_compat_r; [lra|done]. }
    destruct (Qgt_bool _ 1000000); [lia|]. destruct (Qgt_bool _ 100000); lia.
  - intros Hsame Hbase.
    pose proof (priority_score_range now b sev) as H1.
    pose proof (priority_score_range now b' sev') as H2.
    cbn zeta in H1, H2. rewrite Hsame in H1. lia.
  - intros Hnew. unfold _calculate_priority_score. rewrite Hnew.
    destruct (Qgt_bool _ 1000000); [lia|]. destruct (Qgt_bool _ 100000); lia.
  - intros Htrade Hnew. unfold _calculate_priority_score, trade_price_or, trade_quantity_or.
    rewrite Hnew, Htrade. reflexivity.
  - exists (missing_break "MISSING_EXTERNAL_TRADE"
              (mk_trade 1 "I1" "ABC" "JPM" 2000000 1 32400)),
           (missing_break "MISSING_EXTERNAL_TRADE" buy_internal).
    split; [reflexivity|]. by vm_compute.
Qed.

(** ** Assignment and cases *)

Lemma priority_le_transitive : Transitive priority_le.
Proof. unfold priority_le. intros x y z ??. lia. Qed.

Lemma priority_le_total : Total priority_le.
Proof. unfold priority_le. intros x y. lia. Qed.

Lemma find_strongly_sorted (b : Break) (l : list AssignmentRule) (r : AssignmentRule) :
  StronglySorted priority_le l →
  List.find (λ rule, assign_condition rule b) l = Some r →
  r ∈ l ∧ assign_condition r b = true ∧
  ∀ r', r' ∈ l → assign_condition r' b = true →
        assign_priority r ≤ assign_priority r'.
Proof.
  induction 1 as [|x l Hl IH Hx]; [done|]. cbn [List.find].
  destruct (assign_condition x b) eqn:Hc.
  - intros [= <-]. split_and!; [by left|done|].
    intros r' [->|Hr']%elem_of_cons _; [lia|].
    rewrite Forall_forall in Hx. by apply Hx.
  - intros Hfind. destruct (IH Hfind) as (Hin & Hr & Hmin).
    split_and!; [by right|done|].
    intros r' [->|Hr']%elem_of_cons Hc'; [congruence|by apply Hmin].
Qed.

Lemma find_none_iff {A} (P : A → bool) (l : list A) :
  List.find P l = None ↔ ∀ x, x ∈ l → P x = false.
Proof.
  induction l as [|x l IH]; cbn [List.find].
  - split; [intros _ x Hx; by apply elem_of_nil in Hx|done].
  - destruct (P x) eqn:Hx.
    + split; [done|]. intros H. specialize (H x ltac:(left)). congruence.
    + rewrite IH. split.
      * intros H y [->|Hy]%elem_of_cons; [done|by apply H].
      * intros H y Hy. apply H. by right.
Qed.

(** X23.  [_auto_assign] returns the address of a rule whose condition
    holds and whose priority number is least among the rules whose condition
    holds, and the general team when no condition holds; with the built-in
    rules this is the senior team for a CRITICAL break, else the broker team
    for a root cause that mentions BROKER_FEED, else the specialist for the
    counterparty JPMORGAN, else the general team. *)
Theorem auto_assign_lowest_priority (rules : list AssignmentRule) (b : Break) :
  ((∀ r, r ∈ rules → assign_condition r b = false) →
   _auto_assign rules b = "general-ops-team@firm.com") ∧
  ((∃ r, r ∈ rules ∧ assign_condition r b = true) →
   ∃ r, r ∈ rules ∧ assign_condition r b = true ∧
        _auto_assign rules b = assign_to r ∧
        ∀ r', r' ∈ rules → assign_condition r' b = true →
              assign_priority r ≤ assign_priority r') ∧
  _auto_assign _load_assignment_rules b =
    match severity b with
    | CRITICAL => "senior-ops-team@firm.com"
    | _ =>
        if contains "BROKER_FEED" (default "" (root_cause_category b))
        then "broker-ops-team@firm.com"
        else if bool_decide (counterparty <$> trade b = Some "JPMORGAN")
        then "jpm-specialist@firm.com"
        else "general-ops-team@firm.com"
    end.
Proof.
  split_and!.
  - intros Hnone. unfold _auto_assign.
    destruct (List.find _ (sorted_rules rules)) as [r|] eqn:Hfind; [|done].
    apply find_strongly_sorted in Hfind as (Hin & Hc & _);
      [|apply (@StronglySorted_merge_sort _ priority_le _
                priority_le_transitive priority_le_total)].
    unfold sorted_rules in Hin. rewrite merge_sort_Permutation in Hin.
    rewrite (Hnone r Hin) in Hc. done.
  - intros (r0 & Hin0 & Hc0). unfold _auto_assign.
    destruct (List.find _ (sorted_rules rules)) as [r|] eqn:Hfind.
    + apply find_strongly_sorted in Hfind as (Hin & Hc & Hmin);
        [|apply (@StronglySorted_merge_sort _ priority_le _
                priority_le_transitive priority_le_total)].
      unfold sorted_rules in Hin, Hmin. rewrite merge_sort_Permutation in Hin.
      exists r. split_and!; [done..|].
      intros r' Hr' Hc'. apply Hmin; [|done]. by rewrite merge_sort_Permutation.
    + rewrite find_none_iff in Hfind. unfold sorted_rules in Hfind.
      rewrite (Hfind r0) in Hc0; [done|]. by rewrite merge_sort_Permutation.
  - unfold _auto_assign. rewrite sorted_assignment_rules.
    unfold _load_assignment_rules. cbn [List.find assign_condition assign_to].
    destruct (severity b); try done;
      destruct (contains _ _); try done; by case_bool_decide.
Qed.

(** A critical break goes to the senior team although the broker rule and
    the default rule hold for it as well. *)
Lemma auto_assign_lowest_priority_witness :
  ∃ c, categorize_break 0 (missing_break "MISSING_EXTERNAL_TRADE" buy_internal) = Ok c ∧
       root_cause_category (categorized c) = Some "BROKER_FEED_ISSUE" ∧
       _auto_assign _load_assignment_rules (categorized c) = "senior-ops-team@firm.com".
Proof.
  eexists. split; [vm_compute; reflexivity|]. split; [reflexivity|].
  rewrite (proj2 (proj2 (auto_assign_lowest_priority _load_assignment_rules _))).
  reflexivity.
Defined.

Section Workflow_properties.

Variable notification_config : NotificationConfig.
Variable utcnow : nat → Q.
Variable strftime_ymd : Q → string.
Variable str_int : Z → string.

Lemma create_break_case_cases smtp_send tick cb :
  create_break_case notification_config utcnow strftime_ymd str_int smtp_send tick cb =
  match break_id (categorized cb), from_address notification_config with
  | None, _ => Raise (KeyError "id")
  | Some _, None => Raise (KeyError "from_address")
  | Some id, Some _ =>
      Ok {| case_break_id := id;
            case_id := "CASE-" +:+ strftime_ymd (utcnow (S tick)) +:+ "-" +:+ str_int id;
            case_status := "ASSIGNED";
            assigned_to := _auto_assign _load_assignment_rules (categorized cb);
            case_created_at := utcnow (S (S tick));
            sla_deadline := (utcnow tick + inject_Z (default 24%Z (sla_hours cb)) * 3600)%Q;
            case_priority_score := default 100%Q (priority_score (categorized cb)) |}
  end.
Proof.
  unfold create_break_case, _send_email.
  destruct (break_id (categorized cb)) as [id|]; [|done].
  destruct (from_address notification_config) as [from|]; [|done].
  cbn. by destruct (smtp_send _).
Qed.

(** X24.  [create_break_case] raises [KeyError('id')] on a break without
    ['id'] and [KeyError('from_address')] when the notification
    configuration has no sender (the key is read outside the [try] of
    [_send_email]); otherwise it returns a case with status ASSIGNED for
    that break id, assigned by [_auto_assign], with the SLA deadline
    ['sla_hours'] (24 by default) after the first reading of the clock.  What
    the SMTP session does, failing included, changes nothing. *)
Theorem create_break_case_outcome (smtp_send : string → result unit) (tick : nat)
    (cb : CategorizedBreak) :
  let outcome :=
    create_break_case notification_config utcnow strftime_ymd str_int smtp_send tick cb in
  (break_id (categorized cb) = None → outcome = Raise (KeyError "id")) ∧
  (is_Some (break_id (categorized cb)) → from_address notification_config = None →
   outcome = Raise (KeyError "from_address")) ∧
  (∀ id, break_id (categorized cb) = Some id →
         is_Some (from_address notification_config) →
     ∃ case, outcome = Ok case ∧
       case_break_id case = id ∧
       case_status case = "ASSIGNED" ∧
       assigned_to case = _auto_assign _load_assignment_rules (categorized cb) ∧
       (sla_deadline case ==
        utcnow tick + inject_Z (default 24%Z (sla_hours cb)) * 3600)%Q) ∧
  (∀ other_smtp,
     create_break_case notification_config utcnow strftime_ymd str_int other_smtp tick cb
     = outcome).
Proof.
  cbn zeta. split_and!.
  - intros Hid. by rewrite create_break_case_cases, Hid.
  - intros [id Hid] Hfrom. by rewrite create_break_case_cases, Hid, Hfrom.
  - intros id Hid [from Hfrom]. rewrite create_break_case_cases, Hid, Hfrom.
    eexists. split; [reflexivity|]. cbn. done.
  - intros other. by rewrite !create_break_case_cases.
Qed.

Variable smtp_send : string → result unit.

Lemma workflow_cases_loop_ids (resolved : gset Z) :
  is_Some (from_address notification_config) →
  ∀ breaks tick cases,
    Forall (λ cb, is_Some (break_id (categorized cb))) breaks →
    ∃ new,
      workflow_cases_loop notification_config utcnow strftime_ymd str_int smtp_send
        breaks resolved tick cases = Ok (cases ++ new) ∧
      case_break_id <$> new =
        filter (λ id, id ∉ resolved) (omap (λ cb, break_id (categorized cb)) breaks) ∧
      Forall (λ c, case_status c = "ASSIGNED") new.
Proof.
  intros [from Hfrom]. induction breaks as [|cb breaks IH]; intros tick cases Hids.
  - exists []. cbn. by rewrite app_nil_r.
  - apply Forall_cons in Hids as [[id Hid] Hids]. cbn [workflow_cases_loop omap list_omap].
    rewrite Hid. cbn [getitem mbind result_bind]. rewrite filter_cons.
    destruct (decide (id ∈ resolved)) as [Hin|Hout].
    + rewrite decide_False by (by intros ?). apply IH, Hids.
    + rewrite decide_True by done.
      rewrite create_break_case_cases, Hid, Hfrom. cbn [mbind result_bind].
      destruct (IH (3 + tick)%nat
                  (cases ++ [{| case_break_id := id;
                                case_id := "CASE-" +:+ strftime_ymd (utcnow (S tick))
                                           +:+ "-" +:+ str_int id;
                                case_status := "ASSIGNED";
                                assigned_to :=
                                  _auto_assign _load_assignment_rules (categorized cb);
                                case_created_at := utcnow (S (S tick));
                                sla_deadline :=
                                  (utcnow tick
                                   + inject_Z (default 24%Z (sla_hours cb)) * 3600)%Q;
                                case_priority_score :=
                                  default 100%Q (priority_score (categorized cb)) |}])
                  Hids) as (new & Hrun & Hnew & Hst).
      eexists (_ :: new). rewrite Hrun, <- app_assoc. split_and!; [done| |].
      * cbn. by rewrite Hnew.
      * by constructor.
Qed.

Lemma workflow_cases_loop_no_id (resolved : gset Z) : ∀ breaks tick cases,
  breaks ≠ [] →
  Forall (λ cb, break_id (categorized cb) = None) breaks →
  workflow_cases_loop notification_config utcnow strftime_ymd str_int smtp_send
    breaks resolved tick cases = Raise (KeyError "id").
Proof.
  intros [|cb breaks] tick cases Hne Hnone; [done|].
  apply Forall_cons in Hnone as [Hid _]. cbn [workflow_cases_loop]. by rewrite Hid.
Qed.

Lemma workflow_cases_loop_missing_id (resolved : gset Z) : ∀ breaks tick cases,
  Exists (λ cb, break_id (categorized cb) = None) breaks →
  ∃ key, workflow_cases_loop notification_config utcnow strftime_ymd str_int smtp_send
           breaks resolved tick cases = Raise (KeyError key) ∧
         (key = "id" ∨ key = "from_address" ∧ from_address notification_config = None).
Proof.
  induction breaks as [|cb breaks IH]; intros tick cases Hex.
  - by apply Exists_nil in Hex.
  - cbn [workflow_cases_loop].
    destruct (break_id (categorized cb)) as [id|] eqn:Hid; [|exists "id"; by split; [|left]].
    apply Exists_cons in Hex as [Hex|Hex]; [congruence|].
    cbn [getitem mbind result_bind].
    destruct (decide (id ∈ resolved)); [by apply IH|].
    rewrite create_break_case_cases, Hid.
    destruct (from_address notification_config) eqn:Hfrom.
    + cbn [mbind result_bind]. by apply IH.
    + exists "from_address". split; [done|]. by right.
Qed.

(** X25.  With a sender configured and an ['id'] on every break,
    [_create_workflow_cases] returns one ASSIGNED case for each break whose
    id is not among the resolutions, in the order of the breaks: every break
    is either auto-resolved or gets a case, never both.  If some break has no
    ['id'], it raises a [KeyError] (for ['id'], or for ['from_address'] when
    no sender is configured) and returns no case. *)
Theorem create_workflow_cases_partition (breaks : list CategorizedBreak)
    (results : BatchResults) (tick : nat) :
  let resolved : gset Z := list_to_set (resolutions results).*1 in
  let ids := omap (λ cb, break_id (categorized cb)) breaks in
  let outcome :=
    _create_workflow_cases notification_config utcnow strftime_ymd str_int smtp_send
      breaks results tick in
  (is_Some (from_address notification_config) →
   Forall (λ cb, is_Some (break_id (categorized cb))) breaks →
   ∃ cases, outcome = Ok cases ∧
     case_break_id <$> cases = filter (λ id, id ∉ resolved) ids ∧
     Forall (λ c, case_status c = "ASSIGNED") cases ∧
     (length cases + length (filter (λ id, id ∈ resolved) ids) = length breaks)%nat) ∧
  (Exists (λ cb, break_id (categorized cb) = None) breaks →
   ∃ key, outcome = Raise (KeyError key) ∧
          (key = "id" ∨ key = "from_address" ∧ from_address notification_config = None)).
Proof.
  cbn zeta. unfold _create_workflow_cases. split.
  - intros Hfrom Hids.
    destruct (workflow_cases_loop_ids (list_to_set (resolutions results).*1) Hfrom
                breaks tick [] Hids) as (cases & Hrun & Hcases & Hst).
    exists cases. split_and!; [done..|].
    rewrite <- (length_fmap case_break_id), Hcases.
    assert (length (omap (λ cb, break_id (categorized cb)) breaks) = length breaks) as <-.
    { clear -Hids. induction Hids as [|cb l [id Hid] _ IH]; [done|].
      cbn. rewrite Hid. cbn. by rewrite IH. }
    generalize (omap (λ cb, break_id (categorized cb)) breaks) as ids.
    induction ids as [|id ids IH]; [done|]. rewrite !filter_cons.
    destruct (decide (id ∈ _)).
    + rewrite decide_False by (by intros ?). cbn. lia.
    + rewrite decide_True by done. cbn. lia.
  - apply workflow_cases_loop_missing_id.
Qed.

End Workflow_properties.

(** The penny break was resolved by the batch, the quantity break was not:
    one case, for the quantity break, although the mail server is down. *)
Lemma create_workflow_cases_partition_witness :
  ∃ cases,
    _create_workflow_cases {| from_address := Some "recon@firm.com" |} second_clock
      (λ _, "19700101") (λ _, "7") (λ _, Raise (RuntimeError "connection refused"))
      [{| categorized := penny_break; sla_hours := Some 48 |};
       {| categorized := small_quantity_break; sla_hours := Some 24 |}]
      {| total_breaks := 2; auto_resolved := 1; failed_resolution := 1;
         resolutions := [(8, attempt_auto_resolve _load_resolution_rules 0 penny_break)] |}
      0 = Ok cases ∧
    case_break_id <$> cases = [7].
Proof.
  destruct (proj1 (create_workflow_cases_partition
                     {| from_address := Some "recon@firm.com" |} second_clock
                     (λ _, "19700101") (λ _, "7")
                     (λ _, Raise (RuntimeError "connection refused"))
                     [{| categorized := penny_break; sla_hours := Some 48 |};
                      {| categorized := small_quantity_break; sla_hours := Some 24 |}]
                     {| total_breaks := 2; auto_resolved := 1; failed_resolution := 1;
                        resolutions :=
                          [(8, attempt_auto_resolve _load_resolution_rules 0 penny_break)] |}
                     0))
    as (cases & Hcases & Hids & _).
  - by eexists.
  - repeat constructor; by eexists.
  - exists cases. split; [exact Hcases|]. rewrite Hids. by vm_compute.
Defined.




(** ** From the engine to the workflow *)

Lemma match_internal_breaks fuzz_ratio cfg index ints :
  ∀ matches breaks (matched : gset Z) matches' breaks' matched',
    match_internal fuzz_ratio cfg index ints matches breaks matched
      = Ok (matches', breaks', matched') →
    Forall (engine_break cfg) breaks → Forall (engine_break cfg) breaks'.
Proof.
  induction ints as [|i ints IH]; intros matches breaks matched matches' breaks' matched'.
  - cbn. by intros [= <- <- <-].
  - cbn [match_internal].
    destruct (_find_best_match fuzz_ratio cfg i index matched) as [r|]; [|done].
    cbn [mbind result_bind]. destruct r as [|ext sc m].
    + intros Hrun Hb. eapply IH; [exact Hrun|].
      apply Forall_app. split; [done|]. apply Forall_singleton.
      left. eexists _, _. split; [by left|done].
    + intros Hrun Hb. eapply IH; [exact Hrun|done].
Qed.

Lemma match_trades_output fuzz_ratio cfg ints exts matches unmatched :
  match_trades fuzz_ratio cfg ints exts = Ok (matches, unmatched) →
  Forall (λ m, _validate_match cfg (internal_trade m) (external_trade m) = Ok true)
         matches ∧
  Forall (engine_break cfg) unmatched.
Proof.
  unfold match_trades.
  destruct (match_internal fuzz_ratio cfg _ ints [] [] ∅)
    as [[[ms bs] matched]|] eqn:Hrun; [|done].
  cbn [mbind result_bind mret result_ret]. intros [= <- <-]. split.
  - destruct (match_internal_pairs fuzz_ratio cfg ints exts ints (λ _ H, H)
                _ _ _ _ _ _ Hrun) as (_ & _ & Hsound); [set_solver|constructor|constructor|].
    eapply Forall_impl; [exact Hsound|]. by intros m (_ & _ & _ & _ & Hv & _).
  - apply Forall_app. split.
    + by eapply match_internal_breaks.
    + unfold unmatched_external. apply Forall_fmap, Forall_forall. intros t _.
      left. eexists _, _. split; [by right|done].
Qed.

Lemma identify_breaks_all cfg matches unmatched :
  Forall (λ m, _validate_match cfg (internal_trade m) (external_trade m) = Ok true)
         matches →
  Forall (engine_break cfg) unmatched →
  ∃ breaks, _identify_breaks cfg matches unmatched = Ok breaks ∧
            Forall (engine_break cfg) breaks ∧
            (length unmatched ≤ length breaks)%nat ∧
            (matches = [] → breaks = unmatched).
Proof.
  intros Hv Hun. induction Hv as [|m matches Hm _ (breaks & Hrun & Hall & Hlen & _)].
  - exists unmatched. by split_and!.
  - apply validate_match_true_inv in Hm as (Hnz & _).
    destruct (identify_breaks_total cfg _ (external_trade m) Hnz) as [bs Hbs].
    exists (bs ++ breaks). cbn [_identify_breaks]. rewrite Hbs, Hrun.
    split_and!; [done| | |done].
    + apply Forall_app. split; [|done]. apply Forall_forall. intros b Hb.
      right. by eexists _, _, _.
    + rewrite length_app. lia.
Qed.

Lemma categorize_engine_break now cfg b :
  engine_break cfg b →
  ∃ c, categorize_break now b = Ok c ∧ break_id (categorized c) = None.
Proof.
  intros [(kind & t & Hkind & ->)|(i & e & bs & Hbs & Hb)].
  - unfold categorize_break, _identify_root_cause.
    cbn [missing_break break_type trade break_id].
    destruct Hkind as [-> | ->].
    + change (contains "MISSING_EXTERNAL" "MISSING_EXTERNAL_TRADE") with true. cbn iota.
      case_bool_decide; by eexists.
    + change (contains "MISSING_EXTERNAL" "MISSING_INTERNAL_TRADE") with false.
      change (contains "MISSING_INTERNAL" "MISSING_INTERNAL_TRADE") with true.
      by eexists.
  - destruct (categorize_identified now cfg i e bs b Hbs Hb) as (root & _ & ->).
    by eexists.
Qed.

Lemma analyze_engine_breaks now cfg breaks :
  Forall (engine_break cfg) breaks →
  ∃ cats, _analyze_breaks now breaks = Ok cats ∧
          length cats = length breaks ∧
          Forall (λ cb, break_id (categorized cb) = None) cats.
Proof.
  induction 1 as [|b breaks Hb _ (cats & Hrun & Hlen & Hids)].
  - by exists [].
  - destruct (categorize_engine_break now cfg b Hb) as (c & Hc & Hid).
    exists (c :: cats). cbn [_analyze_breaks]. rewrite Hc, Hrun.
    split_and!; [done|by cbn; rewrite Hlen|by constructor].
Qed.

Lemma batch_loop_resolutions_without_ids u rules breaks :
  (∀ b, b ∈ breaks → break_id b = None) →
  ∀ res st r,
    (batch_loop u rules breaks res st).1 = Ok r → resolutions r = resolutions res.
Proof.
  intros Hids res st r.
  destruct (batch_loop_without_ids u rules breaks Hids res st) as (_ & Hraise & Hok).
  destruct (decide (Exists (λ b, auto_resolvable b = Some true ∧
                                 is_Some (List.find (fires b) rules)) breaks))
    as [Hex|Hnone].
  - rewrite Hraise; [done|]. apply Exists_exists in Hex as (b & Hb & Hauto & Hsome).
    exists b. split_and!; [done..|]. by apply not_eq_None_Some.
  - rewrite Hok; [by intros [= <-]|]. intros b Hb Hauto.
    apply eq_None_not_Some. intros Hsome. apply Hnone, Exists_exists. by exists b.
Qed.

(** X26.  Steps 2 to 6 of the run, composed.  Whenever [match_trades]
    returns, [_identify_breaks] and [_analyze_breaks] return as well, with one
    categorized break per break; none of them has an ['id'].  So the batch
    never writes the break table, and unless there is no break at all either
    [batch_auto_resolve] raises [KeyError('id')] (a rule fired) or it
    resolves nothing and [_create_workflow_cases] raises [KeyError('id')] on
    the first break.  (The clustering that [_analyze_breaks] also runs only
    feeds a log line.) *)
Theorem engine_breaks_stop_the_run (fuzz_ratio : string → string → Z)
    (cfg : MatchConfig) (now : Q) (ints exts : list Trade) matches unmatched :
  match_trades fuzz_ratio cfg ints exts = Ok (matches, unmatched) →
  ∃ breaks cats,
    _identify_breaks cfg matches unmatched = Ok breaks ∧
    _analyze_breaks now breaks = Ok cats ∧
    length cats = length breaks ∧
    (length unmatched ≤ length breaks)%nat ∧
    Forall (λ cb, break_id (categorized cb) = None) cats ∧
    ∀ utcnow rules st notification_config strftime_ymd str_int smtp_send tick,
      db (batch_auto_resolve utcnow rules (categorized <$> cats) st).2 = db st ∧
      (breaks ≠ [] →
       (batch_auto_resolve utcnow rules (categorized <$> cats) st).1
         = Raise (KeyError "id") ∨
       ∃ r, (batch_auto_resolve utcnow rules (categorized <$> cats) st).1 = Ok r ∧
            resolutions r = [] ∧
            _create_workflow_cases notification_config utcnow strftime_ymd str_int
              smtp_send cats r tick = Raise (KeyError "id")).
Proof.
  intros Hrun. apply match_trades_output in Hrun as [Hv Hun].
  destruct (identify_breaks_all cfg matches unmatched Hv Hun)
    as (breaks & Hbreaks & Hall & Hlen & _).
  destruct (analyze_engine_breaks now cfg breaks Hall) as (cats & Hcats & Hlen' & Hids).
  exists breaks, cats. split_and!; [done..|].
  intros utcnow rules st ncfg strf stri smtp tick.
  assert (∀ b, b ∈ categorized <$> cats → break_id b = None) as Hnone.
  { intros b (cb & -> & Hcb)%list_elem_of_fmap. rewrite Forall_forall in Hids. by apply Hids. }
  split.
  - unfold batch_auto_resolve.
    by destruct (batch_loop_without_ids utcnow rules _ Hnone
                   {| total_breaks := length (categorized <$> cats); auto_resolved := 0;
                      failed_resolution := 0; resolutions := [] |} st) as (Hdb & _).
  - intros Hne.
    destruct (batch_auto_resolve utcnow rules (categorized <$> cats) st).1
      as [r|e] eqn:Hbatch.
    + right. exists r. split; [done|].
      assert (resolutions r = []) as Hres.
      { unfold batch_auto_resolve in Hbatch.
        by apply (batch_loop_resolutions_without_ids utcnow rules _ Hnone) in Hbatch. }
      split; [done|]. unfold _create_workflow_cases.
      apply workflow_cases_loop_no_id; [|done].
      intros ->. apply Hne. by destruct breaks.
    + left. f_equal.
      destruct (batch_loop_without_ids utcnow rules _ Hnone
                  {| total_breaks := length (categorized <$> cats); auto_resolved := 0;
                     failed_resolution := 0; resolutions := [] |} st) as (_ & Hraise & Hok).
      unfold batch_auto_resolve in Hbatch.
      destruct (decide (Exists (λ b, auto_resolvable b = Some true ∧
                                     is_Some (List.find (fires b) rules))
                          (categorized <$> cats))) as [Hex|Hno].
      * rewrite Hraise in Hbatch; [by injection Hbatch as <-|].
        apply Exists_exists in Hex as (b & Hb & Hauto & Hsome).
        exists b. split_and!; [done..|]. by apply not_eq_None_Some.
      * rewrite Hok in Hbatch; [done|]. intros b Hb Hauto.
        apply eq_None_not_Some. intros Hsome. apply Hno, Exists_exists. by exists b.
Qed.

(** One purchase on each side, left unmatched under the default
    configuration: two breaks, the batch resolves nothing and the case
    creation raises. *)
Lemma engine_breaks_stop_the_run_witness :
  ∃ breaks cats,
    _identify_breaks default_config [] [missing_break "MISSING_EXTERNAL_TRADE" buy_internal;
                                        missing_break "MISSING_INTERNAL_TRADE" buy_external]
      = Ok breaks ∧
    _analyze_breaks 0 breaks = Ok cats ∧
    length cats = 2%nat ∧
    (batch_auto_resolve second_clock _load_resolution_rules (categorized <$> cats)
       open_table).1 =
      Ok {| total_breaks := 2; auto_resolved := 0; failed_resolution := 0;
            resolutions := [] |} ∧
    ∀ r tick,
      _create_workflow_cases {| from_address := Some "recon@firm.com" |} second_clock
        (λ _, "19700101") (λ _, "0") (λ _, Ok ()) cats r tick = Raise (KeyError "id").
Proof.
  destruct (engine_breaks_stop_the_run exact_ratio default_config 0
              [buy_internal] [buy_external] []
              [missing_break "MISSING_EXTERNAL_TRADE" buy_internal;
               missing_break "MISSING_INTERNAL_TRADE" buy_external])
    as (breaks & cats & Hbreaks & Hcats & Hlen & _ & Hids & Hrun);
    [vm_compute; reflexivity|].
  exists breaks, cats. split; [exact Hbreaks|]. split; [exact Hcats|].
  injection Hbreaks as <-. split; [exact Hlen|]. split.
  - vm_compute in Hcats. injection Hcats as <-. vm_compute. reflexivity.
  - intros r tick. unfold _create_workflow_cases.
    destruct cats as [|cb cats]; [discriminate Hlen|].
    apply Forall_cons in Hids as [Hid _]. cbn [workflow_cases_loop]. by rewrite Hid.
Defined.

(** ** The run record *)

Section Run_record.

Context {Report Case : Type}.
Variable _ingest_trades : result (list Trade * list Trade).
Variable _match_trades : list Trade → list Trade → result (list Match * list Break).
Variable _identify_breaks : list Match → list Break → result (list Break).
Variable _analyze_breaks : list Break → result (list Break).
Variable _auto_resolve_breaks : list Break → result BatchResults.
Variable _create_workflow_cases : list Break → BatchResults → result (list Case).
Variable _generate_report : ReconciliationRun → list Break → BatchResults → result Report.
Variable duration : Q.


End Run_record.

(** ** The FIX parser *)

Lemma FIX_TAG_MAP_lookup (tag name : string) :
  FIX_TAG_MAP !! tag = Some name →
  (tag, name) ∈ [("11", "trade_id"); ("55", "instrument_id"); ("54", "side");
                 ("38", "quantity"); ("44", "price"); ("15", "currency");
                 ("75", "trade_date"); ("64", "settlement_date")].
Proof.
  intros H. apply elem_of_map_to_list in H.
  set (l := map_to_list FIX_TAG_MAP) in H. vm_compute in l. subst l.
  set_solver.
Qed.

Lemma field_name_cases (tag : string) :
  (tag, field_name tag) ∈ [("11", "trade_id"); ("55", "instrument_id"); ("54", "side");
                           ("38", "quantity"); ("44", "price"); ("15", "currency");
                           ("75", "trade_date"); ("64", "settlement_date")] ∨
  field_name tag = "tag_" +:+ tag.
Proof.
  unfold field_name. destruct (FIX_TAG_MAP !! tag) as [name|] eqn:H; [|by right].
  left. by apply FIX_TAG_MAP_lookup.
Qed.

Lemma field_name_injective (t1 t2 : string) : field_name t1 = field_name t2 → t1 = t2.
Proof.
  intros Heq.
  destruct (field_name_cases t1) as [H1|H1], (field_name_cases t2) as [H2|H2].
  - rewrite <- Heq in H2.
    repeat (apply elem_of_cons in H1 as [H1|H1]; [injection H1 as -> Hn1|]);
      try (by apply elem_of_nil in H1);
      rewrite Hn1 in H2;
      repeat (apply elem_of_cons in H2 as [H2|H2]; [by injection H2 as ->|]);
      by apply elem_of_nil in H2.
  - rewrite Heq, H2 in H1.
    repeat (apply elem_of_cons in H1 as [H1|H1]; [by injection H1|]).
    by apply elem_of_nil in H1.
  - rewrite <- Heq, H1 in H2.
    repeat (apply elem_of_cons in H2 as [H2|H2]; [by injection H2|]).
    by apply elem_of_nil in H2.
  - rewrite H1, H2 in Heq. by injection Heq.
Qed.

(** *** Strings *)

Lemma contains_char_nil (c : ascii) : contains (String c "") "" = false.
Proof. reflexivity. Qed.

Lemma contains_char_cons (c a : ascii) (s : string) :
  contains (String c "") (String a s) = Ascii.eqb a c || contains (String c "") s.
Proof.
  cbn [contains String.prefix]. destruct (ascii_dec c a) as [->|Hne].
  - rewrite Ascii.eqb_refl. by destruct s.
  - destruct (Ascii.eqb_spec a c) as [->|_]; [done|]. reflexivity.
Qed.

Lemma contains_char_app (c : ascii) (s1 s2 : string) :
  contains (String c "") (s1 +:+ s2) =
  contains (String c "") s1 || contains (String c "") s2.
Proof.
  induction s1 as [|a s1 IH].
  - reflexivity.
  - change (String a s1 +:+ s2) with (String a (s1 +:+ s2)).
    rewrite !contains_char_cons, IH. by rewrite orb_assoc.
Qed.

Lemma split_nonempty (sep : ascii) (s : string) : split sep s ≠ [].
Proof.
  destruct s as [|c s]; [done|]. cbn [split].
  destruct (Ascii.eqb c sep); [done|]. by destruct (split sep s).
Qed.

Lemma split_no_sep (sep : ascii) (s : string) :
  contains (String sep "") s = false → split sep s = [s].
Proof.
  induction s as [|c s IH]; [done|]. rewrite contains_char_cons.
  intros [Hc Hs]%orb_false_elim. cbn [split]. by rewrite Hc, IH.
Qed.

Lemma split_app (sep : ascii) (s rest : string) :
  contains (String sep "") s = false →
  split sep (s +:+ String sep rest) = s :: split sep rest.
Proof.
  induction s as [|c s IH].
  - intros _. simpl. by rewrite Ascii.eqb_refl.
  - rewrite contains_char_cons. intros [Hc Hs]%orb_false_elim.
    change (String c s +:+ String sep rest) with (String c (s +:+ String sep rest)).
    cbn [split]. by rewrite Hc, IH.
Qed.

Lemma split_join (sep : ascii) (pieces : list string) :
  pieces ≠ [] →
  Forall (λ piece, contains (String sep "") piece = false) pieces →
  split sep (join sep pieces) = pieces.
Proof.
  intros Hne Hall. induction Hall as [|piece rest Hpiece Hrest IH]; [done|].
  destruct rest as [|next rest].
  - by apply split_no_sep.
  - change (join sep (piece :: next :: rest))
      with (piece +:+ String sep (join sep (next :: rest))).
    rewrite split_app by done. by rewrite IH.
Qed.

Lemma split_first_app (sep : ascii) (before after : string) :
  contains (String sep "") before = false →
  split_first sep (before +:+ String sep after) = (before, after).
Proof.
  induction before as [|c s IH].
  - intros _. simpl. by rewrite Ascii.eqb_refl.
  - rewrite contains_char_cons. intros [Hc Hs]%orb_false_elim.
    change (String c s +:+ String sep after) with (String c (s +:+ String sep after)).
    cbn [split_first]. by rewrite Hc, IH.
Qed.

(** *** The dictionary of a message *)

Lemma find_snoc {A} (P : A → bool) (l : list A) (x : A) :
  List.find P (l ++ [x]) =
  match List.find P l with
  | Some y => Some y
  | None => if P x then Some x else None
  end.
Proof.
  induction l as [|y l IH]; [done|]. cbn [app List.find]. by destruct (P y).
Qed.

Lemma parse_fields_lookup (key : string) (fields : list string) :
  ∀ trade_dict : gmap string string,
  foldl (λ trade_dict field,
           if contains "=" field then
             let '(tag, value) := split_first "=" field in
             <[field_name tag := value]> trade_dict
           else trade_dict)
        trade_dict fields !! key =
  match List.find (λ field, contains "=" field &&
                            bool_decide (field_name (split_first "=" field).1 = key))
                  (reverse fields) with
  | Some field => Some (split_first "=" field).2
  | None => trade_dict !! key
  end.
Proof.
  induction fields as [|field fields IH]; intros trade_dict; [done|].
  cbn [foldl]. rewrite IH, reverse_cons, find_snoc.
  destruct (List.find _ (reverse fields)); [done|]. cbn beta.
  destruct (contains "=" field); [|done].
  destruct (split_first "=" field) as [tag value] eqn:Hfield. cbn [fst snd andb].
  case_bool_decide as Hkey.
  - by rewrite Hfield, <- Hkey, lookup_insert_eq.
  - by rewrite lookup_insert_ne.
Qed.

Lemma parse_fix_message_find (strip : string → string) (message key : string) :
  _parse_fix_message strip message !! key =
    match List.find (λ field, contains "=" field &&
                              bool_decide (field_name (split_first "=" field).1 = key))
                    (reverse (split "|" (strip message))) with
    | Some field => Some (split_first "=" field).2
    | None => None
    end.
Proof.
  unfold _parse_fix_message. cbn zeta. by rewrite parse_fields_lookup, lookup_empty.
Qed.

Lemma parse_fix_message_absent (strip : string → string) (message key : string) :
  key ∈ ["counterparty"; "account"; "instrument_name"; "source"; "id"] →
  _parse_fix_message strip message !! key = None.
Proof.
  intros Hkey. rewrite parse_fix_message_find.
  destruct (List.find _ _) as [field|] eqn:Hfind; [|done].
  apply find_some in Hfind as [_ Hfield].
  apply andb_prop in Hfield as [_ Hname]. apply bool_decide_eq_true in Hname.
  exfalso. destruct (field_name_cases (split_first "=" field).1) as [H|H].
  - rewrite Hname in H.
    repeat (apply elem_of_cons in H as [H|H];
            [injection H as _ ->;
             repeat (apply elem_of_cons in Hkey as [Hkey|Hkey]; [done|]);
             by apply elem_of_nil in Hkey|]).
    by apply elem_of_nil in H.
  - rewrite Hname in H. rewrite H in Hkey.
    repeat (apply elem_of_cons in Hkey as [Hkey|Hkey]; [done|]).
    by apply elem_of_nil in Hkey.
Qed.

(** X28.  In the dictionary of [_parse_fix_message] a key holds the value
    of the last field of the message, read from the left, whose tag maps to
    that key; the map from tags to keys ([FIX_TAG_MAP] with the default
    [tag_<tag>]) is one-to-one, so two different tags never overwrite each
    other; and no message gives the keys counterparty, account,
    instrument_name, source or id. *)
Theorem parse_fix_message_lookup (strip : string → string) (message key : string) :
  _parse_fix_message strip message !! key =
    match List.find (λ field, contains "=" field &&
                              bool_decide (field_name (split_first "=" field).1 = key))
                    (reverse (split "|" (strip message))) with
    | Some field => Some (split_first "=" field).2
    | None => None
    end ∧
  (∀ t1 t2, field_name t1 = field_name t2 → t1 = t2) ∧
  (key ∈ ["counterparty"; "account"; "instrument_name"; "source"; "id"] →
   _parse_fix_message strip message !! key = None).
Proof.
  split_and!.
  - apply parse_fix_message_find.
  - apply field_name_injective.
  - apply parse_fix_message_absent.
Qed.

(** *** The trades of a FIX file *)

Section Parsers_properties.

Variable strip : string → string.
Variable strptime : string → string → option Q.
Variable float : string → option Q.
Variable json_dumps : gmap string string → string.

Lemma normalize_trade_Some raw_trade source normalized :
  normalize_trade strptime float json_dumps raw_trade source = Some normalized →
  is_Some (raw_trade !! "trade_date") ∧ is_Some (raw_trade !! "settlement_date") ∧
  n_source normalized = source ∧
  n_trade_id normalized = raw_trade !! "trade_id" ∧
  n_instrument_id normalized = raw_trade !! "instrument_id" ∧
  n_instrument_name normalized = raw_trade !! "instrument_name" ∧
  n_counterparty normalized = raw_trade !! "counterparty" ∧
  n_account normalized = raw_trade !! "account" ∧
  n_currency normalized = default "USD" (raw_trade !! "currency").
Proof.
  unfold normalize_trade.
  destruct (_parse_date strptime (raw_trade !! "trade_date")) as [td|] eqn:Htd;
    cbn [mbind option_bind]; [|done].
  destruct (_parse_date strptime (raw_trade !! "settlement_date")) as [sd|] eqn:Hsd;
    cbn [mbind option_bind]; [|done].
  destruct (float_or_zero float (raw_trade !! "quantity")) as [q|];
    cbn [mbind option_bind]; [|done].
  destruct (float_or_zero float (raw_trade !! "price")) as [p|];
    cbn [mbind option_bind]; [|done].
  cbn [mret option_ret]. intros [= <-].
  cbn [n_source n_trade_id n_instrument_id n_instrument_name n_counterparty
       n_account n_currency].
  split_and!; try reflexivity.
  - by destruct (raw_trade !! "trade_date").
  - by destruct (raw_trade !! "settlement_date").
Qed.

Lemma omap_length_filter {A B} (f : A → option B) (P : A → Prop)
    `{!∀ x, Decision (P x)} (l : list A) :
  (∀ x y, f x = Some y → P x) →
  (length (omap f l) ≤ length (filter P l))%nat.
Proof.
  intros Hf. induction l as [|x l IH]; [done|]. cbn [omap list_omap].
  rewrite filter_cons. destruct (f x) as [y|] eqn:Hx.
  - rewrite decide_True by (by eapply Hf). cbn [length]. lia.
  - destruct (decide (P x)); cbn [length]; lia.
Qed.

Lemma fix_parse_loop (lines : list string) (source : string) : ∀ trades,
  foldl (λ trades line,
           match normalize_trade strptime float json_dumps
                   (_parse_fix_message strip line) source with
           | Some normalized => trades ++ [normalized]
           | None => trades
           end)
        trades lines =
  trades ++ omap (λ line, normalize_trade strptime float json_dumps
                            (_parse_fix_message strip line) source) lines.
Proof.
  induction lines as [|line lines IH]; intros trades; cbn [foldl omap list_omap].
  - by rewrite app_nil_r.
  - rewrite IH. destruct (normalize_trade _ _ _ _ _); [|done].
    by rewrite <- app_assoc.
Qed.

(** X29.  [FIXMessageParser.parse] returns at most as many trades as there
    are lines that carry a trade date (tag 75) and a settlement date (tag
    64): a line without one of them is skipped.  Each trade has the given
    source, no counterparty, no account and no instrument name, and takes its
    trade id and its instrument from such a line. *)
Theorem fix_parse_trades (lines : list string) (source : string) :
  let trades := fix_parse strip strptime float json_dumps lines source in
  (length trades ≤
   length (filter (λ line,
                     is_Some (_parse_fix_message strip line !! "trade_date") ∧
                     is_Some (_parse_fix_message strip line !! "settlement_date"))
                  lines) ≤ length lines)%nat ∧
  Forall (λ normalized,
            n_source normalized = source ∧
            n_counterparty normalized = None ∧
            n_account normalized = None ∧
            n_instrument_name normalized = None ∧
            ∃ line, line ∈ lines ∧
              is_Some (_parse_fix_message strip line !! "trade_date") ∧
              is_Some (_parse_fix_message strip line !! "settlement_date") ∧
              n_trade_id normalized = _parse_fix_message strip line !! "trade_id" ∧
              n_instrument_id normalized =
                _parse_fix_message strip line !! "instrument_id")
         trades.
Proof.
  cbn zeta. unfold fix_parse. rewrite fix_parse_loop, app_nil_l. split.
  - split; [|apply length_filter].
    apply omap_length_filter. intros line normalized Hn.
    by apply normalize_trade_Some in Hn as (Hd & Hs & _).
  - apply Forall_forall. intros normalized (line & Hline & Hn)%list_elem_of_omap.
    apply normalize_trade_Some in Hn
      as (Hd & Hs & Hsrc & Hid & Hinstr & Hname & Hcpty & Hacct & _).
    rewrite parse_fix_message_absent in Hcpty by set_solver.
    rewrite parse_fix_message_absent in Hacct by set_solver.
    rewrite parse_fix_message_absent in Hname by set_solver.
    split_and!; [done..|]. by exists line.
Qed.

End Parsers_properties.

(** *** Reading back a message *)

Lemma parse_fields_pairs (pairs : list (string * string)) :
  Forall (λ p, contains "=" p.1 = false) pairs →
  ∀ trade_dict : gmap string string,
  foldl (λ trade_dict field,
           if contains "=" field then
             let '(tag, value) := split_first "=" field in
             <[field_name tag := value]> trade_dict
           else trade_dict)
        trade_dict ((λ p, p.1 +:+ String "=" p.2) <$> pairs) =
  foldl (λ trade_dict p, <[field_name p.1 := p.2]> trade_dict) trade_dict pairs.
Proof.
  induction 1 as [|[tag value] pairs Htag _ IH]; intros trade_dict; [done|].
  cbn [fmap list_fmap foldl fst snd] in *.
  change (contains "=" (tag +:+ String "=" value))
    with (contains (String "=" "") (tag +:+ String "=" value)).
  rewrite contains_char_app, contains_char_cons, Ascii.eqb_refl, orb_true_r.
  rewrite split_first_app by exact Htag. apply IH.
Qed.

Lemma insert_pairs_lookup (pairs : list (string * string)) (key value : string) :
  ∀ trade_dict : gmap string string,
  foldl (λ trade_dict p, <[field_name p.1 := p.2]> trade_dict) trade_dict pairs
    !! key = Some value →
  trade_dict !! key = Some value ∨
  ∃ tag, (tag, value) ∈ pairs ∧ key = field_name tag.
Proof.
  induction pairs as [|[t v] pairs IH]; intros trade_dict; cbn [foldl fst snd].
  - by left.
  - intros [Hd|(tag & Hin & ->)]%IH.
    + destruct (decide (field_name t = key)) as [<-|Hne].
      * rewrite lookup_insert_eq in Hd. injection Hd as ->.
        right. exists t. split; [by left|done].
      * rewrite lookup_insert_ne in Hd by done. by left.
    + right. exists tag. split; [by right|done].
Qed.

Lemma insert_pairs_fresh (pairs : list (string * string)) (tag : string) :
  tag ∉ pairs.*1 →
  ∀ trade_dict : gmap string string,
  foldl (λ trade_dict p, <[field_name p.1 := p.2]> trade_dict) trade_dict pairs
    !! field_name tag = trade_dict !! field_name tag.
Proof.
  induction pairs as [|[t v] pairs IH]; intros Hfresh trade_dict; [done|].
  cbn [foldl fst snd]. rewrite fmap_cons, not_elem_of_cons in Hfresh.
  destruct Hfresh as [Hne Hfresh]. rewrite IH by done.
  apply lookup_insert_ne. intros Heq. apply Hne. symmetry.
  by apply field_name_injective.
Qed.

Lemma insert_pairs_member (pairs : list (string * string)) (tag value : string) :
  NoDup pairs.*1 → (tag, value) ∈ pairs →
  ∀ trade_dict : gmap string string,
  foldl (λ trade_dict p, <[field_name p.1 := p.2]> trade_dict) trade_dict pairs
    !! field_name tag = Some value.
Proof.
  induction pairs as [|[t v] pairs IH]; intros Hnd Hin trade_dict.
  - by apply elem_of_nil in Hin.
  - rewrite fmap_cons in Hnd. apply NoDup_cons in Hnd as [Hfresh Hnd].
    cbn [foldl fst snd]. apply elem_of_cons in Hin as [[= -> ->]|Hin].
    + rewrite insert_pairs_fresh by exact Hfresh. apply lookup_insert_eq.
    + by apply IH.
Qed.

(** X30.  Reading back a message.  For tag=value pairs with distinct tags,
    no [=] or pipe in a tag and no pipe in a value, joined by pipes into a
    message that [strip] leaves alone, [_parse_fix_message] returns exactly
    the values under the keys of their tags (a value may hold [=]). *)
Theorem parse_fix_message_round_trip (strip : string → string)
    (pairs : list (string * string)) :
  Forall (λ p, contains "=" p.1 = false ∧ contains "|" p.1 = false ∧
               contains "|" p.2 = false) pairs →
  NoDup pairs.*1 →
  strip (fix_message pairs) = fix_message pairs →
  ∀ key value,
    _parse_fix_message strip (fix_message pairs) !! key = Some value ↔
    ∃ tag, (tag, value) ∈ pairs ∧ key = field_name tag.
Proof.
  intros Hpairs Hnd Hstrip key value.
  assert (_parse_fix_message strip (fix_message pairs) =
          foldl (λ trade_dict p, <[field_name p.1 := p.2]> trade_dict) ∅ pairs) as ->.
  { unfold _parse_fix_message. cbn zeta. rewrite Hstrip. unfold fix_message.
    destruct pairs as [|p pairs]; [done|].
    rewrite split_join.
    - apply parse_fields_pairs. eapply Forall_impl; [exact Hpairs|]. by intros ? (? & _).
    - done.
    - apply Forall_fmap. eapply Forall_impl; [exact Hpairs|].
      intros [t v] (_ & Ht & Hv). unfold compose. cbn [fst snd] in *.
      rewrite contains_char_app, contains_char_cons.
      change (contains (String "|" "") t) with (contains "|" t).
      change (contains (String "|" "") v) with (contains "|" v).
      by rewrite Ht, Hv. }
  split.
  - intros [Hd|H]%insert_pairs_lookup; [by rewrite lookup_empty in Hd|done].
  - intros (tag & Hin & ->). by apply insert_pairs_member.
Qed.

(** A message of four fields, one with an unknown tag and a value that
    holds [=]. *)
Lemma parse_fix_message_round_trip_witness :
  _parse_fix_message (λ s, s) "11=T1|55=ABC|44=10.5|9999=x=y" !! "tag_9999" = Some "x=y" ∧
  _parse_fix_message (λ s, s) "11=T1|55=ABC|44=10.5|9999=x=y" !! "trade_id" = Some "T1".
Proof.
  assert (Forall (λ p, contains "=" p.1 = false ∧ contains "|" p.1 = false ∧
                       contains "|" p.2 = false) sample_fix_pairs) as Hpairs
    by (repeat constructor).
  assert (NoDup sample_fix_pairs.*1) as Hnd
    by (cbn; repeat constructor; set_solver).
  split.
  - apply (parse_fix_message_round_trip (λ s, s) sample_fix_pairs Hpairs Hnd eq_refl).
    exists "9999". split; [set_solver|reflexivity].
  - apply (parse_fix_message_round_trip (λ s, s) sample_fix_pairs Hpairs Hnd eq_refl).
    exists "11". split; [set_solver|reflexivity].
Defined.
